(** * cattool: the WWT core-catalog rewrite engine

    A shallow embedding of [cattool.py]: the imageset and place shard
    stores, their partition and sort keys, the directory swap that commits
    a rewrite, and the attribute-splitting XML prettifier.

    Conventions of the embedding.
    - Python [str] values are [string]s; the character classes of the
      regular expressions and [str.lower] are the ASCII ones, which is what
      Python computes on ASCII text.
    - YAML scalars are [pyval]s: [None], a string, or a number.  A number is
      a rational ([Q]): every finite Python [int] or [float] is one, and
      [math.floor], [==] and [<] are exact on them.  The two infinities and
      NaN, on which [math.floor] raises and [==] is no equivalence, are not
      values of the model: what is proved of numbers is proved of finite
      numbers.
    - [fs] lists the directories there are, each under its path as
      [str(Path)] gives it, with the regular files it holds; there are no
      symbolic links.  A file name is at most 255 bytes long, the limit of
      the usual Linux file systems, and paths stay within the limit of
      the system.
    - A Python exception is an [Err] result; code that writes to the
      file system or to [stderr] runs in the state-and-error monad [M]. *)

From Stdlib Require Import ZArith QArith Qround String Ascii List Lia Bool.
From Stdlib Require Import DecimalString DecimalN Sorting.Permutation Sorting.Sorted.
From stdpp Require Import gmap strings list fin_maps.

Local Open Scope string_scope.
Local Open Scope Z_scope.
Local Open Scope list_scope.

(** ** Python values and exceptions *)

Inductive pyval : Type :=
| VNone
| VStr (s : string)
| VNum (q : Q).

Inductive pyerr : Type :=
| KeyError (k : string)
| TypeError
| AssertionError
| ValueError
| OSError.

Inductive result (A : Type) : Type :=
| Ok (a : A)
| Err (e : pyerr).
Arguments Ok {A} a.
Arguments Err {A} e.

Definition rbind {A B} (r : result A) (f : A -> result B) : result B :=
  match r with
  | Ok a => f a
  | Err e => Err e
  end.

Declare Scope res_scope.
Delimit Scope res_scope with res.
Notation "x <-! r ; k" := (rbind r (fun x => k))
  (at level 100, r at next level, right associativity) : res_scope.

(** [d.get(k)]: the value, or [None] when the key is missing. *)
Definition dict_get (d : gmap string pyval) (k : string) : pyval :=
  match d !! k with
  | Some v => v
  | None => VNone
  end.

(** [d[k]]: the value, or [KeyError]. *)
Definition dict_item (d : gmap string pyval) (k : string) : result pyval :=
  match d !! k with
  | Some v => Ok v
  | None => Err (KeyError k)
  end.

Definition is_not_none (v : pyval) : bool :=
  match v with
  | VNone => false
  | _ => true
  end.

(** ** Strings *)

Definition lower_ascii (c : ascii) : ascii :=
  let n := N_of_ascii c in
  if ((65 <=? n) && (n <=? 90))%N then ascii_of_N (n + 32) else c.

(** [s.lower()] *)
Fixpoint lower (s : string) : string :=
  match s with
  | EmptyString => EmptyString
  | String c s' => String (lower_ascii c) (lower s')
  end.

(** [sep.join(l)] on a list of strings. *)
Fixpoint join (sep : string) (l : list string) : string :=
  match l with
  | [] => EmptyString
  | [x] => x
  | x :: l' => x +:+ sep +:+ join sep l'
  end.

(** [sep.join(l)] on a list of values: every item must be a [str]. *)
Fixpoint as_strs (l : list pyval) : result (list string) :=
  match l with
  | [] => Ok []
  | VStr s :: l' => (r <-! as_strs l'; Ok (s :: r))%res
  | _ :: _ => Err TypeError
  end.

Definition py_join (sep : string) (l : list pyval) : result string :=
  (ss <-! as_strs l; Ok (join sep ss))%res.

Fixpoint zeros (n : nat) : string :=
  match n with
  | O => EmptyString
  | S n' => String "0" (zeros n')
  end.

Definition digits (n : N) : string := NilZero.string_of_uint (N.to_uint n).

(** [zfill]: left-pad [s] with zeros up to [w] characters. *)
Definition pad0 (w : nat) (s : string) : string :=
  zeros (w - String.length s) +:+ s.

(** [format(z, "0wd")]: sign-aware zero padding to a minimum width [w];
    the sign, when there is one, counts in the width. *)
Definition fmt_d (w : nat) (z : Z) : string :=
  if z <? 0 then String "-" (pad0 (w - 1) (digits (Z.to_N (- z))))
  else pad0 w (digits (Z.to_N z)).

(** The integer that a decimal numeral stands for, leading zeros and a
    minus sign allowed. *)
Definition read_int (s : string) : option Z :=
  option_map Z.of_int (NilZero.int_of_string s).

(** [int(math.floor(v))] for a finite number [v]; on another value it is
    a [TypeError]. *)
Definition math_floor (v : pyval) : result Z :=
  match v with
  | VNum q => Ok (Qfloor q)
  | _ => Err TypeError
  end.

(** ** Comparison of values and of tuples *)

(** [a == b] *)
Definition py_eqb (a b : pyval) : bool :=
  match a, b with
  | VNone, VNone => true
  | VStr s, VStr t => String.eqb s t
  | VNum p, VNum q => Qeq_bool p q
  | _, _ => false
  end.

(** [a < b]: only two strings or two numbers are ordered. *)
Definition py_ltb (a b : pyval) : result bool :=
  match a, b with
  | VStr s, VStr t => Ok (String.ltb s t)
  | VNum p, VNum q => Ok (negb (Qle_bool q p))
  | _, _ => Err TypeError
  end.

(** [a < b] on tuples: the first position where the items are not [==]
    decides with [<]; a proper prefix is smaller. *)
Fixpoint tuple_ltb (a b : list pyval) : result bool :=
  match a, b with
  | [], [] => Ok false
  | [], _ :: _ => Ok true
  | _ :: _, [] => Ok false
  | x :: a', y :: b' => if py_eqb x y then tuple_ltb a' b' else py_ltb x y
  end.

(** ** [sorted]: a stable sort by [<] on the keys

    [insert_by] puts an item in front of a sorted list, moving it right
    past the items that are strictly smaller; with the items taken from
    the right this gives the one stable arrangement. *)

Section Sorted.
Context {A K : Type}.
Variable lt : K -> K -> result bool.

Fixpoint insert_by (x : K * A) (l : list (K * A)) : result (list (K * A)) :=
  match l with
  | [] => Ok [x]
  | y :: l' =>
      (b <-! lt (fst y) (fst x);
       if b then (r <-! insert_by x l'; Ok (y :: r)) else Ok (x :: l))%res
  end.

Fixpoint sort_by (l : list (K * A)) : result (list (K * A)) :=
  match l with
  | [] => Ok []
  | x :: l' => (r <-! sort_by l'; insert_by x r)%res
  end.

Fixpoint with_keys (key : A -> result K) (l : list A) : result (list (K * A)) :=
  match l with
  | [] => Ok []
  | x :: l' => (k <-! key x; r <-! with_keys key l'; Ok ((k, x) :: r))%res
  end.

(** [sorted(l, key=key)]: all keys are computed first, then compared. *)
Definition sorted (key : A -> result K) (l : list A) : result (list A) :=
  (kl <-! with_keys key l; r <-! sort_by kl; Ok (map snd r))%res.
End Sorted.

(** ** The world: directories, standard streams, injected I/O faults *)

(** What a file holds: the lines printed to a text file, or the documents
    [yaml.dump_all] was given. *)
Inductive content : Type :=
| Text (lines : list string)
| Docs (docs : list (gmap string pyval)).

(** [fs] maps the path of a directory to its files.  [faults] is the
    fault schedule: every file-system call takes the next entry and fails
    with [OSError] when it is [true]; an exhausted schedule injects no
    fault. *)
Record world : Type := World {
  fs : gmap string (gmap string content);
  stdout : list string;
  stderr : list string;
  faults : list bool
}.

Definition set_fs (f : gmap string (gmap string content)) (w : world) : world :=
  World f (stdout w) (stderr w) (faults w).

Definition M (A : Type) : Type := world -> result A * world.

Definition ret {A} (a : A) : M A := fun w => (Ok a, w).
Definition raise {A} (e : pyerr) : M A := fun w => (Err e, w).
Definition bind {A B} (m : M A) (f : A -> M B) : M B :=
  fun w => match m w with
           | (Ok a, w') => f a w'
           | (Err e, w') => (Err e, w')
           end.
Definition lift {A} (r : result A) : M A := fun w => (r, w).

Declare Scope io_scope.
Delimit Scope io_scope with io.
Notation "x <~ m ; k" := (bind m (fun x => k))
  (at level 100, m at next level, right associativity) : io_scope.
Notation "m ;; k" := (bind m (fun _ => k))
  (at level 100, right associativity) : io_scope.

(** [for x in l: body x] *)
Fixpoint for_each {A} (l : list A) (body : A -> M unit) : M unit :=
  match l with
  | [] => ret tt
  | x :: l' => (body x ;; for_each l' body)%io
  end.

Definition io_fault : M unit :=
  fun w => match faults w with
           | true :: fl => (Err OSError, World (fs w) (stdout w) (stderr w) fl)
           | false :: fl => (Ok tt, World (fs w) (stdout w) (stderr w) fl)
           | [] => (Ok tt, w)
           end.

(** [Path.mkdir]: the path must be free. *)
Definition mkdir (p : string) : M unit :=
  (io_fault ;;
   fun w => match fs w !! p with
            | Some _ => (Err OSError, w)
            | None => (Ok tt, set_fs (<[p := ∅]> (fs w)) w)
            end)%io.

(** [Path.rename] on directories (POSIX): the source must exist; the
    target must be free or an empty directory, which is replaced. *)
Definition rename (src dst : string) : M unit :=
  (io_fault ;;
   fun w => match fs w !! src with
            | None => (Err OSError, w)
            | Some d =>
                match fs w !! dst with
                | Some d' =>
                    if bool_decide (d' = ∅)
                    then (Ok tt, set_fs (<[dst := d]> (delete src (fs w))) w)
                    else (Err OSError, w)
                | None => (Ok tt, set_fs (<[dst := d]> (delete src (fs w))) w)
                end
            end)%io.

(** [shutil.rmtree]; a fault leaves the tree in place. *)
Definition rmtree (p : string) : M unit :=
  (io_fault ;;
   fun w => match fs w !! p with
            | None => (Err OSError, w)
            | Some _ => (Ok tt, set_fs (delete p (fs w)) w)
            end)%io.

(** An output stream: [sys.stdout], or a file opened for writing. *)
Inductive stream : Type :=
| Stdout
| File (dir name : string).

(** *** Paths *)

Definition is_empty (s : string) : bool :=
  match s with
  | EmptyString => true
  | String _ _ => false
  end.

Fixpoint has_char (c : ascii) (s : string) : bool :=
  match s with
  | EmptyString => false
  | String d s' => Ascii.eqb d c || has_char c s'
  end.

(** The longest name of a directory entry, in bytes. *)
Definition name_max : nat := 255.

(** A name that is one component of a path and can be the name of a file:
    no separator and no NUL in it, not empty, not one of the two dot
    entries, and not too long. *)
Definition plain_name (s : string) : bool :=
  negb (has_char "/" s) && negb (has_char "000" s) && negb (is_empty s)
  && negb (String.eqb s ".") && negb (String.eqb s "..")
  && Nat.leb (String.length s) name_max.

(** [s.split("/")], [cur] being the piece that is being read. *)
Fixpoint split_slash_from (cur s : string) : list string :=
  match s with
  | EmptyString => [cur]
  | String c s' =>
      if Ascii.eqb c "/" then cur :: split_slash_from EmptyString s'
      else split_slash_from (cur +:+ String c EmptyString) s'
  end.

(** The components that [pathlib] keeps of the right operand of [/]:
    empty pieces and the pieces ["."] are dropped, [".."] stays. *)
Definition components (s : string) : list string :=
  List.filter (fun c => negb (is_empty c) && negb (String.eqb c "."))
              (split_slash_from EmptyString s).

Definition is_absolute (s : string) : bool :=
  match s with
  | String "/" _ => true
  | _ => false
  end.

(** What stands before and behind the last separator of a path. *)
Fixpoint split_last (p : string) : option (string * string) :=
  match p with
  | EmptyString => None
  | String c p' =>
      match split_last p' with
      | Some (pre, last) => Some (String c pre, last)
      | None => if Ascii.eqb c "/" then Some (EmptyString, p') else None
      end
  end.

(** The directory [n] in the directory [p]. *)
Definition child (p n : string) : string :=
  if String.eqb p "." then n
  else if String.eqb p "/" then "/" +:+ n
  else p +:+ "/" +:+ n.

(** The directory that holds the directory [p]; the root holds itself,
    and a path without separator is an entry of the current directory
    ["."]. *)
Definition parent (p : string) : string :=
  match split_last p with
  | None =>
      if String.eqb p "." then ".."
      else if String.eqb p ".." then "../.."
      else "."
  | Some (pre, last) =>
      if String.eqb last ".." then p +:+ "/.."
      else if is_empty pre then "/"
      else pre
  end.

(** Where the file system goes for the components of a path, from the
    directory [cur]: [".."] leads to the parent, a name into the
    directory of that name, which must be there, and the last component
    is the name of the file.  The result is the directory that the file
    is in, its name, and whether the directory is there for sure (the
    root, and a parent) even when [f] does not list it. *)
Fixpoint walk (f : gmap string (gmap string content)) (cur : string) (sure : bool)
    (comps : list string) : result (string * string * bool) :=
  match comps with
  | [] => Err OSError
  | [n] =>
      if String.eqb n ".." then Err OSError
      else if Nat.leb (String.length n) name_max then Ok (cur, n, sure)
      else Err OSError
  | c :: rest =>
      if String.eqb c ".." then
        if sure || bool_decide (is_Some (f !! cur))
        then walk f (parent cur) true rest
        else Err OSError
      else if Nat.leb (String.length c) name_max then
        match f !! child cur c with
        | Some _ => walk f (child cur c) false rest
        | None => Err OSError
        end
      else Err OSError
  end.

(** [dir / name], as the file system resolves it: an absolute [name]
    stands for itself. *)
Definition lands (f : gmap string (gmap string content)) (dir name : string)
  : result (string * string * bool) :=
  if is_absolute name then walk f "/" true (components name)
  else walk f dir false (components name).

(** *** Files *)

(** [(dir / name).open("wt")] for the file of a shard of imagesets, line
    96: [name] is the key of the shard and ".xml".  A NUL in the name is
    a [ValueError] before the file system is asked.  The key starts with
    the value of the data-set type, a member of an enumeration and so a
    word; hence a separator in the name makes the first component of the
    path a name under the directory that the rewrite has just made,
    where no directory is, and the call fails with an [OSError], as it
    does for a name that is too long.  Otherwise the directory must
    exist, and the file is created, or truncated. *)
Definition open_wt (dir name : string) : M stream :=
  if has_char "000" name then raise ValueError
  else
    (io_fault ;;
     fun w => if plain_name name then
                match fs w !! dir with
                | None => (Err OSError, w)
                | Some d =>
                    (Ok (File dir name),
                     set_fs (<[dir := <[name := Text []]> d]> (fs w)) w)
                end
              else (Err OSError, w))%io.

(** Leaving the [with] block closes (and flushes) the file. *)
Definition close (s : stream) : M unit := io_fault.

Definition add_line (line : string) (c : option content) : option content :=
  match c with
  | Some (Text ls) => Some (Text (ls ++ [line]))
  | Some (Docs _) | None => Some (Text [line])
  end.

(** [print(line, file=s)] *)
Definition print (line : string) (s : stream) : M unit :=
  fun w => match s with
           | Stdout => (Ok tt, World (fs w) (stdout w ++ [line]) (stderr w) (faults w))
           | File dir name =>
               match fs w !! dir with
               | None => (Err OSError, w)
               | Some d =>
                   (Ok tt, set_fs (<[dir := partial_alter (add_line line) name d]> (fs w)) w)
               end
           end.

(** [warn(text)] *)
Definition warn (text : string) : M unit :=
  fun w => (Ok tt, World (fs w) (stdout w) (stderr w ++ ["warning: " +:+ text]) (faults w)).

(** Putting the file [n] with the content [c] into the directory [d]; a
    directory that [f] does not list is an error, unless it is there for
    sure. *)
Definition put_file (f : gmap string (gmap string content)) (d n : string)
    (sure : bool) (c : content) : option (gmap string (gmap string content)) :=
  match f !! d with
  | Some files => Some (<[d := <[n := c]> files]> f)
  | None => if sure then Some (<[d := {[ n := c ]}]> f) else None
  end.

(** [write_multi_yaml(dir / name, docs)], lines 41-49 called from line
    259.  The file is opened at the path that [dir / name] resolves to,
    which is a file of [dir] when [name] is one component, and may be
    anywhere when it has separators; a NUL in the name is a
    [ValueError].  The YAML text of the documents is the serializer's
    business: the file is modelled by the documents it was given. *)
Definition write_multi_yaml (dir name : string) (docs : list (gmap string pyval)) : M unit :=
  if has_char "000" name then raise ValueError
  else
    (io_fault ;;
     (fun w => match lands (fs w) dir name with
               | Err e => (Err e, w)
               | Ok (d, n, sure) =>
                   match put_file (fs w) d n sure (Docs docs) with
                   | Some f => (Ok tt, set_fs f w)
                   | None => (Err OSError, w)
                   end
               end) ;;
     io_fault)%io.

(** ** prettify: one attribute per line, alphabetized *)

Definition in_range (lo hi : N) (c : ascii) : bool :=
  let n := N_of_ascii c in ((lo <=? n) && (n <=? hi))%N.

Definition is_alnum (c : ascii) : bool :=
  in_range 48 57 c || in_range 65 90 c || in_range 97 122 c.

(** [\s] *)
Definition is_space (c : ascii) : bool := in_range 9 13 c || in_range 28 32 c.

(** [\w] *)
Definition is_word (c : ascii) : bool := is_alnum c || Ascii.eqb c "_".

(** [[-_a-zA-Z0-9]] *)
Definition is_tag_char (c : ascii) : bool :=
  is_alnum c || Ascii.eqb c "-" || Ascii.eqb c "_".

(** Any character but the double quote (code 34). *)
Definition not_quote (c : ascii) : bool := negb (Ascii.eqb c "034").

(** The longest prefix of [s] in the class [p], and what follows it: a
    greedy [p*]. *)
Fixpoint span (p : ascii -> bool) (s : string) : string * string :=
  match s with
  | EmptyString => (EmptyString, EmptyString)
  | String c s' =>
      if p c then let (a, b) := span p s' in (String c a, b) else (EmptyString, s)
  end.

(** [s.rstrip()] *)
Fixpoint rstrip (s : string) : string :=
  match s with
  | EmptyString => EmptyString
  | String c s' =>
      let r := rstrip s' in
      if is_space c && is_empty r then EmptyString else String c r
  end.

(** Line boundaries of [str.splitlines]. *)
Definition is_linebreak (c : ascii) : bool := in_range 10 13 c || in_range 28 30 c.

(** [text.splitlines()]; [cur] is the line being read. *)
Fixpoint splitlines_from (cur : string) (s : string) : list string :=
  match s with
  | EmptyString => if is_empty cur then [] else [cur]
  | String c s' =>
      if is_linebreak c then
        match s' with
        | String c' s'' =>
            if Ascii.eqb c "013" && Ascii.eqb c' "010"
            then cur :: splitlines_from EmptyString s''
            else cur :: splitlines_from EmptyString s'
        | EmptyString => [cur]
        end
      else splitlines_from (cur +:+ String c EmptyString) s'
  end.

Definition splitlines (s : string) : list string := splitlines_from EmptyString s.

(** [START_ATTR_TAG_RE.match(line)]: the groups [indent] and [tag], and
    the line from [m.end()] on. *)
Definition match_start_attr_tag (line : string) : option (string * string * string) :=
  let (indent, r) := span is_space line in
  match r with
  | String "<" r1 =>
      let (tag, r2) := span is_tag_char r1 in
      if is_empty tag then None
      else match r2 with
           | String c r3 => if is_space c then Some (indent, tag, r3) else None
           | EmptyString => None
           end
  | _ => None
  end.

(** [$]: the end of the text, or just before a final newline. *)
Definition at_dollar (s : string) : bool :=
  match s with
  | EmptyString => true
  | String c EmptyString => Ascii.eqb c "010"
  | _ => false
  end.

(** [ATTRS_DONE_RE.match(text)]: whether the group [(/?)] is non-empty. *)
Definition match_attrs_done (text : string) : option bool :=
  let (_, r) := span is_space text in
  match r with
  | String "/" (String ">" r') => if at_dollar r' then Some true else None
  | String ">" r' => if at_dollar r' then Some false else None
  | _ => None
  end.

(** [ATTR_RE.match(text)]: the groups [name] and [value], and the text
    from [m.end()] on. *)
Definition match_attr (text : string) : option (string * string * string) :=
  let (_, r) := span is_space text in
  let (name, r1) := span is_word r in
  if is_empty name then None
  else match r1 with
       | String "=" (String "034" r2) =>
           let (val, r3) := span not_quote r2 in
           match r3 with
           | String "034" r4 => Some (name, val, r4)
           | _ => None
           end
       | _ => None
       end.

(** [name in attrs] *)
Definition attr_in (name : string) (attrs : list (string * string)) : bool :=
  existsb (fun kv => String.eqb (fst kv) name) attrs.

(** The [while m_done is None] loop: the attributes in the order read and
    whether the tag is self-ending.  Every turn consumes part of the text,
    so [String.length] of the text bounds the number of turns; [None] is
    for a loop cut short by [fuel]. *)
Fixpoint chomp_attrs (fuel : nat) (attrs : list (string * string)) (attr_text : string)
  : option (result (list (string * string) * bool)) :=
  match match_attrs_done attr_text with
  | Some self_ending => Some (Ok (attrs, self_ending))
  | None =>
      match match_attr attr_text with
      | None => Some (Err AssertionError)
      | Some (attr_name, attr_val, rest) =>
          if attr_in attr_name attrs then Some (Err AssertionError)
          else match fuel with
               | O => None
               | S fuel' => chomp_attrs fuel' (attrs ++ [(attr_name, attr_val)]) rest
               end
      end
  end.

Definition parse_attrs (attr_text : string) : result (list (string * string) * bool) :=
  match chomp_attrs (String.length attr_text) [] attr_text with
  | Some r => r
  | None => Err AssertionError
  end.

(** [<] on the [(name, value)] items of the [attrs] dictionary. *)
Definition item_ltb (a b : string * string) : result bool :=
  Ok (if String.eqb (fst a) (fst b) then String.ltb (snd a) (snd b)
      else String.ltb (fst a) (fst b)).

Definition quote : string := String "034" EmptyString.

(** The body of the [for line in text.splitlines()] loop. *)
Definition prettify_line (line : string) (out_stream : stream) : M unit :=
  match match_start_attr_tag line with
  | None => print line out_stream
  | Some (indent, tag, after) =>
      let attr_text := rstrip after in
      (p <~ lift (parse_attrs attr_text);
       let (attrs, self_ending) := p : list (string * string) * bool in
       print (indent +:+ "<" +:+ tag) out_stream ;;
       items <~ lift (sorted item_ltb Ok attrs);
       for_each items (fun kv =>
         print (indent +:+ "  " +:+ fst kv +:+ "=" +:+ quote +:+ snd kv +:+ quote) out_stream) ;;
       if self_ending
       then print (indent +:+ "></" +:+ tag +:+ ">") out_stream
       else print (indent +:+ ">") out_stream)%io
  end.

(** [prettify(xml_element, out_stream)], from the decoded [text] of the
    indented document on. *)
Definition prettify (text : string) (out_stream : stream) : M unit :=
  for_each (splitlines text) (fun line => prettify_line line out_stream).


(** ** Dictionaries of lists, in insertion order *)

(** [d.setdefault(key, []).append(x)] *)
Fixpoint setdefault_append {A} (key : string) (x : A) (d : list (string * list A))
  : list (string * list A) :=
  match d with
  | [] => [(key, [x])]
  | (k, l) :: d' =>
      if String.eqb k key then (k, l ++ [x]) :: d'
      else (k, l) :: setdefault_append key x d'
  end.

(** ** The imageset database *)

(** An imageset, as far as the tool looks into it: its [url], the values
    of its [data_set_type] and [band_pass] enumerations, its
    [reference_frame], and [name] standing for the fields the tool only
    passes on. *)
Record ImageSet : Type := {
  url : string;
  data_set_type : string;
  reference_frame : option string;
  band_pass : option string;
  name : string
}.

(** [by_url] is a dictionary in insertion order. *)
Record ImagesetDatabase : Type := {
  db_dir : string;
  by_url : list (string * ImageSet)
}.

(** [u in self.by_url] *)
Definition url_in (u : string) (d : list (string * ImageSet)) : bool :=
  existsb (fun kv => String.eqb (fst kv) u) d.

(** [self.by_url.values()] *)
Definition values (d : list (string * ImageSet)) : list ImageSet := map snd d.

Definition add_imageset (imgset : ImageSet) (self : ImagesetDatabase) : M ImagesetDatabase :=
  if url_in (url imgset) (by_url self) then
    (warn ("dropping duplicated imageset `" +:+ url imgset +:+ "`") ;;
     ret self)%io
  else
    ret {| db_dir := db_dir self;
           by_url := by_url self ++ [(url imgset, imgset)] |}.

(** The partition key of an imageset, as the first loop of
    [ImagesetDatabase.rewrite] computes it. *)
Definition imageset_key (imgset : ImageSet) : string :=
  let k := [data_set_type imgset] in
  let k := match reference_frame imgset with
           | Some rf => if negb (String.eqb rf "Sky") then k ++ [rf] else k
           | None => k
           end in
  let k := match band_pass imgset with
           | Some bp => k ++ [bp]
           | None => k
           end in
  lower (join "_" k).

Definition imagesets_by_key (imgsets : list ImageSet) : list (string * list ImageSet) :=
  fold_left (fun by_key imgset => setdefault_append (imageset_key imgset) imgset by_key)
            imgsets [].

(** [<] on strings, for [sorted(imgsets, key=lambda s: s.url)]. *)
Definition str_ltb (a b : string) : result bool := Ok (String.ltb a b).

Section Imagesets.
(** The text that [prettify] decodes for [Folder(name=key)] with the
    given children: [Folder.to_xml], [indent_xml] and the ElementTree
    writer belong to the libraries. *)
Variable folder_xml_text : string -> list ImageSet -> string.

Definition write_imageset_shard (tempdir : string) (shard : string * list ImageSet) : M unit :=
  let (key, imgsets) := shard in
  (children <~ lift (sorted str_ltb (fun s => Ok (url s)) imgsets);
   stream <~ open_wt tempdir (key +:+ ".xml");
   prettify (folder_xml_text key children) stream ;;
   close stream)%io.

Definition ImagesetDatabase_rewrite (self : ImagesetDatabase) : M unit :=
  let by_key := imagesets_by_key (values (by_url self)) in
  let tempdir := db_dir self +:+ ".new" in
  (mkdir tempdir ;;
   for_each by_key (write_imageset_shard tempdir) ;;
   let olddir := db_dir self +:+ ".old" in
   rename (db_dir self) olddir ;;
   rename tempdir (db_dir self) ;;
   rmtree olddir)%io.
End Imagesets.

(** ** The place database *)

Record PlaceDatabase : Type := {
  pdb_dir : string;
  infos : list (gmap string pyval)
}.

(** The partition key of a place-info record, as the first loop of
    [PlaceDatabase.rewrite] computes it. *)
Definition place_key (info : gmap string pyval) : result string :=
  (dst <-! dict_item info "data_set_type";
   let k := [dst] in
   let ra := dict_get info "ra_hr" in
   k <-! (if is_not_none ra then
            (f <-! math_floor ra;
             let ra := f mod 24 in
             Ok (k ++ [VStr ("ra" +:+ fmt_d 2 ra)]))
          else Ok k);
   let lon := dict_get info "longitude" in
   k <-! (if is_not_none lon then
            (f <-! math_floor lon;
             let lon := (f / 10) * 10 in
             Ok (k ++ [VStr ("lon" +:+ fmt_d 3 lon)]))
          else Ok k);
   key <-! py_join "_" k;
   Ok (lower key))%res.

Fixpoint places_by_key (l : list (gmap string pyval))
    (by_key : list (string * list (gmap string pyval)))
  : result (list (string * list (gmap string pyval))) :=
  match l with
  | [] => Ok by_key
  | info :: l' =>
      (key <-! place_key info;
       places_by_key l' (setdefault_append key info by_key))%res
  end.

(** The items that iterating over a string gives: its characters. *)
Fixpoint chars (s : string) : list pyval :=
  match s with
  | EmptyString => []
  | String c s' => VStr (String c EmptyString) :: chars s'
  end.

(** [k += u] for a value [u] that is not [None]: a list is extended by
    the items of an iterable. *)
Definition extend (k : list pyval) (u : pyval) : result (list pyval) :=
  match u with
  | VStr s => Ok (k ++ chars s)
  | _ => Err TypeError
  end.

Definition extend_url (info : gmap string pyval) (field : string) (k : list pyval)
  : result (list pyval) :=
  let u := dict_get info field in
  if is_not_none u then extend k u else Ok k.

Definition sortkey (info : gmap string pyval) : result (list pyval) :=
  (let k := [] in
   k <-! extend_url info "foreground_image_set_url" k;
   k <-! extend_url info "image_set_url" k;
   k <-! extend_url info "background_image_set_url" k;
   let dec := dict_get info "dec_deg" in
   k <-! (if is_not_none dec then
            (ra <-! dict_item info "ra_hr"; Ok (k ++ [dec; ra]))
          else Ok k);
   let lat := dict_get info "latitude" in
   k <-! (if is_not_none lat then
            (lon <-! dict_item info "longitude"; Ok (k ++ [lat; lon]))
          else Ok k);
   nm <-! dict_item info "name";
   Ok (k ++ [nm]))%res.

Definition write_place_shard (tempdir : string)
    (shard : string * list (gmap string pyval)) : M unit :=
  let (key, infos) := shard in
  (infos <~ lift (sorted tuple_ltb sortkey infos);
   write_multi_yaml tempdir (key +:+ ".yml") infos)%io.

Definition PlaceDatabase_rewrite (self : PlaceDatabase) : M unit :=
  (by_key <~ lift (places_by_key (infos self) []);
   let tempdir := pdb_dir self +:+ ".new" in
   mkdir tempdir ;;
   for_each by_key (write_place_shard tempdir) ;;
   let olddir := pdb_dir self +:+ ".old" in
   rename (pdb_dir self) olddir ;;
   rename tempdir (pdb_dir self) ;;
   rmtree olddir)%io.

(** [for c in children: self.add_imageset(c)] *)
Fixpoint add_imagesets (l : list ImageSet) (self : ImagesetDatabase) : M ImagesetDatabase :=
  match l with
  | [] => ret self
  | c :: l' => (self' <~ add_imageset c self; add_imagesets l' self')%io
  end.

(** [self.by_url.get(u)] *)
Definition by_url_get (u : string) (d : list (string * ImageSet)) : option ImageSet :=
  option_map snd (find (fun kv => String.eqb (fst kv) u) d).

Definition empty_db (dir : string) : ImagesetDatabase := {| db_dir := dir; by_url := [] |}.

(** ** The partition key of an imageset, in the words of the specification *)

Definition spec_frame_component (imgset : ImageSet) : list string :=
  match reference_frame imgset with
  | Some rf => if String.eqb rf "Sky" then [] else [rf]
  | None => []
  end.

Definition spec_band_component (imgset : ImageSet) : list string :=
  match band_pass imgset with
  | Some bp => [bp]
  | None => []
  end.

Definition spec_imageset_key (imgset : ImageSet) : string :=
  lower (join "_" ([data_set_type imgset] ++ spec_frame_component imgset
                   ++ spec_band_component imgset)).

(** The [ra] and [lon] parts of a place key, with the separator in front;
    empty when the field is [None] or missing. *)
Definition ra_part (info : gmap string pyval) : string :=
  match dict_get info "ra_hr" with
  | VNum r => "_ra" +:+ fmt_d 2 (Qfloor r mod 24)
  | _ => EmptyString
  end.

Definition lon_part (info : gmap string pyval) : string :=
  match dict_get info "longitude" with
  | VNum q => "_lon" +:+ fmt_d 3 (Qfloor (q / 10) * 10)
  | _ => EmptyString
  end.

(** A field that is missing, [None], or a number. *)
Definition num_or_none (v : pyval) : Prop :=
  match v with
  | VStr _ => False
  | _ => True
  end.

(** ** The sort, when [<] never raises

    [isort] is [sort_by] for a comparison that cannot fail. *)

Section PureSort.
Context {A K : Type}.
Variable ltb : K -> K -> bool.

Fixpoint insert_pure (x : K * A) (l : list (K * A)) : list (K * A) :=
  match l with
  | [] => [x]
  | y :: l' => if ltb (fst y) (fst x) then y :: insert_pure x l' else x :: l
  end.

Fixpoint isort (l : list (K * A)) : list (K * A) :=
  match l with
  | [] => []
  | x :: l' => insert_pure x (isort l')
  end.
End PureSort.

(** [sorted(l, key=key)] for a key and a comparison that cannot fail. *)
Definition sorted_pure {A K} (ltb : K -> K -> bool) (key : A -> K) (l : list A) : list A :=
  map snd (isort ltb (map (fun x => (key x, x)) l)).

(** [<] on [(name, value)] pairs. *)
Definition item_lt (a b : string * string) : bool :=
  if String.eqb (fst a) (fst b) then String.ltb (snd a) (snd b)
  else String.ltb (fst a) (fst b).

(** ** Well-formed attribute text, in the words of the specification *)

Fixpoint all_chars (p : ascii -> bool) (s : string) : bool :=
  match s with
  | EmptyString => true
  | String c s' => p c && all_chars p s'
  end.

(** One attribute as it stands in a tag: the name, the equals sign and
    the value between double quotes. *)
Definition attr_source (kv : string * string) : string :=
  fst kv +:+ "=" +:+ quote +:+ snd kv +:+ quote.

Definition end_marker (self_ending : bool) : string :=
  if self_ending then "/>" else ">".

(** [attr_text attrs self_ending s]: the text [s] is the attributes
    [attrs] in this order, each a well-formed name-value pair after
    optional white space, followed by the ending marker. *)
Inductive attr_text : list (string * string) -> bool -> string -> Prop :=
| attr_text_end (ws : string) (self_ending : bool) :
    all_chars is_space ws = true ->
    attr_text [] self_ending (ws +:+ end_marker self_ending)
| attr_text_pair (ws n v : string) (attrs : list (string * string))
    (self_ending : bool) (rest : string) :
    all_chars is_space ws = true ->
    is_empty n = false ->
    all_chars is_word n = true ->
    all_chars not_quote v = true ->
    attr_text attrs self_ending rest ->
    attr_text ((n, v) :: attrs) self_ending (ws +:+ attr_source (n, v) +:+ rest).

(** The line that [prettify] prints for one attribute. *)
Definition attr_line (indent : string) (kv : string * string) : string :=
  indent +:+ "  " +:+ attr_source kv.

(** The last line of a split tag. *)
Definition closing_line (indent tag : string) (self_ending : bool) : string :=
  if self_ending then indent +:+ "></" +:+ tag +:+ ">" else indent +:+ ">".

(** Printing some lines, one after the other. *)
Definition print_all (lines : list string) (out_stream : stream) : M unit :=
  for_each lines (fun l => print l out_stream).

(** Where a greedy [p*] stops: at the end, or in front of a character
    outside [p]. *)
Definition stops (p : ascii -> bool) (s : string) : Prop :=
  match s with
  | EmptyString => True
  | String c _ => p c = false
  end.

(** ** What the rewrite leaves on disk *)

(** The lines that [prettify_line] prints for a line, or its failure. *)
Definition pretty_line (line : string) : result (list string) :=
  match match_start_attr_tag line with
  | None => Ok [line]
  | Some (indent, tag, after) =>
      (p <-! parse_attrs (rstrip after);
       items <-! sorted item_ltb Ok (fst p);
       Ok ([indent +:+ "<" +:+ tag] ++ map (attr_line indent) items
           ++ [closing_line indent tag (snd p)]))%res
  end.

(** The lines that the loop of [prettify] prints, and the failure that
    cut it short, if any. *)
Fixpoint pretty_lines (lines : list string) : list string * option pyerr :=
  match lines with
  | [] => ([], None)
  | l :: rest =>
      match pretty_line l with
      | Err e => ([], Some e)
      | Ok ls => let (out, err) := pretty_lines rest in (ls ++ out, err)
      end
  end.

Definition after_prints (err : option pyerr) : M unit :=
  match err with
  | None => ret tt
  | Some e => raise e
  end.

Section ShardFiles.
Variable folder_xml_text : string -> list ImageSet -> string.

(** The children of a shard's folder: its members by increasing url. *)
Definition shard_children (imgsets : list ImageSet) : list ImageSet :=
  sorted_pure String.ltb url imgsets.

Definition shard_pretty (shard : string * list ImageSet) : list string * option pyerr :=
  pretty_lines (splitlines (folder_xml_text (fst shard) (shard_children (snd shard)))).

Definition shard_file (shard : string * list ImageSet) : string * content :=
  (fst shard +:+ ".xml", Text (fst (shard_pretty shard))).

(** The directory that holds one complete file for each shard. *)
Definition shard_files (imgsets : list ImageSet) : gmap string content :=
  fold_left (fun d shard => <[fst (shard_file shard) := snd (shard_file shard)]> d)
            (imagesets_by_key imgsets) ∅.


(** The rewrite as all-or-nothing: on success the catalog directory is
    the new shard files, on failure it is the directory it was. *)
Definition all_or_nothing (self : ImagesetDatabase) (w : world) : Prop :=
  let (r, w') := ImagesetDatabase_rewrite folder_xml_text self w in
  match r with
  | Ok _ => fs w' !! db_dir self = Some (shard_files (values (by_url self)))
  | Err _ => fs w' !! db_dir self = fs w !! db_dir self
  end.
End ShardFiles.



(** ** Reading a dictionary of lists *)

(** [d.get(k, [])] *)
Definition group_get {A} (k : string) (d : list (string * list A)) : list A :=
  match find (fun kv => String.eqb (fst kv) k) d with
  | Some kv => snd kv
  | None => []
  end.

(** The members of a shard with their children in the order of the file. *)
Definition shard_sorted (shard : string * list ImageSet) : string * list ImageSet :=
  (fst shard, sorted_pure String.ltb url (snd shard)).

(** One turn of the grouping loop. *)
Definition group_step {A} (key : A -> string) (by_key : list (string * list A)) (x : A)
  : list (string * list A) :=
  setdefault_append (key x) x by_key.

Section ShardFileOf.
Variable folder_xml_text : string -> list ImageSet -> string.

(** The file of a shard whose children are already in order. *)
Definition file_of_sorted (shard : string * list ImageSet) : string * content :=
  (fst shard +:+ ".xml",
   Text (fst (pretty_lines (splitlines (folder_xml_text (fst shard) (snd shard)))))).
End ShardFileOf.


(** ** The sort key of a place, in the words of the specification *)

(** The first of the three url fields that is present, as one component. *)
Definition spec_url_component (info : gmap string pyval) : list pyval :=
  if is_not_none (dict_get info "foreground_image_set_url")
  then [dict_get info "foreground_image_set_url"]
  else if is_not_none (dict_get info "image_set_url")
  then [dict_get info "image_set_url"]
  else if is_not_none (dict_get info "background_image_set_url")
  then [dict_get info "background_image_set_url"]
  else [].

Definition pair_component (info : gmap string pyval) (first second : string)
  : result (list pyval) :=
  let v := dict_get info first in
  if is_not_none v then (p <-! dict_item info second; Ok [v; p])%res else Ok [].

Definition spec_sortkey (info : gmap string pyval) : result (list pyval) :=
  (dec <-! pair_component info "dec_deg" "ra_hr";
   lat <-! pair_component info "latitude" "longitude";
   nm <-! dict_item info "name";
   Ok (spec_url_component info ++ dec ++ lat ++ [nm]))%res.

(** ** The sort key with every url as one component

    The key that [sortkey] builds, but for [k += u] read as appending the
    url itself: the three urls that are present, in the order foreground,
    image set, background, then the pairs and the name. *)
Definition append_url (info : gmap string pyval) (field : string) (k : list pyval)
  : result (list pyval) :=
  match dict_get info field with
  | VNone => Ok k
  | VStr s => Ok (k ++ [VStr s])
  | VNum _ => Err TypeError
  end.

Definition whole_url_sortkey (info : gmap string pyval) : result (list pyval) :=
  (let k := [] in
   k <-! append_url info "foreground_image_set_url" k;
   k <-! append_url info "image_set_url" k;
   k <-! append_url info "background_image_set_url" k;
   dec <-! pair_component info "dec_deg" "ra_hr";
   lat <-! pair_component info "latitude" "longitude";
   nm <-! dict_item info "name";
   Ok (k ++ dec ++ lat ++ [nm]))%res.

(** Two values of a url field that [k += u] and appending treat alike:
    both absent, or strings of the same length. *)
Definition same_shape (u v : pyval) : Prop :=
  match u, v with
  | VNone, VNone => True
  | VStr s, VStr t => String.length s = String.length t
  | _, _ => False
  end.

Definition same_url_shape (a b : gmap string pyval) : Prop :=
  same_shape (dict_get a "foreground_image_set_url")
             (dict_get b "foreground_image_set_url") /\
  same_shape (dict_get a "image_set_url") (dict_get b "image_set_url") /\
  same_shape (dict_get a "background_image_set_url")
             (dict_get b "background_image_set_url").

(** ** Records that lack the partner of a coordinate *)

Definition lacks_partner (info : gmap string pyval) : Prop :=
  (is_not_none (dict_get info "dec_deg") = true /\ info !! "ra_hr" = None) \/
  (is_not_none (dict_get info "latitude") = true /\ info !! "longitude" = None).

(** A url field that is missing, [None], or a string. *)
Definition str_or_none (v : pyval) : Prop :=
  match v with
  | VNum _ => False
  | _ => True
  end.

Definition urls_typed (info : gmap string pyval) : Prop :=
  str_or_none (dict_get info "foreground_image_set_url") /\
  str_or_none (dict_get info "image_set_url") /\
  str_or_none (dict_get info "background_image_set_url").

(** The rewrite as an abort that leaves no file behind: it ends with a
    [KeyError], and every file on the disk was there before. *)
Definition aborts_without_files (self : PlaceDatabase) (w : world) : Prop :=
  let (r, w') := PlaceDatabase_rewrite self w in
  (exists k, r = Err (KeyError k)) /\
  forall dir d fname c,
    fs w' !! dir = Some d -> d !! fname = Some c ->
    exists d0, fs w !! dir = Some d0 /\ d0 !! fname = Some c.

(** ** The parts of a sort key *)

(** What [k += u] adds for a url field, and what appending the url adds. *)
Definition url_chars (v : pyval) : list pyval :=
  match v with
  | VStr s => chars s
  | _ => []
  end.

Definition url_whole (v : pyval) : list pyval :=
  match v with
  | VStr s => [VStr s]
  | _ => []
  end.

(** The components after the urls. *)
Definition key_tail (info : gmap string pyval) : result (list pyval) :=
  (dec <-! pair_component info "dec_deg" "ra_hr";
   lat <-! pair_component info "latitude" "longitude";
   nm <-! dict_item info "name";
   Ok (dec ++ lat ++ [nm]))%res.

(** The key of a record, [[]] standing for a key that does not compute. *)
Definition key_or_nil (key : gmap string pyval -> result (list pyval))
    (info : gmap string pyval) : list pyval :=
  match key info with
  | Ok k => k
  | Err _ => []
  end.

(** A list with its keys. *)
Definition decorate {A K} (key : A -> K) (l : list A) : list (K * A) :=
  map (fun x => (key x, x)) l.

(** The sort key without its last component, the name. *)
Definition key_before_name (info : gmap string pyval) : result (list pyval) :=
  (let k := [] in
   k <-! extend_url info "foreground_image_set_url" k;
   k <-! extend_url info "image_set_url" k;
   k <-! extend_url info "background_image_set_url" k;
   let dec := dict_get info "dec_deg" in
   k <-! (if is_not_none dec then
            (ra <-! dict_item info "ra_hr"; Ok (k ++ [dec; ra]))
          else Ok k);
   let lat := dict_get info "latitude" in
   (if is_not_none lat then
      (lon <-! dict_item info "longitude"; Ok (k ++ [lat; lon]))
    else Ok k))%res.

(** The fields that the sort key reads before the name. *)
Definition fields_before_name : list string :=
  ["foreground_image_set_url"; "image_set_url"; "background_image_set_url";
   "dec_deg"; "ra_hr"; "latitude"; "longitude"].


(** ** Ingesting places *)

(** A place, as [ingest_place] reads it: finite numbers for the scalar
    traits, the values of the enumerations ([None] for an enumeration that
    is not set), and the three imagesets it may carry. *)
Record Place : Type := {
  p_angle : Q;
  p_angular_size : Q;
  p_annotation : string;
  p_background_image_set : option ImageSet;
  p_classification : option string;
  p_constellation : option string;
  p_data_set_type : string;
  p_dec_deg : Q;
  p_description : string;
  p_distance : Q;
  p_dome_alt : Q;
  p_dome_az : Q;
  p_foreground_image_set : option ImageSet;
  p_image_set : option ImageSet;
  p_latitude : Q;
  p_longitude : Q;
  p_magnitude : Q;
  p_msr_community_id : Q;
  p_msr_component_id : Q;
  p_name : string;
  p_opacity : Q;
  p_permission : Q;
  p_ra_hr : Q;
  p_rotation_deg : Q;
  p_thumbnail : string;
  p_zoom_level : Q
}.

(** [x != d] on numbers. *)
Definition num_ne (x d : Q) : bool := negb (Qeq_bool x d).

(** The truth value of a string: it is not empty. *)
Definition str_true (s : string) : bool := negb (is_empty s).

(** [if c: info[k] = v] *)
Definition set_if (c : bool) (k : string) (v : pyval) (info : gmap string pyval)
  : gmap string pyval :=
  if c then <[k := v]> info else info.

(** [if x: info[k] = f(x)] for a trait that is [None] when absent. *)
Definition set_some {A} (x : option A) (k : string) (f : A -> pyval)
    (info : gmap string pyval) : gmap string pyval :=
  match x with
  | Some a => <[k := f a]> info
  | None => info
  end.

(** The record that [ingest_place] distills from a place. *)
Definition place_info (place : Place) : gmap string pyval :=
  let info : gmap string pyval := ∅ in
  let info := set_if (num_ne (p_angle place) 0) "angle" (VNum (p_angle place)) info in
  let info := set_if (num_ne (p_angular_size place) 0) "angular_size"
                (VNum (p_angular_size place)) info in
  let info := set_if (str_true (p_annotation place)) "annotation"
                (VStr (p_annotation place)) info in
  let info := set_some (p_background_image_set place) "background_image_set_url"
                (fun s => VStr (url s)) info in
  let info := set_some (p_classification place) "classification" VStr info in
  let info := set_some (p_constellation place) "constellation" VStr info in
  let info := <["data_set_type" := VStr (p_data_set_type place)]> info in
  let info := set_if (num_ne (p_dec_deg place) 0) "dec_deg" (VNum (p_dec_deg place)) info in
  let info := set_if (str_true (p_description place)) "description"
                (VStr (p_description place)) info in
  let info := set_if (num_ne (p_distance place) 0) "distance"
                (VNum (p_distance place)) info in
  let info := set_if (num_ne (p_dome_alt place) 0) "dome_alt"
                (VNum (p_dome_alt place)) info in
  let info := set_if (num_ne (p_dome_az place) 0) "dome_az" (VNum (p_dome_az place)) info in
  let info := set_some (p_foreground_image_set place) "foreground_image_set_url"
                (fun s => VStr (url s)) info in
  let info := set_some (p_image_set place) "image_set_url" (fun s => VStr (url s)) info in
  let info := set_if (num_ne (p_latitude place) 0) "latitude"
                (VNum (p_latitude place)) info in
  let info := set_if (num_ne (p_longitude place) 0) "longitude"
                (VNum (p_longitude place)) info in
  let info := set_if (num_ne (p_magnitude place) 0) "magnitude"
                (VNum (p_magnitude place)) info in
  let info := set_if (num_ne (p_msr_community_id place) 0) "msr_community_id"
                (VNum (p_msr_community_id place)) info in
  let info := set_if (num_ne (p_msr_component_id place) 0) "msr_component_id"
                (VNum (p_msr_component_id place)) info in
  let info := <["name" := VStr (p_name place)]> info in
  let info := set_if (num_ne (p_opacity place) 100) "opacity"
                (VNum (p_opacity place)) info in
  let info := set_if (num_ne (p_permission place) 0) "permission"
                (VNum (p_permission place)) info in
  let info := set_if (num_ne (p_ra_hr place) 0) "ra_hr" (VNum (p_ra_hr place)) info in
  let info := set_if (num_ne (p_rotation_deg place) 0) "rotation_deg"
                (VNum (p_rotation_deg place)) info in
  let info := set_if (str_true (p_thumbnail place)) "thumbnail"
                (VStr (p_thumbnail place)) info in
  let info := set_if (num_ne (p_zoom_level place) 0) "zoom_level"
                (VNum (p_zoom_level place)) info in
  info.

(** [if s is not None: idb.add_imageset(s)] *)
Definition add_if_some (s : option ImageSet) (idb : ImagesetDatabase) : M ImagesetDatabase :=
  match s with
  | Some imgset => add_imageset imgset idb
  | None => ret idb
  end.

(** [PlaceDatabase.ingest_place]: both databases are updated. *)
Definition ingest_place (place : Place) (self : PlaceDatabase) (idb : ImagesetDatabase)
  : M (PlaceDatabase * ImagesetDatabase) :=
  (idb <~ add_if_some (p_image_set place) idb;
   idb <~ add_if_some (p_foreground_image_set place) idb;
   idb <~ add_if_some (p_background_image_set place) idb;
   let info := place_info place in
   ret ({| pdb_dir := pdb_dir self; infos := infos self ++ [info] |}, idb))%io.

(** What the walk over a catalog file yields. *)
Inductive item : Type :=
| ItemImageSet (s : ImageSet)
| ItemPlace (p : Place)
| ItemOther.

(** The loop of [do_ingest] over the items of the walk. *)
Fixpoint ingest_items (items : list item) (idb : ImagesetDatabase) (pdb : PlaceDatabase)
  : M (ImagesetDatabase * PlaceDatabase) :=
  match items with
  | [] => ret (idb, pdb)
  | ItemImageSet s :: rest =>
      (idb <~ add_imageset s idb; ingest_items rest idb pdb)%io
  | ItemPlace p :: rest =>
      (r <~ ingest_place p pdb idb; ingest_items rest (snd r) (fst r))%io
  | ItemOther :: rest => ingest_items rest idb pdb
  end.

Section Ingest.
Variable folder_xml_text : string -> list ImageSet -> string.

(** [do_ingest], from the loaded databases and the walked items on. *)
Definition do_ingest (catname : string) (items : list item)
    (idb : ImagesetDatabase) (pdb : PlaceDatabase) : M unit :=
  (print ("catalog name: " +:+ catname) Stdout ;;
   r <~ ingest_items items idb pdb;
   ImagesetDatabase_rewrite folder_xml_text (fst r) ;;
   PlaceDatabase_rewrite (snd r))%io.
End Ingest.

(** The url fields of a place-info record. *)
Definition url_fields : list string :=
  ["image_set_url"; "foreground_image_set_url"; "background_image_set_url"].

(** ** The command line *)

(** What [entrypoint] does with the parsed subcommand. *)
Inductive command : Type :=
| Die (prefix text : string) (exitcode : Z)
| RunFormatImagesets
| RunIngest
| RunPrettify.

(** The names given to [subparsers.add_parser]. *)
Definition subparser_names : list string := ["format_imagesets"; "ingest"; "prettify"].

(** The chain of tests on [settings.subcommand]. *)
Definition dispatch (subcommand : option string) : command :=
  match subcommand with
  | None => Die "usage error:" "you must specify a subcommand" 1
  | Some s =>
      if String.eqb s "format-imagesets" then RunFormatImagesets
      else if String.eqb s "ingest" then RunIngest
      else if String.eqb s "prettify" then RunPrettify
      else Die "usage error:" ("unknown subcommand `" +:+ s +:+ "`") 1
  end.

(** A coordinate pair of which the first is set and the second is 0. *)
Definition zero_partner (place : Place) : Prop :=
  (num_ne (p_dec_deg place) 0 = true /\ num_ne (p_ra_hr place) 0 = false) \/
  (num_ne (p_latitude place) 0 = true /\ num_ne (p_longitude place) 0 = false).


(** The documents of a shard file: the records of the shard as sorted,
    [[]] standing for a sort that fails. *)
Definition sorted_docs (g : list (gmap string pyval)) : list (gmap string pyval) :=
  match sorted tuple_ltb sortkey g with
  | Ok docs => docs
  | Err _ => []
  end.

(** The directory that holds one file for each shard of places. *)
Definition place_files (by_key : list (string * list (gmap string pyval)))
  : gmap string content :=
  fold_left (fun d shard => <[fst shard +:+ ".yml" := Docs (sorted_docs (snd shard))]> d)
            by_key ∅.

(** The key of a record, the empty string standing for a key that does
    not compute. *)
Definition place_key_or_empty (info : gmap string pyval) : string :=
  match place_key info with
  | Ok k => k
  | Err _ => EmptyString
  end.

(** The partition key of every record, with ".yml", is the name of a
    file: one component, without separator. *)
Definition plain_keys (l : list (gmap string pyval)) : Prop :=
  Forall (fun info => plain_name (place_key_or_empty info +:+ ".yml") = true) l.

(** A record whose partition key does not compute: it has no
    [data_set_type], or one that is not a string, or its [ra_hr] or its
    [longitude] is a string. *)
Definition key_uncomputable (info : gmap string pyval) : Prop :=
  info !! "data_set_type" = None \/
  info !! "data_set_type" = Some VNone \/
  (exists q, info !! "data_set_type" = Some (VNum q)) \/
  (exists s, dict_get info "ra_hr" = VStr s) \/
  (exists s, dict_get info "longitude" = VStr s).

(** The places among the items of a walk, in order. *)
Fixpoint items_places (items : list item) : list Place :=
  match items with
  | [] => []
  | ItemPlace p :: rest => p :: items_places rest
  | _ :: rest => items_places rest
  end.

(** ** Tag lines that do not finish their tag *)

Fixpoint last_char (s : string) : option ascii :=
  match s with
  | EmptyString => None
  | String c EmptyString => Some c
  | String _ s' => last_char s'
  end.

(** The text behind the first [>] of a text, if it has one. *)
Fixpoint after_gt (s : string) : option string :=
  match s with
  | EmptyString => None
  | String c s' => if Ascii.eqb c ">" then Some s' else after_gt s'
  end.

(** ** Sort keys that cannot be compared *)

(** Whether a sort key starts with a number ([b] is [true]) or with a
    string ([b] is [false]). *)
Definition led_by (b : bool) (k : list pyval) : bool :=
  match k with
  | VNum _ :: _ => b
  | VStr _ :: _ => negb b
  | _ => false
  end.

(** What [k += u] adds to the sort key for an imageset of a place. *)
Definition url_of (s : option ImageSet) : list pyval :=
  match s with
  | Some imgset => chars (url imgset)
  | None => []
  end.

(** What a pair of coordinates of a place adds to the sort key of its
    record: nothing when the first is 0, and the missing-key error when
    the first is set and the second is 0. *)
Definition coordinate_pair (x y : Q) (second : string) : result (list pyval) :=
  if num_ne x 0 then
    if num_ne y 0 then Ok [VNum x; VNum y] else Err (KeyError second)
  else Ok [].

(** The characters that the urls of a place put in front of its sort key. *)
Definition url_items (place : Place) : list pyval :=
  url_of (p_foreground_image_set place) ++ url_of (p_image_set place)
  ++ url_of (p_background_image_set place).

(** A place whose sort key starts with a coordinate: it has no url and a
    declination or a latitude other than 0. *)
Definition starts_with_number (place : Place) : Prop :=
  url_items place = [] /\
  (num_ne (p_dec_deg place) 0 = true \/ num_ne (p_latitude place) 0 = true).

(** A place whose sort key starts with a string: a character of a url,
    or the name when it has no url and declination and latitude 0. *)
Definition starts_with_text (place : Place) : Prop :=
  url_items place <> [] \/
  (num_ne (p_dec_deg place) 0 = false /\ num_ne (p_latitude place) 0 = false).
(** ** Sample data *)

Definition place_west : gmap string pyval :=
  <["data_set_type" := VStr "Earth"]>
    (<["longitude" := VNum (-5)]> (<["name" := VStr "Azores"]> ∅)).

Definition place_near : gmap string pyval :=
  <["data_set_type" := VStr "Earth"]>
    (<["longitude" := VNum 5]> (<["name" := VStr "Paris"]> ∅)).

Definition place_far : gmap string pyval :=
  <["data_set_type" := VStr "Earth"]>
    (<["longitude" := VNum (247 # 2)]> (<["name" := VStr "Xian"]> ∅)).

Definition place_late : gmap string pyval :=
  <["data_set_type" := VStr "Sky"]>
    (<["ra_hr" := VNum (239 # 10)]> (<["name" := VStr "Late"]> ∅)).

Definition place_wrapped : gmap string pyval :=
  <["data_set_type" := VStr "Sky"]>
    (<["ra_hr" := VNum (49 # 2)]> (<["name" := VStr "Wrapped"]> ∅)).

Definition m31_first : ImageSet :=
  {| url := "http://example.org/m31"; data_set_type := "Sky";
     reference_frame := None; band_pass := Some "Visible"; name := "Andromeda" |}.

Definition m31_second : ImageSet :=
  {| url := "http://example.org/m31"; data_set_type := "Sky";
     reference_frame := None; band_pass := Some "IR"; name := "M31 infrared" |}.

Definition quiet_world : world := World ∅ [] [] [].


(** The tag of the specification's example, self-ending, with its
    attributes out of order; the same tag with the name [a] twice; and a
    tag whose value has a stray double quote. *)
Definition foo_attrs_text : string :=
  "b=" +:+ quote +:+ "2" +:+ quote +:+ " a=" +:+ quote +:+ "1" +:+ quote +:+ "/>".

Definition foo_line : string := "<foo " +:+ foo_attrs_text.

Definition foo_twice_line : string :=
  "<foo a=" +:+ quote +:+ "1" +:+ quote +:+ " a=" +:+ quote +:+ "2" +:+ quote +:+ "/>".

Definition foo_stray_quote_line : string :=
  "<foo a=" +:+ quote +:+ "1" +:+ quote +:+ "2" +:+ quote +:+ "/>".

(** A stand-in for the library's serializer: a folder element with one
    self-ending element for each child. *)
Definition nl : string := String "010" EmptyString.

Definition sample_child_xml (s : ImageSet) : string :=
  "  <ImageSet Url=" +:+ quote +:+ url s +:+ quote +:+ " Name=" +:+ quote +:+ name s
  +:+ quote +:+ " />" +:+ nl.

Definition sample_xml_text (key : string) (children : list ImageSet) : string :=
  "<?xml version='1.0' encoding='UTF-8'?>" +:+ nl +:+
  "<Folder Name=" +:+ quote +:+ key +:+ quote +:+ ">" +:+ nl +:+
  fold_right (fun s acc => sample_child_xml s +:+ acc) EmptyString children +:+
  "</Folder>" +:+ nl.

Definition one_db : ImagesetDatabase :=
  {| db_dir := "imagesets"; by_url := [(url m31_first, m31_first)] |}.


Definition old_catalog : gmap string content :=
  {[ "sky_visible.xml" := Text ["<Folder>"; "</Folder>"] ]}.

(** A catalog on disk and a schedule that lets everything succeed up to
    the second rename, which fails. *)
Definition second_rename_fails : world :=
  World {[ "imagesets" := old_catalog ]} [] [] [false; false; false; false; true].

Definition calm_disk : world := World {[ "imagesets" := old_catalog ]} [] [] [].

(** Two places of one shard with the same foreground url and different
    image-set urls. *)
Definition place_n : gmap string pyval :=
  <["data_set_type" := VStr "Sky"]>
    (<["foreground_image_set_url" := VStr "x"]>
       (<["image_set_url" := VStr "b"]> (<["name" := VStr "n"]> ∅))).

Definition place_z : gmap string pyval :=
  <["data_set_type" := VStr "Sky"]>
    (<["foreground_image_set_url" := VStr "x"]>
       (<["image_set_url" := VStr "a"]> (<["name" := VStr "z"]> ∅))).

(** A place with a declination and no right ascension, and a sound one
    of another shard. *)
Definition place_vega : gmap string pyval :=
  <["data_set_type" := VStr "Sky"]> (<["name" := VStr "Vega"]> ∅).

Definition place_no_ra : gmap string pyval :=
  <["data_set_type" := VStr "Earth"]>
    (<["dec_deg" := VNum 1]> (<["name" := VStr "Nowhere"]> ∅)).

Definition two_shard_pdb : PlaceDatabase :=
  {| pdb_dir := "places"; infos := [place_vega; place_no_ra] |}.

(** A record whose data-set type has separators, as a YAML file can hold
    it, in front of the record without [ra_hr]. *)
Definition place_astray : gmap string pyval :=
  <["data_set_type" := VStr "../places/x"]> (<["name" := VStr "Astray"]> ∅).

Definition astray_pdb : PlaceDatabase :=
  {| pdb_dir := "places"; infos := [place_astray; place_no_ra] |}.

Definition places_disk : world :=
  World {[ "places" := {[ "sky.yml" := Docs [place_vega] ]} ]} [] [] [].

(** The disk after the run on [second_rename_fails]: the new files in the
    temporary directory, the old catalog moved aside. *)
Definition sky_visible_files : gmap string content :=
  {[ "sky_visible.xml" :=
       Text ["<?xml version='1.0' encoding='UTF-8'?>";
             "<Folder"; "  Name=" +:+ quote +:+ "sky_visible" +:+ quote; ">";
             "  <ImageSet";
             "    Name=" +:+ quote +:+ "Andromeda" +:+ quote;
             "    Url=" +:+ quote +:+ "http://example.org/m31" +:+ quote;
             "  ></ImageSet>";
             "</Folder>"] ]}.

Definition after_failed_swap : world :=
  World (<["imagesets.old" := old_catalog]>
           (<["imagesets.new" := sky_visible_files]> ∅)) [] [] [].


(** A place on the prime meridian of the sky: right ascension 0 h,
    declination 41 degrees, every other trait at its default. *)
Definition place_ra_zero : Place :=
  {| p_angle := 0; p_angular_size := 0; p_annotation := EmptyString;
     p_background_image_set := None; p_classification := None;
     p_constellation := None; p_data_set_type := "Sky"; p_dec_deg := 41;
     p_description := EmptyString; p_distance := 0; p_dome_alt := 0; p_dome_az := 0;
     p_foreground_image_set := None; p_image_set := Some m31_first;
     p_latitude := 0; p_longitude := 0; p_magnitude := 0;
     p_msr_community_id := 0; p_msr_component_id := 0; p_name := "Origin";
     p_opacity := 100; p_permission := 0; p_ra_hr := 0; p_rotation_deg := 0;
     p_thumbnail := EmptyString; p_zoom_level := 0 |}.

Definition empty_pdb : PlaceDatabase := {| pdb_dir := "places"; infos := [] |}.

(** The store of [two_shard_pdb] after the record without [ra_hr] is
    taken out. *)
Definition mended_pdb : PlaceDatabase := {| pdb_dir := "places"; infos := [place_vega] |}.

Definition three_places_pdb : PlaceDatabase :=
  {| pdb_dir := "places"; infos := [place_west; place_late; place_wrapped] |}.

(** A record without a data-set type, behind a sound one. *)
Definition place_untyped : gmap string pyval := <["name" := VStr "Lost"]> ∅.

Definition untyped_pdb : PlaceDatabase :=
  {| pdb_dir := "places"; infos := [place_vega; place_untyped] |}.


Definition both_catalogs : world :=
  World (<["places" := {[ "sky.yml" := Docs [place_vega] ]}]>
           {[ "imagesets" := old_catalog ]}) [] [] [].



(** A tag with an attribute and its text on one line. *)
Definition inline_text_line : string :=
  "  <Name lang=" +:+ quote +:+ "en" +:+ quote +:+ ">Andromeda</Name>".

(** A tag that goes on in the next line. *)
Definition unfinished_line : string := "<Place Name=" +:+ quote +:+ "M31" +:+ quote.

(** Two records of the shard [sky_ra18] without url: one with its
    coordinates, one on the celestial equator, whose declination 0 was
    left out. *)
Definition place_altair : gmap string pyval :=
  <["data_set_type" := VStr "Sky"]> (<["name" := VStr "Altair"]>
  (<["dec_deg" := VNum 8]> (<["ra_hr" := VNum (37 # 2)]> ∅))).

Definition place_equator : gmap string pyval :=
  <["data_set_type" := VStr "Sky"]> (<["name" := VStr "Equator 18h"]>
  (<["ra_hr" := VNum (73 # 4)]> ∅)).

Definition mixed_pdb : PlaceDatabase :=
  {| pdb_dir := "places"; infos := [place_altair; place_equator] |}.

(** Two places in the hour 18 of right ascension, one without imageset
    and one with. *)
Definition altair : Place :=
  {| p_angle := 0; p_angular_size := 0; p_annotation := EmptyString;
     p_background_image_set := None; p_classification := None;
     p_constellation := None; p_data_set_type := "Sky"; p_dec_deg := 8;
     p_description := EmptyString; p_distance := 0; p_dome_alt := 0; p_dome_az := 0;
     p_foreground_image_set := None; p_image_set := None;
     p_latitude := 0; p_longitude := 0; p_magnitude := 0;
     p_msr_community_id := 0; p_msr_component_id := 0; p_name := "Altair";
     p_opacity := 100; p_permission := 0; p_ra_hr := 37 # 2; p_rotation_deg := 0;
     p_thumbnail := EmptyString; p_zoom_level := 0 |}.

Definition vega_with_image : Place :=
  {| p_angle := 0; p_angular_size := 0; p_annotation := EmptyString;
     p_background_image_set := None; p_classification := None;
     p_constellation := None; p_data_set_type := "Sky"; p_dec_deg := 194 # 5;
     p_description := EmptyString; p_distance := 0; p_dome_alt := 0; p_dome_az := 0;
     p_foreground_image_set := None; p_image_set := Some m31_second;
     p_latitude := 0; p_longitude := 0; p_magnitude := 0;
     p_msr_community_id := 0; p_msr_component_id := 0; p_name := "Vega";
     p_opacity := 100; p_permission := 0; p_ra_hr := 93 # 5; p_rotation_deg := 0;
     p_thumbnail := EmptyString; p_zoom_level := 0 |}.

Definition unlike_items : list item :=
  [ItemImageSet m31_first; ItemPlace vega_with_image; ItemOther; ItemPlace altair].

(** A catalog file with one imageset and one place that carries it. *)
Definition sound_items : list item :=
  [ItemImageSet m31_first; ItemOther; ItemPlace vega_with_image].
(** * Properties *)

(** ** Strings *)

Example prettify_sample :
  let line := "  <foo b=" +:+ quote +:+ "2" +:+ quote +:+ " a=" +:+ quote +:+ "1" +:+ quote +:+ "/>" in
  let r := prettify_line line Stdout (World ∅ [] [] []) in
  fst r = Ok tt /\
  stdout (snd r)
  = ["  <foo"; "    a=" +:+ quote +:+ "1" +:+ quote; "    b=" +:+ quote +:+ "2" +:+ quote; "  ></foo>"].
Proof. vm_compute. split; reflexivity. Qed.

Lemma app_cons (c : ascii) (a b : string) : String c a +:+ b = String c (a +:+ b).
Proof. reflexivity. Qed.

Lemma app_nil_l (b : string) : EmptyString +:+ b = b.
Proof. reflexivity. Qed.

Lemma length_app (a b : string) :
  String.length (a +:+ b) = (String.length a + String.length b)%nat.
Proof.
  induction a as [|c a IH]; [reflexivity|].
  rewrite app_cons. simpl. now rewrite IH.
Qed.

Lemma lower_app (a b : string) : lower (a +:+ b) = lower a +:+ lower b.
Proof.
  induction a as [|c a IH]; [reflexivity|].
  rewrite app_cons. simpl. now rewrite app_cons, IH.
Qed.

Lemma lower_zeros (n : nat) : lower (zeros n) = zeros n.
Proof. induction n as [|n IH]; simpl; [reflexivity | now rewrite IH]. Qed.

Lemma lower_uint_digits (u : Decimal.uint) :
  lower (NilEmpty.string_of_uint u) = NilEmpty.string_of_uint u.
Proof. induction u; simpl; try rewrite IHu; reflexivity. Qed.

Lemma lower_uint (u : Decimal.uint) :
  lower (NilZero.string_of_uint u) = NilZero.string_of_uint u.
Proof. destruct u; try apply lower_uint_digits; reflexivity. Qed.

Lemma lower_pad0 (w : nat) (n : N) : lower (pad0 w (digits n)) = pad0 w (digits n).
Proof. unfold pad0, digits. now rewrite lower_app, lower_zeros, lower_uint. Qed.

Lemma lower_fmt_d (w : nat) (z : Z) : lower (fmt_d w z) = fmt_d w z.
Proof.
  unfold fmt_d. destruct (z <? 0); simpl; now rewrite lower_pad0.
Qed.

Lemma string_app_assoc (a b c : string) : (a +:+ b) +:+ c = a +:+ (b +:+ c).
Proof. induction a as [|x a IH]; [reflexivity | now rewrite !app_cons, IH]. Qed.

Lemma string_app_nil_r (a : string) : a +:+ EmptyString = a.
Proof. induction a as [|x a IH]; [reflexivity | now rewrite !app_cons, IH]. Qed.

(** ** Binning *)

Lemma Qfloor_div10 (q : Q) : Qfloor q / 10 = Qfloor (q / 10).
Proof.
  destruct q as [n d]. unfold Qfloor, Qdiv, Qmult, Qinv. simpl.
  rewrite Z.mul_1_r, Pos2Z.inj_mul, Z.div_div by lia. reflexivity.
Qed.

Lemma lon_bin_floor (q : Q) :
  let bin := Qfloor (q / 10) * 10 in
  (inject_Z bin <= q)%Q /\ (q < inject_Z (bin + 10))%Q /\ bin mod 10 = 0.
Proof.
  cbv zeta. rewrite <- Qfloor_div10.
  pose proof (Qfloor_le q) as Hle. pose proof (Qlt_floor q) as Hlt.
  set (f := Qfloor q) in *.
  pose proof (Z.mod_pos_bound f 10 ltac:(lia)) as Hm.
  pose proof (Z.div_mod f 10 ltac:(lia)) as Hd.
  split; [|split].
  - apply Qle_trans with (inject_Z f); [|exact Hle].
    rewrite <- Zle_Qle. lia.
  - apply Qlt_le_trans with (inject_Z (f + 1)); [exact Hlt|].
    rewrite <- Zle_Qle. lia.
  - apply Z.mod_mul. lia.
Qed.

(** ** Partition keys *)

(** C4. The partition key that the rewrite computes for an imageset is the
    lowercased underscore-join of the data-set-type value, the reference
    frame when it is present and not "Sky", and the band-pass value when it
    is present.  A Sky imageset without a frame and with band pass Visible
    has key "sky_visible", and an explicit frame "Sky" gives the key of an
    absent frame. *)
Theorem imageset_key_spec :
  (forall imgset, imageset_key imgset = spec_imageset_key imgset) /\
  (forall u n,
      imageset_key {| url := u; data_set_type := "Sky"; reference_frame := None;
                      band_pass := Some "Visible"; name := n |} = "sky_visible") /\
  (forall u d b n,
      imageset_key {| url := u; data_set_type := d; reference_frame := Some "Sky";
                      band_pass := b; name := n |}
      = imageset_key {| url := u; data_set_type := d; reference_frame := None;
                        band_pass := b; name := n |}).
Proof.
  split; [|split].
  - intros [u d rf bp n]. unfold imageset_key, spec_imageset_key,
      spec_frame_component, spec_band_component. simpl.
    destruct rf as [rf|]; [destruct (String.eqb rf "Sky")|];
      destruct bp as [bp|]; reflexivity.
  - reflexivity.
  - reflexivity.
Qed.

Lemma place_key_parts (info : gmap string pyval) (dst : string) :
  info !! "data_set_type" = Some (VStr dst) ->
  num_or_none (dict_get info "ra_hr") ->
  num_or_none (dict_get info "longitude") ->
  place_key info = Ok (lower dst +:+ ra_part info +:+ lon_part info).
Proof.
  intros Hd Hra Hlon. unfold place_key, dict_item, ra_part, lon_part.
  rewrite Hd. cbn [rbind].
  destruct (dict_get info "ra_hr") as [|s|r]; [|destruct Hra|];
    destruct (dict_get info "longitude") as [|s|q]; try destruct Hlon;
    cbn [is_not_none math_floor rbind app py_join as_strs join];
    rewrite <- ?Qfloor_div10, ?lower_app, ?lower_fmt_d, ?string_app_assoc,
      ?string_app_nil_r; reflexivity.
Qed.

(** *** Zero fill *)

Lemma length_zeros (n : nat) : String.length (zeros n) = n.
Proof. induction n as [|n IH]; simpl; congruence. Qed.

Lemma length_pad0 (w : nat) (s : string) :
  String.length (pad0 w s) = Nat.max w (String.length s).
Proof. unfold pad0. rewrite length_app, length_zeros. lia. Qed.

Lemma length_fmt_d (w : nat) (z : Z) :
  String.length (fmt_d w z)
  = Nat.max w (String.length (digits (Z.to_N (Z.abs z))) + (if z <? 0 then 1 else 0)).
Proof.
  unfold fmt_d. destruct (Z.ltb_spec z 0).
  - simpl String.length. rewrite length_pad0.
    replace (Z.abs z) with (- z) by lia. lia.
  - rewrite length_pad0. replace (Z.abs z) with z by lia. lia.
Qed.

Lemma uint_of_zeros (k : nat) (s : string) (u : Decimal.uint) :
  NilEmpty.uint_of_string s = Some u ->
  NilEmpty.uint_of_string (zeros k +:+ s) = Some (Nat.iter k Decimal.D0 u).
Proof.
  intros H. induction k as [|k IH]; [exact H|].
  change (zeros (S k)) with (String "0" (zeros k)). rewrite app_cons.
  cbn [NilEmpty.uint_of_string]. rewrite IH. reflexivity.
Qed.

Lemma pos_of_iter_D0 (k : nat) (u : Decimal.uint) :
  Pos.of_uint (Nat.iter k Decimal.D0 u) = Pos.of_uint u.
Proof. induction k as [|k IH]; simpl; auto. Qed.

Lemma to_uint_nonnil (n : N) : N.to_uint n <> Decimal.Nil.
Proof.
  intros E. pose proof (DecimalN.Unsigned.to_of (N.to_uint n)) as H.
  rewrite DecimalN.Unsigned.of_to in H. rewrite E in H at 2. simpl in H.
  rewrite E in H. discriminate.
Qed.

Lemma read_digits (n : N) :
  NilEmpty.uint_of_string (digits n) = Some (N.to_uint n) /\
  exists c r, digits n = String c r /\ Ascii.eqb c "-" = false.
Proof.
  unfold digits. pose proof (to_uint_nonnil n) as Hn.
  pose proof (NilEmpty.usu (N.to_uint n)) as Hu.
  destruct (N.to_uint n) as [|u|u|u|u|u|u|u|u|u|u]; try congruence;
    (split; [exact Hu | eexists _, _; split; reflexivity]).
Qed.

Lemma read_padded (k : nat) (n : N) :
  NilZero.uint_of_string (zeros k +:+ digits n)
  = Some (Nat.iter k Decimal.D0 (N.to_uint n)) /\
  exists c r, zeros k +:+ digits n = String c r /\ Ascii.eqb c "-" = false.
Proof.
  destruct (read_digits n) as (Hu & c & r & E & Hc).
  assert (Hs : exists c r, zeros k +:+ digits n = String c r /\
                           Ascii.eqb c "-" = false).
  { destruct k; [rewrite app_nil_l; eauto | simpl zeros; rewrite app_cons; eauto]. }
  split; [|exact Hs]. destruct Hs as (c' & r' & E' & _).
  unfold NilZero.uint_of_string. rewrite E', <- E'. now apply uint_of_zeros.
Qed.

Lemma of_iter_D0 (k : nat) (n : N) :
  Z.of_uint (Nat.iter k Decimal.D0 (N.to_uint n)) = Z.of_N n.
Proof.
  unfold Z.of_uint. rewrite pos_of_iter_D0.
  change (Pos.of_uint (N.to_uint n)) with (N.of_uint (N.to_uint n)).
  now rewrite DecimalN.Unsigned.of_to.
Qed.

(** A number formatted with zero fill reads back as the number. *)
Lemma read_fmt_d (w : nat) (z : Z) : read_int (fmt_d w z) = Some z.
Proof.
  unfold read_int, fmt_d. destruct (Z.ltb_spec z 0).
  - unfold NilZero.int_of_string. cbn [Ascii.eqb Bool.eqb]. cbv iota.
    unfold pad0.
    destruct (read_padded (w - 1 - String.length (digits (Z.to_N (- z))))
                (Z.to_N (- z))) as [-> _].
    simpl. rewrite of_iter_D0. f_equal. lia.
  - unfold pad0.
    destruct (read_padded (w - String.length (digits (Z.to_N z))) (Z.to_N z))
      as (Hu & c & r & E & Hc).
    unfold NilZero.int_of_string. rewrite E, Hc, <- E, Hu. simpl.
    rewrite of_iter_D0. f_equal. lia.
Qed.

(** The bins from -90 to 990 take three characters. *)
Lemma length_fmt_d_3 (bin : Z) :
  bin mod 10 = 0 -> -100 < bin < 1000 -> String.length (fmt_d 3 bin) = 3%nat.
Proof.
  intros Hm Hb.
  assert (Hall : forallb (fun k => Nat.eqb (String.length
                                              (fmt_d 3 (10 * (Z.of_nat k - 9)))) 3)
                         (seq 0 109) = true) by (vm_compute; reflexivity).
  rewrite forallb_forall in Hall.
  pose proof (Z.div_mod bin 10 ltac:(lia)) as Hd.
  specialize (Hall (Z.to_nat (bin / 10 + 9))).
  replace (10 * (Z.of_nat (Z.to_nat (bin / 10 + 9)) - 9)) with bin in Hall by lia.
  apply Nat.eqb_eq, Hall, in_seq. lia.
Qed.

(** C5. When [longitude] is a number [q], the shard key ends with the
    component "lon" followed by [bin = floor(q / 10) * 10]: the multiple of
    ten with [bin <= q < bin + 10], so a negative longitude goes down, away
    from zero.  The bin is written in decimal, with a minus sign when it
    is negative, and filled up with zeros between the sign and the digits
    to three characters when it would be shorter: what is written reads
    back as the bin, takes three characters or more, exactly three for the
    bins from -90 to 990, and as many as the sign and the digits take in
    any case. *)
Theorem place_key_longitude (info : gmap string pyval) (dst : string) (q : Q) :
  info !! "data_set_type" = Some (VStr dst) ->
  info !! "longitude" = Some (VNum q) ->
  num_or_none (dict_get info "ra_hr") ->
  let bin := Qfloor (q / 10) * 10 in
  place_key info = Ok (lower dst +:+ ra_part info +:+ "_lon" +:+ fmt_d 3 bin) /\
  (inject_Z bin <= q)%Q /\ (q < inject_Z (bin + 10))%Q /\ bin mod 10 = 0 /\
  (0 <= bin -> fmt_d 3 bin = pad0 3 (digits (Z.to_N bin))) /\
  (bin < 0 -> fmt_d 3 bin = String "-" (pad0 2 (digits (Z.to_N (- bin))))) /\
  read_int (fmt_d 3 bin) = Some bin /\
  (3 <= String.length (fmt_d 3 bin))%nat /\
  String.length (fmt_d 3 bin)
  = Nat.max 3 (String.length (digits (Z.to_N (Z.abs bin)))
               + (if bin <? 0 then 1 else 0)) /\
  (-100 < bin < 1000 -> String.length (fmt_d 3 bin) = 3%nat).
Proof.
  intros Hd Hl Hra bin.
  assert (Hg : dict_get info "longitude" = VNum q) by (unfold dict_get; now rewrite Hl).
  split.
  - rewrite (place_key_parts info dst Hd Hra) by (rewrite Hg; exact I).
    unfold lon_part. rewrite Hg. reflexivity.
  - destruct (lon_bin_floor q) as (H1 & H2 & H3).
    split; [exact H1|]. split; [exact H2|]. split; [exact H3|].
    split; [|split; [|split; [|split; [|split]]]].
    + intros Hs. unfold fmt_d. destruct (Z.ltb_spec bin 0); [lia | reflexivity].
    + intros Hs. unfold fmt_d. destruct (Z.ltb_spec bin 0); [reflexivity | lia].
    + apply read_fmt_d.
    + rewrite length_fmt_d. lia.
    + apply length_fmt_d.
    + apply length_fmt_d_3. exact H3.
Qed.

(** C6. When [ra_hr] is a number [r], the shard key carries the component
    "ra" followed by [floor(r) mod 24], a value from 0 to 23 written with
    exactly two digits. *)
Theorem place_key_ra (info : gmap string pyval) (dst : string) (r : Q) :
  info !! "data_set_type" = Some (VStr dst) ->
  info !! "ra_hr" = Some (VNum r) ->
  num_or_none (dict_get info "longitude") ->
  let ra := Qfloor r mod 24 in
  place_key info = Ok (lower dst +:+ "_ra" +:+ fmt_d 2 ra +:+ lon_part info) /\
  0 <= ra < 24 /\
  fmt_d 2 ra = pad0 2 (digits (Z.to_N ra)) /\
  String.length (fmt_d 2 ra) = 2%nat.
Proof.
  intros Hd Hr Hlon ra.
  assert (Hg : dict_get info "ra_hr" = VNum r) by (unfold dict_get; now rewrite Hr).
  assert (Hb : 0 <= ra < 24) by (apply Z.mod_pos_bound; lia).
  split; [|split; [exact Hb|]].
  - rewrite (place_key_parts info dst Hd) by (rewrite ?Hg; assumption || exact I).
    unfold ra_part. rewrite Hg. now rewrite !string_app_assoc.
  - assert (Hf : fmt_d 2 ra = pad0 2 (digits (Z.to_N ra))).
    { unfold fmt_d. destruct (Z.ltb_spec ra 0); [lia | reflexivity]. }
    split; [exact Hf|]. rewrite Hf.
    assert (Hc : ra = 0 \/ ra = 1 \/ ra = 2 \/ ra = 3 \/ ra = 4 \/ ra = 5 \/ ra = 6 \/
                 ra = 7 \/ ra = 8 \/ ra = 9 \/ ra = 10 \/ ra = 11 \/ ra = 12 \/
                 ra = 13 \/ ra = 14 \/ ra = 15 \/ ra = 16 \/ ra = 17 \/ ra = 18 \/
                 ra = 19 \/ ra = 20 \/ ra = 21 \/ ra = 22 \/ ra = 23) by lia.
    repeat (destruct Hc as [Hc|Hc]; [rewrite Hc; reflexivity|]).
    rewrite Hc; reflexivity.
Qed.

Lemma place_key_longitude_witness :
  place_key place_west = Ok "earth_lon-10" /\
  place_key place_near = Ok "earth_lon000" /\
  place_key place_far = Ok "earth_lon120".
Proof.
  split; [|split].
  - exact (proj1 (place_key_longitude place_west "Earth" (-5) eq_refl eq_refl I)).
  - exact (proj1 (place_key_longitude place_near "Earth" 5 eq_refl eq_refl I)).
  - exact (proj1 (place_key_longitude place_far "Earth" (247 # 2) eq_refl eq_refl I)).
Defined.

Lemma place_key_ra_witness :
  place_key place_late = Ok "sky_ra23" /\ place_key place_wrapped = Ok "sky_ra00".
Proof.
  split.
  - exact (proj1 (place_key_ra place_late "Sky" (239 # 10) eq_refl eq_refl I)).
  - exact (proj1 (place_key_ra place_wrapped "Sky" (49 # 2) eq_refl eq_refl I)).
Defined.

(** ** The imageset store: first writer wins *)

Lemma url_in_spec (u : string) (d : list (string * ImageSet)) :
  url_in u d = true <-> In u (map fst d).
Proof.
  unfold url_in. rewrite existsb_exists, in_map_iff. split.
  - intros (kv & Hin & He). apply String.eqb_eq in He. eauto.
  - intros (kv & He & Hin). exists kv. split; [exact Hin | now apply String.eqb_eq].
Qed.

Lemma by_url_get_none (u : string) (d : list (string * ImageSet)) :
  url_in u d = false -> by_url_get u d = None.
Proof.
  unfold url_in, by_url_get. induction d as [|kv d IH]; simpl; [reflexivity|].
  destruct (String.eqb (fst kv) u); simpl; [discriminate | exact IH].
Qed.

Lemma by_url_get_snoc (u k : string) (v : ImageSet) (d : list (string * ImageSet)) :
  by_url_get u (d ++ [(k, v)])
  = match by_url_get u d with
    | Some x => Some x
    | None => if String.eqb k u then Some v else None
    end.
Proof.
  unfold by_url_get. induction d as [|kv d IH]; simpl.
  - destruct (String.eqb k u); reflexivity.
  - destruct (String.eqb (fst kv) u); simpl; [reflexivity | exact IH].
Qed.

Lemma add_imagesets_first_seen (l : list ImageSet) :
  forall (self : ImagesetDatabase) (w : world),
    NoDup (map fst (by_url self)) ->
    Forall (fun kv => fst kv = url (snd kv)) (by_url self) ->
    exists db' w',
      add_imagesets l self w = (Ok db', w') /\
      fs w' = fs w /\
      db_dir db' = db_dir self /\
      NoDup (map fst (by_url db')) /\
      Forall (fun kv => fst kv = url (snd kv)) (by_url db') /\
      forall u, by_url_get u (by_url db')
                = match by_url_get u (by_url self) with
                  | Some x => Some x
                  | None => find (fun i => String.eqb (url i) u) l
                  end.
Proof.
  induction l as [|c l IH]; intros self w Hnd Hk.
  - exists self, w. simpl. unfold ret. repeat split; try assumption.
    intros u. now destruct (by_url_get u (by_url self)).
  - simpl. unfold bind, add_imageset.
    destruct (url_in (url c) (by_url self)) eqn:Hin.
    + unfold bind, warn, ret.
      destruct (IH self
                  (World (fs w) (stdout w)
                     (stderr w ++ ["warning: " +:+ "dropping duplicated imageset `"
                                   +:+ url c +:+ "`"]) (faults w)) Hnd Hk)
        as (db' & w' & Hrun & Hfs & Hdir & Hnd' & Hk' & Hget).
      exists db', w'. rewrite Hrun. repeat split; try assumption.
      intros u. rewrite Hget.
      destruct (by_url_get u (by_url self)) eqn:Hu; [reflexivity|].
      destruct (String.eqb (url c) u) eqn:He; [|reflexivity].
      apply String.eqb_eq in He. subst u.
      apply url_in_spec in Hin. exfalso.
      unfold by_url_get in Hu.
      destruct (find (fun kv => String.eqb (fst kv) (url c)) (by_url self)) eqn:Hf;
        [discriminate|].
      apply in_map_iff in Hin. destruct Hin as (kv & Hkv & Hin).
      apply (find_none _ _ Hf) in Hin. rewrite Hkv, String.eqb_refl in Hin.
      discriminate.
    + unfold ret.
      set (self1 := {| db_dir := db_dir self;
                       by_url := by_url self ++ [(url c, c)] |}).
      assert (Hnd1 : NoDup (map fst (by_url self1))).
      { simpl. rewrite map_app. simpl. apply NoDup_app. repeat split.
        - exact Hnd.
        - intros x Hx Hy. apply list_elem_of_In in Hx. apply list_elem_of_In in Hy.
          destruct Hy as [Hy|[]]. subst x. apply url_in_spec in Hx. congruence.
        - apply NoDup_singleton. }
      assert (Hk1 : Forall (fun kv => fst kv = url (snd kv)) (by_url self1)).
      { simpl. apply Forall_app. split; [exact Hk | now constructor]. }
      destruct (IH self1 w Hnd1 Hk1)
        as (db' & w' & Hrun & Hfs & Hdir & Hnd' & Hk' & Hget).
      exists db', w'. rewrite Hrun. repeat split; try assumption.
      intros u. rewrite Hget. simpl. rewrite by_url_get_snoc.
      destruct (by_url_get u (by_url self)); [reflexivity|].
      destruct (String.eqb (url c) u); reflexivity.
Qed.

(** C3. Adding an imageset whose url is already a key of the store returns
    the store as it was, raises nothing, and changes the world only by one
    warning on [stderr] that names the url.  Hence, after any sequence of
    additions to an empty store, the store has one entry for each url seen,
    and it is the first imageset that came with that url. *)
Theorem add_imageset_duplicate_dropped :
  (forall (imgset : ImageSet) (self : ImagesetDatabase) (w : world),
      url_in (url imgset) (by_url self) = true ->
      add_imageset imgset self w
      = (Ok self,
         World (fs w) (stdout w)
           (stderr w ++ ["warning: dropping duplicated imageset `" +:+ url imgset +:+ "`"])
           (faults w))) /\
  (forall (l : list ImageSet) (dir : string) (w : world),
      exists db' w',
        add_imagesets l (empty_db dir) w = (Ok db', w') /\
        fs w' = fs w /\
        NoDup (map fst (by_url db')) /\
        Forall (fun kv => fst kv = url (snd kv)) (by_url db') /\
        forall u, by_url_get u (by_url db') = find (fun i => String.eqb (url i) u) l).
Proof.
  split.
  - intros imgset self w Hin. unfold add_imageset. rewrite Hin. reflexivity.
  - intros l dir w.
    destruct (add_imagesets_first_seen l (empty_db dir) w) as
      (db' & w' & Hrun & Hfs & _ & Hnd & Hk & Hget);
      [constructor | constructor |].
    exists db', w'. repeat split; try assumption.
Qed.

Lemma add_imageset_duplicate_dropped_witness :
  add_imageset m31_second {| db_dir := "imagesets"; by_url := [(url m31_first, m31_first)] |}
    quiet_world
  = (Ok {| db_dir := "imagesets"; by_url := [(url m31_first, m31_first)] |},
     World ∅ [] ["warning: dropping duplicated imageset `http://example.org/m31`"] []).
Proof.
  exact (proj1 add_imageset_duplicate_dropped m31_second
           {| db_dir := "imagesets"; by_url := [(url m31_first, m31_first)] |}
           quiet_world eq_refl).
Defined.

(** ** Order on strings *)

Lemma str_ltb_leb (a b : string) : String.ltb a b = negb (String.leb b a).
Proof.
  unfold String.ltb, String.leb. rewrite (String.compare_antisym a b).
  destruct (String.compare b a); reflexivity.
Qed.

Lemma str_ltb_irrefl (a : string) : String.ltb a a = false.
Proof.
  rewrite str_ltb_leb. destruct (String.leb_total a a) as [H|H]; now rewrite H.
Qed.

Lemma str_ltb_trans (a b c : string) :
  String.ltb a b = true -> String.ltb b c = true -> String.ltb a c = true.
Proof.
  rewrite !str_ltb_leb, !negb_true_iff. intros Hab Hbc.
  destruct (String.leb c a) eqn:Hca; [|reflexivity].
  assert (Hcb : String.le c b).
  { transitivity a.
    - unfold String.le. now rewrite Hca.
    - unfold String.le. destruct (String.leb_total a b) as [H|H]; [now rewrite H|].
      congruence. }
  unfold String.le in Hcb. rewrite Hbc in Hcb. destruct Hcb.
Qed.

Lemma str_ltb_total (a b : string) :
  a <> b -> String.ltb a b = true \/ String.ltb b a = true.
Proof.
  intros Hne. rewrite !str_ltb_leb, !negb_true_iff.
  destruct (String.leb a b) eqn:Hab, (String.leb b a) eqn:Hba; auto.
  exfalso. apply Hne. now apply String.leb_antisym.
Qed.

Lemma str_ltb_asym (a b : string) :
  String.ltb a b = true -> String.ltb b a = false.
Proof.
  intros Hab. destruct (String.ltb b a) eqn:Hba; [|reflexivity].
  pose proof (str_ltb_trans _ _ _ Hab Hba) as H. rewrite str_ltb_irrefl in H.
  discriminate.
Qed.

(** ** The stable sort *)

Section SortFacts.
Context {A K : Type}.
Variable ltb : K -> K -> bool.

Lemma insert_by_pure (x : K * A) (l : list (K * A)) :
  insert_by (fun a b => Ok (ltb a b)) x l = Ok (insert_pure ltb x l).
Proof.
  induction l as [|y l IH]; simpl; [reflexivity|].
  destruct (ltb (fst y) (fst x)); [rewrite IH|]; reflexivity.
Qed.

Lemma sort_by_pure (l : list (K * A)) :
  sort_by (fun a b => Ok (ltb a b)) l = Ok (isort ltb l).
Proof.
  induction l as [|x l IH]; simpl; [reflexivity|].
  rewrite IH. simpl. apply insert_by_pure.
Qed.

Lemma with_keys_pure (key : A -> K) (l : list A) :
  with_keys (fun x => Ok (key x)) l = Ok (map (fun x => (key x, x)) l).
Proof.
  induction l as [|x l IH]; simpl; [reflexivity | now rewrite IH].
Qed.

Lemma sorted_is_pure (key : A -> K) (l : list A) :
  sorted (fun a b => Ok (ltb a b)) (fun x => Ok (key x)) l
  = Ok (sorted_pure ltb key l).
Proof.
  unfold sorted, sorted_pure. rewrite with_keys_pure. simpl.
  now rewrite sort_by_pure.
Qed.

Lemma insert_pure_perm (x : K * A) (l : list (K * A)) :
  Permutation (insert_pure ltb x l) (x :: l).
Proof.
  induction l as [|y l IH]; simpl; [reflexivity|].
  destruct (ltb (fst y) (fst x)); [|reflexivity].
  rewrite IH. apply perm_swap.
Qed.

Lemma isort_perm (l : list (K * A)) : Permutation (isort ltb l) l.
Proof.
  induction l as [|x l IH]; simpl; [reflexivity|].
  rewrite insert_pure_perm. now constructor.
Qed.

Hypothesis ltb_trans : forall a b c, ltb a b = true -> ltb b c = true -> ltb a c = true.
Hypothesis ltb_asym : forall a b, ltb a b = true -> ltb b a = false.
Hypothesis ltb_total : forall a b, a <> b -> ltb a b = true \/ ltb b a = true.

(** Strictly increasing keys. *)
Definition key_lt (x y : K * A) : Prop := ltb (fst x) (fst y) = true.

Lemma insert_pure_sorted (x : K * A) (l : list (K * A)) :
  ~ In (fst x) (map fst l) ->
  StronglySorted key_lt l ->
  StronglySorted key_lt (insert_pure ltb x l).
Proof.
  induction l as [|y l IH]; intros Hx Hs; simpl.
  - repeat constructor.
  - apply StronglySorted_inv in Hs. destruct Hs as [Hs Hy].
    assert (Hne : fst x <> fst y) by (intros E; apply Hx; left; now symmetry).
    destruct (ltb (fst y) (fst x)) eqn:Hyx.
    + constructor.
      * apply IH; [|exact Hs]. intros Hin. apply Hx. now right.
      * apply List.Forall_forall. intros z Hz.
        apply (Permutation_in _ (insert_pure_perm x l)) in Hz.
        destruct Hz as [<-|Hz]; [exact Hyx|].
        rewrite List.Forall_forall in Hy. now apply Hy.
    + assert (Hxy : ltb (fst x) (fst y) = true).
      { destruct (ltb_total _ _ Hne) as [H|H]; [exact H | congruence]. }
      constructor; [now constructor|].
      constructor; [exact Hxy|].
      rewrite List.Forall_forall in Hy |- *. intros z Hz.
      unfold key_lt. eapply ltb_trans; [exact Hxy | now apply Hy].
Qed.

Lemma isort_sorted (l : list (K * A)) :
  NoDup (map fst l) -> StronglySorted key_lt (isort ltb l).
Proof.
  induction l as [|x l IH]; intros Hnd; simpl; [constructor|].
  simpl in Hnd. apply NoDup_cons in Hnd. destruct Hnd as [Hx Hnd].
  apply insert_pure_sorted; [|now apply IH].
  intros Hin. apply Hx. apply list_elem_of_In.
  apply (Permutation_in _ (Permutation_map fst (isort_perm l))). exact Hin.
Qed.


End SortFacts.

(** ** Character classes and the greedy scans *)

Lemma space_not_tag_char (c : ascii) : is_space c = true -> is_tag_char c = false.
Proof. destruct c as [[] [] [] [] [] [] [] []]; vm_compute; congruence. Qed.

Lemma word_not_space (c : ascii) : is_word c = true -> is_space c = false.
Proof. destruct c as [[] [] [] [] [] [] [] []]; vm_compute; congruence. Qed.

Lemma span_inv (p : ascii -> bool) (s a b : string) :
  span p s = (a, b) -> s = a +:+ b /\ all_chars p a = true /\ stops p b.
Proof.
  revert a b. induction s as [|c s IH]; intros a b H; simpl in H.
  - inversion H. subst. repeat split.
  - destruct (p c) eqn:Hc.
    + destruct (span p s) as [a' b'] eqn:Hs. inversion H. subst.
      destruct (IH a' b eq_refl) as (E & Ha & Hb).
      rewrite app_cons. simpl. rewrite Hc, Ha. subst s. repeat split. exact Hb.
    + inversion H. subst. repeat split. simpl. exact Hc.
Qed.

Lemma span_app (p : ascii -> bool) (a b : string) :
  all_chars p a = true -> stops p b -> span p (a +:+ b) = (a, b).
Proof.
  intros Ha Hb. induction a as [|c a IH].
  - rewrite app_nil_l. destruct b as [|c b]; [reflexivity|].
    simpl in *. now rewrite Hb.
  - simpl in Ha. apply andb_true_iff in Ha. destruct Ha as [Hc Ha].
    rewrite app_cons. simpl. rewrite Hc, (IH Ha). reflexivity.
Qed.

Lemma is_empty_false (s : string) :
  is_empty s = false -> exists c s', s = String c s'.
Proof. destruct s as [|c s']; [discriminate | eauto]. Qed.

Lemma rstrip_spaces (s : string) : all_chars is_space s = true -> rstrip s = EmptyString.
Proof.
  induction s as [|c s IH]; intros H; simpl in *; [reflexivity|].
  apply andb_true_iff in H. destruct H as [Hc Hs].
  now rewrite (IH Hs), Hc.
Qed.

(** A text that [rstrip] keeps does not end in white space, and neither
    does any tail of it. *)
Lemma rstrip_fixed_tail (a b : string) : rstrip (a +:+ b) = a +:+ b -> rstrip b = b.
Proof.
  induction a as [|c a IH]; intros H; [exact H|].
  rewrite app_cons in H. simpl in H.
  destruct (is_space c && is_empty (rstrip (a +:+ b))); [discriminate|].
  inversion H as [E]. now apply IH.
Qed.

Lemma rstrip_fixed_last (c : ascii) : 
  rstrip (String c EmptyString) = String c EmptyString -> is_space c = false.
Proof.
  simpl. destruct (is_space c); [discriminate | reflexivity].
Qed.

Lemma rstrip_idem (s : string) : rstrip (rstrip s) = rstrip s.
Proof.
  induction s as [|c s IH]; [reflexivity|]. simpl.
  destruct (is_space c && is_empty (rstrip s)) eqn:E; [reflexivity|].
  simpl. now rewrite IH, E.
Qed.

(** White space after a character that is not white space is stripped,
    and nothing else. *)
Lemma rstrip_trailing (pre : string) (c : ascii) (trail : string) :
  is_space c = false -> all_chars is_space trail = true ->
  rstrip (pre +:+ String c trail) = pre +:+ String c EmptyString.
Proof.
  intros Hc Ht. induction pre as [|x pre IH].
  - rewrite !app_nil_l. simpl. now rewrite (rstrip_spaces _ Ht), Hc.
  - rewrite !app_cons. simpl. rewrite IH.
    destruct pre; rewrite ?app_nil_l, ?app_cons; simpl; now rewrite ?andb_false_r.
Qed.

(** ** The three regular expressions *)

Ltac split_char c := destruct c as [[] [] [] [] [] [] [] []].

Lemma at_dollar_inv (s : string) :
  at_dollar s = true -> s = EmptyString \/ s = String "010" EmptyString.
Proof.
  destruct s as [|c [|c' s]]; simpl; intros H; try discriminate; [now left|].
  right. apply Ascii.eqb_eq in H. now subst.
Qed.

Lemma match_attrs_done_inv (s : string) (self_ending : bool) :
  match_attrs_done s = Some self_ending ->
  exists ws tail,
    s = ws +:+ end_marker self_ending +:+ tail /\
    all_chars is_space ws = true /\ at_dollar tail = true.
Proof.
  unfold match_attrs_done. destruct (span is_space s) as [ws r] eqn:Hs.
  apply span_inv in Hs. destruct Hs as (E & Hws & _). subst s.
  destruct r as [|c r]; [discriminate|].
  split_char c; try discriminate.
  - destruct r as [|c r]; [discriminate|].
    split_char c; try discriminate.
    destruct (at_dollar r) eqn:Hd; [|discriminate].
    intros H. inversion H. subst. exists ws, r. repeat split; assumption.
  - destruct (at_dollar r) eqn:Hd; [|discriminate].
    intros H. inversion H. subst. exists ws, r. repeat split; assumption.
Qed.

Lemma match_attrs_done_end (ws : string) (self_ending : bool) :
  all_chars is_space ws = true ->
  match_attrs_done (ws +:+ end_marker self_ending) = Some self_ending.
Proof.
  intros Hws. unfold match_attrs_done.
  rewrite (span_app is_space ws (end_marker self_ending) Hws);
    destruct self_ending; reflexivity.
Qed.

Lemma match_attrs_done_word (ws : string) (c : ascii) (rest : string) :
  all_chars is_space ws = true -> is_word c = true ->
  match_attrs_done (ws +:+ String c rest) = None.
Proof.
  intros Hws Hc. unfold match_attrs_done.
  rewrite (span_app is_space ws (String c rest) Hws)
    by (simpl; now apply word_not_space).
  split_char c; try reflexivity; vm_compute in Hc; discriminate.
Qed.

Lemma match_attr_inv (s n v rest : string) :
  match_attr s = Some (n, v, rest) ->
  exists ws,
    s = ws +:+ attr_source (n, v) +:+ rest /\
    all_chars is_space ws = true /\ is_empty n = false /\
    all_chars is_word n = true /\ all_chars not_quote v = true.
Proof.
  unfold match_attr. destruct (span is_space s) as [ws r] eqn:Hs.
  apply span_inv in Hs. destruct Hs as (E & Hws & _). subst s.
  destruct (span is_word r) as [name r1] eqn:Hn.
  apply span_inv in Hn. destruct Hn as (E & Hname & _). subst r.
  destruct (is_empty name) eqn:Hne; [discriminate|].
  destruct r1 as [|c r1]; [discriminate|].
  split_char c; try discriminate.
  destruct r1 as [|c r1]; [discriminate|].
  split_char c; try discriminate.
  destruct (span not_quote r1) as [val r3] eqn:Hv.
  apply span_inv in Hv. destruct Hv as (E & Hval & _). subst r1.
  destruct r3 as [|c r3]; [discriminate|].
  split_char c; try discriminate.
  intros H. inversion H. subst. exists ws. repeat split; try assumption.
  unfold attr_source, quote. simpl fst. simpl snd.
  now rewrite !string_app_assoc.
Qed.

Lemma match_attr_pair (ws n v rest : string) :
  all_chars is_space ws = true -> is_empty n = false ->
  all_chars is_word n = true -> all_chars not_quote v = true ->
  match_attr (ws +:+ attr_source (n, v) +:+ rest) = Some (n, v, rest).
Proof.
  intros Hws Hne Hn Hv. unfold match_attr, attr_source, quote. simpl fst. simpl snd.
  destruct (is_empty_false n Hne) as (c & n' & En).
  assert (Hc : is_word c = true).
  { subst n. simpl in Hn. now apply andb_true_iff in Hn. }
  rewrite (span_app is_space ws) by
    (try exact Hws; subst n; rewrite !app_cons; simpl; now apply word_not_space).
  rewrite !string_app_assoc.
  rewrite (span_app is_word n) by (try exact Hn; reflexivity).
  rewrite Hne. rewrite !app_cons, !app_nil_l. cbv beta iota. rewrite ?app_nil_l.
  rewrite (span_app not_quote v) by (try exact Hv; reflexivity).
  reflexivity.
Qed.

(** ** The attribute loop *)

Lemma chomp_attrs_eq (fuel : nat) (attrs : list (string * string)) (s : string) :
  chomp_attrs fuel attrs s
  = match match_attrs_done s with
    | Some self_ending => Some (Ok (attrs, self_ending))
    | None =>
        match match_attr s with
        | None => Some (Err AssertionError)
        | Some (attr_name, attr_val, rest) =>
            if attr_in attr_name attrs then Some (Err AssertionError)
            else match fuel with
                 | O => None
                 | S fuel' => chomp_attrs fuel' (attrs ++ [(attr_name, attr_val)]) rest
                 end
        end
    end.
Proof. destruct fuel; reflexivity. Qed.

Lemma attr_in_spec (n : string) (attrs : list (string * string)) :
  attr_in n attrs = true <-> In n (map fst attrs).
Proof.
  unfold attr_in. rewrite existsb_exists, in_map_iff. split.
  - intros (kv & Hin & He). apply String.eqb_eq in He. eauto.
  - intros (kv & He & Hin). exists kv. split; [exact Hin | now apply String.eqb_eq].
Qed.

Lemma NoDup_names_snoc (acc : list (string * string)) (n v : string) :
  NoDup (map fst acc) -> attr_in n acc = false -> NoDup (map fst (acc ++ [(n, v)])).
Proof.
  intros Hnd Hin. rewrite map_app. apply NoDup_app. repeat split.
  - exact Hnd.
  - intros x Hx Hy. apply list_elem_of_In in Hx. apply list_elem_of_In in Hy.
    destruct Hy as [Hy|[]]. simpl in Hy. subst x.
    apply attr_in_spec in Hx. congruence.
  - apply NoDup_singleton.
Qed.

Lemma match_attr_shorter (s n v rest : string) :
  match_attr s = Some (n, v, rest) -> (String.length rest < String.length s)%nat.
Proof.
  intros H. apply match_attr_inv in H. destruct H as (ws & E & _). subst s.
  unfold attr_source, quote. simpl fst. simpl snd.
  rewrite !length_app. simpl. lia.
Qed.

(** The loop always ends within [String.length] turns, with the attributes
    or with a failed assertion. *)
Lemma chomp_attrs_total (fuel : nat) :
  forall (acc : list (string * string)) (s : string),
    (String.length s <= fuel)%nat ->
    (exists p, chomp_attrs fuel acc s = Some (Ok p)) \/
    chomp_attrs fuel acc s = Some (Err AssertionError).
Proof.
  induction fuel as [|fuel IH]; intros acc s Hlen; rewrite chomp_attrs_eq;
    (destruct (match_attrs_done s); [left; eauto|]);
    (destruct (match_attr s) as [[[n v] rest]|] eqn:Hm; [|now right]);
    (destruct (attr_in n acc); [now right|]);
    apply match_attr_shorter in Hm.
  - lia.
  - apply IH. lia.
Qed.

(** What the loop accepts is attribute text with distinct names. *)
Lemma chomp_attrs_inv (fuel : nat) :
  forall (acc : list (string * string)) (s : string)
         (attrs : list (string * string)) (self_ending : bool),
    chomp_attrs fuel acc s = Some (Ok (attrs, self_ending)) ->
    rstrip s = s ->
    NoDup (map fst acc) ->
    exists new,
      attrs = acc ++ new /\ attr_text new self_ending s /\ NoDup (map fst attrs).
Proof.
  induction fuel as [|fuel IH]; intros acc s attrs se H Hr Hnd;
    rewrite chomp_attrs_eq in H;
    (destruct (match_attrs_done s) as [se'|] eqn:Hd;
     [ inversion H; subst; clear H;
       apply match_attrs_done_inv in Hd; destruct Hd as (ws & tail & E & Hws & Ht);
       exists []; rewrite app_nil_r; repeat split; try assumption;
       apply at_dollar_inv in Ht; destruct Ht as [-> | ->];
       [ rewrite string_app_nil_r in E; subst s; now constructor
       | exfalso; subst s; rewrite <- string_app_assoc in Hr;
         apply rstrip_fixed_tail, rstrip_fixed_last in Hr; discriminate ]
     |]);
    (destruct (match_attr s) as [[[n v] rest]|] eqn:Hm; [|discriminate]);
    (destruct (attr_in n acc) eqn:Hin; [discriminate|]).
  - discriminate.
  - pose proof (match_attr_inv _ _ _ _ Hm) as (ws & E & Hws & Hne & Hn & Hv).
    assert (Hr' : rstrip rest = rest).
    { rewrite E, <- string_app_assoc in Hr. now apply rstrip_fixed_tail in Hr. }
    destruct (IH _ _ _ _ H Hr' (NoDup_names_snoc acc n v Hnd Hin))
      as (new & Ea & Ht & Hnd').
    exists ((n, v) :: new). repeat split.
    + rewrite Ea, <- app_assoc. reflexivity.
    + rewrite E. now constructor.
    + exact Hnd'.
Qed.

Lemma attr_text_length (attrs : list (string * string)) (se : bool) (s : string) :
  attr_text attrs se s -> (length attrs <= String.length s)%nat.
Proof.
  induction 1 as [ws se Hws | ws n v attrs se rest Hws Hne Hn Hv Ht IH]; simpl; [lia|].
  unfold attr_source, quote. simpl fst. simpl snd.
  rewrite !length_app. simpl. lia.
Qed.

(** Attribute text with distinct names is accepted, with its attributes
    in the order read. *)
Lemma chomp_attrs_complete (new : list (string * string)) (se : bool) (s : string) :
  attr_text new se s ->
  forall (fuel : nat) (acc : list (string * string)),
    (length new <= fuel)%nat ->
    NoDup (map fst (acc ++ new)) ->
    chomp_attrs fuel acc s = Some (Ok (acc ++ new, se)).
Proof.
  induction 1 as [ws se Hws | ws n v attrs se rest Hws Hne Hn Hv Ht IH];
    intros fuel acc Hlen Hnd; rewrite chomp_attrs_eq.
  - rewrite (match_attrs_done_end ws se Hws), app_nil_r. reflexivity.
  - destruct (is_empty_false n Hne) as (c & n' & En).
    assert (Hc : is_word c = true).
    { subst n. simpl in Hn. now apply andb_true_iff in Hn. }
    assert (Hnone : match_attrs_done (ws +:+ attr_source (n, v) +:+ rest) = None).
    { subst n. unfold attr_source. simpl fst. rewrite !app_cons.
      now apply match_attrs_done_word. }
    rewrite Hnone, (match_attr_pair ws n v rest Hws Hne Hn Hv).
    assert (Hin : attr_in n acc = false).
    { destruct (attr_in n acc) eqn:E; [|reflexivity]. exfalso.
      apply attr_in_spec in E. rewrite map_app in Hnd.
      apply NoDup_app in Hnd. destruct Hnd as (_ & Hd & _).
      apply (Hd n); [now apply list_elem_of_In|]. simpl. left. }
    rewrite Hin. destruct fuel as [|fuel]; [simpl in Hlen; lia|].
    rewrite (IH fuel (acc ++ [(n, v)])).
    + now rewrite <- app_assoc.
    + simpl in Hlen. lia.
    + now rewrite <- app_assoc.
Qed.

Lemma parse_attrs_complete (attrs : list (string * string)) (se : bool) (s : string) :
  attr_text attrs se s -> NoDup (map fst attrs) -> parse_attrs s = Ok (attrs, se).
Proof.
  intros Ht Hnd. unfold parse_attrs.
  rewrite (chomp_attrs_complete attrs se s Ht (String.length s) []).
  - reflexivity.
  - now apply attr_text_length in Ht.
  - exact Hnd.
Qed.

Lemma parse_attrs_inv (s : string) (attrs : list (string * string)) (se : bool) :
  parse_attrs s = Ok (attrs, se) -> rstrip s = s ->
  attr_text attrs se s /\ NoDup (map fst attrs).
Proof.
  unfold parse_attrs. intros H Hr.
  destruct (chomp_attrs (String.length s) [] s) as [r|] eqn:Hc; [|discriminate].
  subst r. destruct (chomp_attrs_inv _ _ _ _ _ Hc Hr) as (new & E & Ht & Hnd).
  - constructor.
  - simpl in E. subst new. split; assumption.
Qed.

Lemma parse_attrs_total (s : string) :
  (exists p, parse_attrs s = Ok p) \/ parse_attrs s = Err AssertionError.
Proof.
  unfold parse_attrs.
  destruct (chomp_attrs_total (String.length s) [] s (le_n _)) as [[p H]|H];
    rewrite H; eauto.
Qed.

(** ** Order on the attribute items *)

Lemma item_lt_trans (a b c : string * string) :
  item_lt a b = true -> item_lt b c = true -> item_lt a c = true.
Proof.
  destruct a as [n1 v1], b as [n2 v2], c as [n3 v3]. unfold item_lt. simpl.
  destruct (String.eqb_spec n1 n2) as [E12|N12]; intros H1;
    destruct (String.eqb_spec n2 n3) as [E23|N23]; intros H2;
    destruct (String.eqb_spec n1 n3) as [E13|N13]; subst;
    try congruence; eauto using str_ltb_trans.
  - pose proof (str_ltb_asym _ _ H1). congruence.
Qed.

Lemma item_lt_asym (a b : string * string) : item_lt a b = true -> item_lt b a = false.
Proof.
  destruct a as [n1 v1], b as [n2 v2]. unfold item_lt. simpl.
  rewrite (String.eqb_sym n2 n1).
  destruct (String.eqb n1 n2); apply str_ltb_asym.
Qed.

Lemma item_lt_total (a b : string * string) :
  a <> b -> item_lt a b = true \/ item_lt b a = true.
Proof.
  destruct a as [n1 v1], b as [n2 v2]. unfold item_lt. simpl. intros Hne.
  rewrite (String.eqb_sym n2 n1).
  destruct (String.eqb_spec n1 n2) as [E|N]; apply str_ltb_total; congruence.
Qed.

Lemma sorted_items (attrs : list (string * string)) :
  sorted item_ltb Ok attrs = Ok (sorted_pure item_lt (fun kv => kv) attrs).
Proof. exact (sorted_is_pure item_lt (fun kv => kv) attrs). Qed.

Lemma NoDup_fst {B : Type} (l : list (string * B)) : NoDup (map fst l) -> NoDup l.
Proof.
  induction l as [|x l IH]; simpl; intros H; [constructor|].
  apply NoDup_cons in H. destruct H as [Hx H].
  apply NoDup_cons. split; [|now apply IH].
  intros Hin. apply Hx. apply list_elem_of_In, in_map, list_elem_of_In, Hin.
Qed.

Lemma diag_sorted_names (l : list ((string * string) * (string * string))) :
  StronglySorted (key_lt item_lt) l ->
  Forall (fun p => fst p = snd p) l ->
  NoDup (map fst (map snd l)) ->
  StronglySorted (fun a b => String.ltb (fst a) (fst b) = true) (map snd l).
Proof.
  induction 1 as [|p l Hk IH Hall]; intros Hdiag Hnd; simpl; [constructor|].
  simpl in Hnd. apply NoDup_cons in Hnd. destruct Hnd as [Hx Hnd].
  apply Forall_cons in Hdiag. destruct Hdiag as [Hp1 Hdiag].
  constructor; [now apply IH|].
  apply List.Forall_forall. intros y Hy.
  apply in_map_iff in Hy. destruct Hy as (q & <- & Hq).
  rewrite List.Forall_forall in Hall, Hdiag.
  pose proof (Hall q Hq) as Hlt. unfold key_lt in Hlt.
  rewrite (Hdiag q Hq), Hp1 in Hlt. unfold item_lt in Hlt.
  destruct (String.eqb_spec (fst (snd p)) (fst (snd q))) as [E|N]; [|exact Hlt].
  exfalso. apply Hx. rewrite E. apply list_elem_of_In, in_map, in_map, Hq.
Qed.

(** The items come out of the sort in the increasing order of their
    names, whatever order they went in. *)
Lemma sorted_items_by_name (attrs : list (string * string)) :
  NoDup (map fst attrs) ->
  let items := sorted_pure item_lt (fun kv => kv) attrs in
  Permutation items attrs /\
  StronglySorted (fun a b => String.ltb (fst a) (fst b) = true) items.
Proof.
  intros Hnd items. subst items. unfold sorted_pure.
  set (kl := map (fun kv : string * string => (kv, kv)) attrs).
  assert (Hs : map snd kl = attrs).
  { unfold kl. rewrite map_map. simpl. apply map_id. }
  assert (Hf : map fst kl = attrs).
  { unfold kl. rewrite map_map. simpl. apply map_id. }
  assert (Hp : Permutation (map snd (isort item_lt kl)) attrs).
  { transitivity (map snd kl); [apply Permutation_map, isort_perm | now rewrite Hs]. }
  split; [exact Hp|].
  apply diag_sorted_names.
  - apply isort_sorted.
    + exact item_lt_trans.
    + exact item_lt_total.
    + rewrite Hf. now apply NoDup_fst.
  - apply List.Forall_forall. intros p Hin.
    apply (Permutation_in _ (isort_perm item_lt kl)) in Hin.
    unfold kl in Hin. apply in_map_iff in Hin. destruct Hin as (kv & <- & _).
    reflexivity.
  - now rewrite Hp.
Qed.

(** ** Printing *)

Lemma for_each_app {A} (a b : list A) (body : A -> M unit) (w : world) :
  for_each (a ++ b) body w = (for_each a body ;; for_each b body)%io w.
Proof.
  revert w. induction a as [|x a IH]; intros w; simpl.
  - reflexivity.
  - unfold bind. destruct (body x w) as [[[]|e] w']; [|reflexivity].
    rewrite IH. reflexivity.
Qed.

Lemma for_each_map {A B} (g : A -> B) (l : list A) (body : B -> M unit) :
  for_each (map g l) body = for_each l (fun x => body (g x)).
Proof.
  induction l as [|x l IH]; simpl; [reflexivity | now rewrite IH].
Qed.

Lemma print_all_stdout (lines : list string) (w : world) :
  print_all lines Stdout w
  = (Ok tt, World (fs w) (stdout w ++ lines) (stderr w) (faults w)).
Proof.
  revert w. unfold print_all.
  induction lines as [|l lines IH]; intros w; simpl.
  - unfold ret. rewrite app_nil_r. now destruct w.
  - unfold bind. simpl. rewrite IH. simpl. now rewrite <- app_assoc.
Qed.

(** ** prettify *)

Lemma match_start_attr_tag_line (indent tag : string) (sp : ascii) (rest : string) :
  all_chars is_space indent = true ->
  is_empty tag = false -> all_chars is_tag_char tag = true ->
  is_space sp = true ->
  match_start_attr_tag (indent +:+ "<" +:+ tag +:+ String sp rest)
  = Some (indent, tag, rest).
Proof.
  intros Hi Hne Ht Hsp. unfold match_start_attr_tag.
  rewrite (span_app is_space indent) by (try exact Hi; reflexivity).
  rewrite app_cons, app_nil_l. cbv beta iota.
  rewrite (span_app is_tag_char tag)
    by (try exact Ht; simpl; now apply space_not_tag_char).
  now rewrite Hne, Hsp.
Qed.

Lemma attr_text_ends (attrs : list (string * string)) (se : bool) (s : string) :
  attr_text attrs se s -> exists pre, s = pre +:+ String ">" EmptyString.
Proof.
  induction 1 as [ws se Hws | ws n v attrs se rest Hws Hne Hn Hv Ht IH].
  - destruct se; [exists (ws +:+ "/") | exists ws]; simpl;
      now rewrite ?string_app_assoc.
  - destruct IH as (pre & ->).
    exists (ws +:+ attr_source (n, v) +:+ pre). now rewrite !string_app_assoc.
Qed.

Lemma bind_ret_tt (m : M unit) (w : world) : (m ;; ret tt)%io w = m w.
Proof. unfold bind, ret. destruct (m w) as [[[]|e] w']; reflexivity. Qed.

Lemma bind_lift_ok {A B} (a : A) (f : A -> M B) (w : world) :
  bind (lift (Ok a)) f w = f a w.
Proof. reflexivity. Qed.

Lemma bind_ext {A B} (m : M A) (f g : A -> M B) (w : world) :
  (forall a w', f a w' = g a w') -> bind m f w = bind m g w.
Proof.
  intros H. unfold bind. destruct (m w) as [[a|e] w']; [apply H | reflexivity].
Qed.

Lemma bind_ok {A B} (m : M A) (f : A -> M B) (w w' : world) (a : A) :
  m w = (Ok a, w') -> bind m f w = f a w'.
Proof. intros H. unfold bind. now rewrite H. Qed.

Lemma bind_err {A B} (m : M A) (f : A -> M B) (w w' : world) (e : pyerr) :
  m w = (Err e, w') -> bind m f w = (Err e, w').
Proof. intros H. unfold bind. now rewrite H. Qed.

Lemma print_file (line dir fname : string) (w : world)
    (d : gmap string content) (ls : list string) :
  fs w !! dir = Some d -> d !! fname = Some (Text ls) ->
  print line (File dir fname) w
  = (Ok tt, set_fs (<[dir := <[fname := Text (ls ++ [line])]> d]> (fs w)) w).
Proof.
  intros Hd Hf. unfold print. rewrite Hd. do 3 f_equal.
  apply map_eq. intros k. rewrite lookup_partial_alter, lookup_insert.
  destruct (decide (fname = k)) as [->|]; [|reflexivity].
  now rewrite Hf.
Qed.

Lemma print_all_file (lines : list string) (dir fname : string) :
  forall (w : world) (d : gmap string content) (ls : list string),
    fs w !! dir = Some d -> d !! fname = Some (Text ls) ->
    exists w',
      print_all lines (File dir fname) w = (Ok tt, w') /\
      faults w' = faults w /\
      fs w' = <[dir := <[fname := Text (ls ++ lines)]> d]> (fs w).
Proof.
  unfold print_all. induction lines as [|l lines IH]; intros w d ls Hd Hf; simpl.
  - exists w. split; [reflexivity | split; [reflexivity|]].
    rewrite app_nil_r, (insert_id d) by exact Hf. now rewrite insert_id.
  - rewrite (bind_ok _ _ _ _ _ (print_file l dir fname w d ls Hd Hf)).
    destruct (IH (set_fs (<[dir := <[fname := Text (ls ++ [l])]> d]> (fs w)) w)
                (<[fname := Text (ls ++ [l])]> d) (ls ++ [l]))
      as (w' & Hrun & Hfl & Hfs).
    + simpl. apply lookup_insert_eq.
    + apply lookup_insert_eq.
    + exists w'. split; [exact Hrun | split; [exact Hfl|]]. rewrite Hfs. simpl.
      now rewrite !insert_insert_eq, <- app_assoc.
Qed.

(** Printing to an open file puts the lines at its end and leaves the
    standard output alone. *)
Lemma print_all_file_out (lines : list string) (dir fname : string) :
  forall (w : world) (d : gmap string content) (ls : list string),
    fs w !! dir = Some d -> d !! fname = Some (Text ls) ->
    exists w',
      print_all lines (File dir fname) w = (Ok tt, w') /\
      fs w' = <[dir := <[fname := Text (ls ++ lines)]> d]> (fs w) /\
      stdout w' = stdout w.
Proof.
  unfold print_all. induction lines as [|l lines IH]; intros w d ls Hd Hf; simpl.
  - exists w. split; [reflexivity | split; [|reflexivity]].
    rewrite app_nil_r, (insert_id d) by exact Hf. now rewrite insert_id.
  - rewrite (bind_ok _ _ _ _ _ (print_file l dir fname w d ls Hd Hf)).
    destruct (IH (set_fs (<[dir := <[fname := Text (ls ++ [l])]> d]> (fs w)) w)
                (<[fname := Text (ls ++ [l])]> d) (ls ++ [l]))
      as (w' & Hrun & Hfs & Hout).
    + simpl. apply lookup_insert_eq.
    + apply lookup_insert_eq.
    + exists w'. split; [exact Hrun | split; [|exact Hout]]. rewrite Hfs. simpl.
      now rewrite !insert_insert_eq, <- app_assoc.
Qed.

(** C8. A line that opens a tag and carries well-formed attributes with
    distinct names is printed as the open tag alone, then the attributes,
    one per line, two spaces deeper than the tag, each as the name, an
    equals sign and the quoted value, in the increasing order of their
    names whatever their order in the input, then a closing line, which
    for a self-ending tag is the explicit close of the tag.  These lines,
    and nothing else, are on the stream after the call: at the end of the
    standard output, or at the end of the open file. *)
Theorem prettify_line_splits_attributes
    (indent tag : string) (sp : ascii) (body trail : string)
    (attrs : list (string * string)) (self_ending : bool) (w : world) :
  all_chars is_space indent = true ->
  is_empty tag = false ->
  all_chars is_tag_char tag = true ->
  is_space sp = true ->
  attr_text attrs self_ending body ->
  NoDup (map fst attrs) ->
  all_chars is_space trail = true ->
  exists items,
    Permutation items attrs /\
    StronglySorted (fun a b => String.ltb (fst a) (fst b) = true) items /\
    prettify_line (indent +:+ "<" +:+ tag +:+ String sp (body +:+ trail)) Stdout w
    = (Ok tt,
       World (fs w)
             (stdout w ++ [indent +:+ "<" +:+ tag] ++ map (attr_line indent) items
              ++ [closing_line indent tag self_ending])
             (stderr w) (faults w)) /\
    (forall dir fname d old,
        fs w !! dir = Some d -> d !! fname = Some (Text old) ->
        exists w',
          prettify_line (indent +:+ "<" +:+ tag +:+ String sp (body +:+ trail))
            (File dir fname) w = (Ok tt, w') /\
          fs w' = <[dir := <[fname := Text (old ++ [indent +:+ "<" +:+ tag]
                                            ++ map (attr_line indent) items
                                            ++ [closing_line indent tag self_ending])]>
                             d]> (fs w) /\
          stdout w' = stdout w).
Proof.
  intros Hi Hne Ht Hsp Hbody Hnd Htrail.
  destruct (sorted_items_by_name attrs Hnd) as [Hperm Hsorted].
  exists (sorted_pure item_lt (fun kv => kv) attrs).
  split; [exact Hperm | split; [exact Hsorted|]].
  assert (Hrun : forall out_stream,
    prettify_line (indent +:+ "<" +:+ tag +:+ String sp (body +:+ trail)) out_stream w
    = print_all ([indent +:+ "<" +:+ tag]
                 ++ map (attr_line indent) (sorted_pure item_lt (fun kv => kv) attrs)
                 ++ [closing_line indent tag self_ending]) out_stream w).
  { intros out_stream. unfold prettify_line.
    rewrite (match_start_attr_tag_line indent tag sp (body +:+ trail) Hi Hne Ht Hsp).
    assert (Hr : rstrip (body +:+ trail) = body).
    { destruct (attr_text_ends _ _ _ Hbody) as (pre & ->).
      rewrite string_app_assoc, app_cons, app_nil_l.
      now apply rstrip_trailing. }
    rewrite Hr, (parse_attrs_complete attrs self_ending body Hbody Hnd).
    rewrite bind_lift_ok. unfold print_all. simpl app. simpl for_each.
    apply bind_ext. intros [] w1.
    rewrite sorted_items, bind_lift_ok, for_each_app, for_each_map.
    apply bind_ext. intros [] w2.
    simpl for_each. rewrite bind_ret_tt. unfold closing_line.
    destruct self_ending; reflexivity. }
  split.
  - rewrite Hrun. apply print_all_stdout.
  - intros dir fname d old Hd Hf. rewrite Hrun.
    destruct (print_all_file_out
                ([indent +:+ "<" +:+ tag]
                 ++ map (attr_line indent) (sorted_pure item_lt (fun kv => kv) attrs)
                 ++ [closing_line indent tag self_ending]) dir fname w d old Hd Hf)
      as (w' & Hp & Hfs & Hout).
    exists w'. split; [exact Hp | split; [exact Hfs | exact Hout]].
Qed.

Lemma prettify_line_splits_attributes_witness :
  (exists items,
     Permutation items [("b", "2"); ("a", "1")] /\
     StronglySorted (fun a b => String.ltb (fst a) (fst b) = true) items /\
     prettify_line foo_line Stdout quiet_world
     = (Ok tt,
        World (fs quiet_world)
              (stdout quiet_world ++ ["<foo"] ++ map (attr_line EmptyString) items
               ++ ["></foo>"])
              (stderr quiet_world) (faults quiet_world)) /\
     (forall dir fname d old,
         fs quiet_world !! dir = Some d -> d !! fname = Some (Text old) ->
         exists w',
           prettify_line foo_line (File dir fname) quiet_world = (Ok tt, w') /\
           fs w' = <[dir := <[fname := Text (old ++ ["<foo"]
                                             ++ map (attr_line EmptyString) items
                                             ++ ["></foo>"])]> d]>
                     (fs quiet_world) /\
           stdout w' = stdout quiet_world)) /\
  stdout (snd (prettify_line foo_line Stdout quiet_world))
  = ["<foo"; "  a=" +:+ quote +:+ "1" +:+ quote;
     "  b=" +:+ quote +:+ "2" +:+ quote; "></foo>"].
Proof.
  split; [|vm_compute; reflexivity].
  apply (prettify_line_splits_attributes EmptyString "foo" " " foo_attrs_text
           EmptyString [("b", "2"); ("a", "1")] true quiet_world);
    try reflexivity.
  - apply (attr_text_pair EmptyString "b" "2" [("a", "1")] true
             (" a=" +:+ quote +:+ "1" +:+ quote +:+ "/>")); try reflexivity.
    apply (attr_text_pair " " "a" "1" [] true "/>"); try reflexivity.
    apply (attr_text_end EmptyString true). reflexivity.
  - apply (bool_decide_unpack _). vm_compute. reflexivity.
Defined.

Example prettify_foo :
  prettify_line foo_line Stdout quiet_world
  = (Ok tt,
     World ∅ ["<foo"; "  a=" +:+ quote +:+ "1" +:+ quote;
              "  b=" +:+ quote +:+ "2" +:+ quote; "></foo>"] [] []).
Proof. vm_compute. reflexivity. Qed.

(** C9. When a line matches the opening-tag pattern and what follows the
    tag name is not attribute text with distinct names (it does not read
    as well-formed pairs up to an ending marker, or some name comes
    twice), the assertion fails and nothing has been printed for the
    tag: the world is as it was. *)
Theorem prettify_line_rejects_malformed
    (line indent tag after : string) (out_stream : stream) (w : world) :
  match_start_attr_tag line = Some (indent, tag, after) ->
  (forall attrs self_ending,
      attr_text attrs self_ending (rstrip after) -> ~ NoDup (map fst attrs)) ->
  prettify_line line out_stream w = (Err AssertionError, w).
Proof.
  intros Hm Hbad. unfold prettify_line. rewrite Hm.
  destruct (parse_attrs_total (rstrip after)) as [[[attrs se] Hp]|Hp].
  - exfalso. destruct (parse_attrs_inv _ _ _ Hp (rstrip_idem after)) as [Ht Hnd].
    exact (Hbad attrs se Ht Hnd).
  - unfold bind, lift. rewrite Hp. reflexivity.
Qed.

Lemma prettify_line_rejects_malformed_witness :
  prettify_line foo_twice_line Stdout quiet_world = (Err AssertionError, quiet_world) /\
  prettify_line foo_stray_quote_line Stdout quiet_world
  = (Err AssertionError, quiet_world).
Proof.
  split.
  - apply (prettify_line_rejects_malformed foo_twice_line EmptyString "foo"
             (String.substring 5 20 foo_twice_line)); [reflexivity|].
    intros attrs se Ht Hnd.
    pose proof (parse_attrs_complete _ _ _ Ht Hnd) as H.
    vm_compute in H. discriminate.
  - apply (prettify_line_rejects_malformed foo_stray_quote_line EmptyString "foo"
             (String.substring 5 20 foo_stray_quote_line)); [reflexivity|].
    intros attrs se Ht Hnd.
    pose proof (parse_attrs_complete _ _ _ Ht Hnd) as H.
    vm_compute in H. discriminate.
Defined.

(** ** The directory swap *)

Example rewrite_calm :
  let r := ImagesetDatabase_rewrite sample_xml_text one_db calm_disk in
  fst r = Ok tt /\
  fs (snd r)
  = {[ "imagesets" :=
         {[ "sky_visible.xml" :=
              Text ["<?xml version='1.0' encoding='UTF-8'?>";
                    "<Folder"; "  Name=" +:+ quote +:+ "sky_visible" +:+ quote; ">";
                    "  <ImageSet";
                    "    Name=" +:+ quote +:+ "Andromeda" +:+ quote;
                    "    Url=" +:+ quote +:+ "http://example.org/m31" +:+ quote;
                    "  ></ImageSet>";
                    "</Folder>"] ]} ]}.
Proof. vm_compute. split; reflexivity. Qed.

Example rewrite_second_rename_fails :
  let r := ImagesetDatabase_rewrite sample_xml_text one_db second_rename_fails in
  fst r = Err OSError /\
  fs (snd r) !! "imagesets" = None /\
  fs (snd r) !! "imagesets.old" = Some old_catalog.
Proof. vm_compute. repeat split; reflexivity. Qed.

Lemma prettify_line_pure (line : string) (out_stream : stream) (w : world) :
  prettify_line line out_stream w
  = match pretty_line line with
    | Ok ls => print_all ls out_stream w
    | Err e => (Err e, w)
    end.
Proof.
  unfold prettify_line, pretty_line.
  destruct (match_start_attr_tag line) as [[[indent tag] after]|].
  - destruct (parse_attrs (rstrip after)) as [[attrs se]|e]; [|reflexivity].
    rewrite bind_lift_ok. simpl rbind. simpl fst. simpl snd.
    rewrite sorted_items. simpl rbind.
    unfold print_all. simpl app. simpl for_each.
    apply bind_ext. intros [] w1.
    rewrite bind_lift_ok, for_each_app, for_each_map.
    apply bind_ext. intros [] w2.
    simpl for_each. rewrite bind_ret_tt. unfold closing_line.
    destruct se; reflexivity.
  - unfold print_all. simpl. now rewrite bind_ret_tt.
Qed.

Lemma print_all_app (a b : list string) (out_stream : stream) (w : world) :
  print_all (a ++ b) out_stream w
  = (print_all a out_stream ;; print_all b out_stream)%io w.
Proof. apply for_each_app. Qed.


(** The loop of [prettify] prints the lines of [pretty_lines], then stops
    with its failure, if there is one. *)
Lemma prettify_loop_pure (lines : list string) (out_stream : stream) (w : world) :
  for_each lines (fun line => prettify_line line out_stream) w
  = (print_all (fst (pretty_lines lines)) out_stream ;;
     after_prints (snd (pretty_lines lines)))%io w.
Proof.
  revert w. induction lines as [|l lines IH]; intros w; simpl.
  - reflexivity.
  - unfold bind at 1. rewrite prettify_line_pure.
    destruct (pretty_line l) as [ls|e]; [|reflexivity].
    destruct (pretty_lines lines) as [out err] eqn:Hp. simpl fst in *. simpl snd in *.
    unfold bind. rewrite print_all_app. unfold bind.
    destruct (print_all ls out_stream w) as [[[]|e] w1]; [|reflexivity].
    rewrite IH. reflexivity.
Qed.

(** ** File-system calls *)

Lemma io_fault_cases (w : world) :
  (exists w', io_fault w = (Ok tt, w') /\ fs w' = fs w) \/
  (exists w', io_fault w = (Err OSError, w') /\ fs w' = fs w).
Proof.
  unfold io_fault. destruct (faults w) as [|[] fl]; simpl; eauto.
Qed.

Lemma mkdir_cases (p : string) (w : world) :
  (exists w', mkdir p w = (Ok tt, w') /\ fs w !! p = None /\
              fs w' = <[p := ∅]> (fs w)) \/
  (exists w', mkdir p w = (Err OSError, w') /\ fs w' = fs w).
Proof.
  unfold mkdir, bind.
  destruct (io_fault_cases w) as [(w1 & -> & E)|(w1 & -> & E)]; [|eauto].
  rewrite E. destruct (fs w !! p) eqn:Hp; [right; eauto|].
  left. eexists. repeat split; try (simpl; now rewrite E).
Qed.

Lemma rename_cases (src dst : string) (w : world) :
  (exists w' d, rename src dst w = (Ok tt, w') /\ fs w !! src = Some d /\
                fs w' = <[dst := d]> (delete src (fs w))) \/
  (exists w', rename src dst w = (Err OSError, w') /\ fs w' = fs w).
Proof.
  unfold rename, bind.
  destruct (io_fault_cases w) as [(w1 & -> & E)|(w1 & -> & E)]; [|eauto].
  rewrite E. destruct (fs w !! src) as [d|] eqn:Hs; [|right; eauto].
  destruct (fs w !! dst) as [d'|] eqn:Hd.
  - destruct (bool_decide (d' = ∅)); [|right; eauto].
    left. eexists _, d. repeat split; try (simpl; now rewrite E).
  - left. eexists _, d. repeat split; try (simpl; now rewrite E).
Qed.

Lemma rmtree_cases (p : string) (w : world) :
  (exists w', rmtree p w = (Ok tt, w') /\ fs w' = delete p (fs w)) \/
  (exists w', rmtree p w = (Err OSError, w') /\ fs w' = fs w).
Proof.
  unfold rmtree, bind.
  destruct (io_fault_cases w) as [(w1 & -> & E)|(w1 & -> & E)]; [|eauto].
  rewrite E. destruct (fs w !! p) eqn:Hp; [|right; eauto].
  left. eexists. split; [reflexivity|]. simpl. now rewrite ?E.
Qed.

Lemma open_wt_cases (dir fname : string) (w : world) :
  (exists w' d, open_wt dir fname w = (Ok (File dir fname), w') /\
                plain_name fname = true /\
                fs w !! dir = Some d /\
                fs w' = <[dir := <[fname := Text []]> d]> (fs w)) \/
  (exists e w', open_wt dir fname w = (Err e, w') /\ fs w' = fs w).
Proof.
  unfold open_wt. destruct (has_char "000" fname); [right; eexists _, _; eauto|].
  unfold bind.
  destruct (io_fault_cases w) as [(w1 & -> & E)|(w1 & -> & E)]; [|eauto].
  destruct (plain_name fname) eqn:Hn; [|right; eauto].
  rewrite E. destruct (fs w !! dir) as [d|] eqn:Hd; [|right; eauto].
  left. eexists _, d. repeat split; try (simpl; now rewrite E).
Qed.

(** *** Names of one component *)


Lemma split_slash_plain (s : string) :
  forall cur, has_char "/" s = false -> split_slash_from cur s = [cur +:+ s].
Proof.
  induction s as [|c s IH]; intros cur H; simpl.
  - now rewrite string_app_nil_r.
  - simpl in H. apply orb_false_iff in H. destruct H as [Hc Hs].
    rewrite Hc, (IH _ Hs), string_app_assoc, app_cons, app_nil_l. reflexivity.
Qed.

Lemma plain_not_absolute (s : string) : has_char "/" s = false -> is_absolute s = false.
Proof.
  destruct s as [|c s]; [reflexivity|]. simpl. intros H.
  apply orb_false_iff in H. destruct H as [Hc _].
  split_char c; try reflexivity. discriminate.
Qed.

(** A name of one component is a file of the directory. *)
Lemma lands_plain (f : gmap string (gmap string content)) (dir name : string) :
  plain_name name = true -> lands f dir name = Ok (dir, name, false).
Proof.
  unfold plain_name. intros H.
  repeat (apply andb_true_iff in H; destruct H as [H ?]).
  apply negb_true_iff in H.
  repeat match goal with Hx : negb _ = true |- _ => apply negb_true_iff in Hx end.
  unfold lands, components.
  rewrite (plain_not_absolute name H), (split_slash_plain name EmptyString H).
  rewrite app_nil_l. simpl List.filter.
  match goal with Hx : is_empty name = false |- _ => rewrite Hx end.
  match goal with Hx : String.eqb name "." = false |- _ => rewrite Hx end.
  simpl negb. simpl andb. cbv iota. simpl walk.
  match goal with Hx : String.eqb name ".." = false |- _ => rewrite Hx end.
  match goal with Hx : Nat.leb _ _ = true |- _ => rewrite Hx end.
  reflexivity.
Qed.

Lemma plain_no_nul (name : string) : plain_name name = true -> has_char "000" name = false.
Proof.
  unfold plain_name. intros H.
  repeat (apply andb_true_iff in H; destruct H as [H ?]).
  repeat match goal with Hx : negb _ = true |- _ => apply negb_true_iff in Hx end.
  assumption.
Qed.

(** The write of a file whose name is one component. *)
Lemma write_multi_yaml_plain (dir name : string) (docs : list (gmap string pyval))
    (w : world) :
  plain_name name = true ->
  write_multi_yaml dir name docs w
  = (io_fault ;;
     (fun w => match fs w !! dir with
               | None => (Err OSError, w)
               | Some d => (Ok tt, set_fs (<[dir := <[name := Docs docs]> d]> (fs w)) w)
               end) ;;
     io_fault)%io w.
Proof.
  intros Hn. unfold write_multi_yaml. rewrite (plain_no_nul name Hn).
  apply bind_ext. intros [] w1. unfold bind.
  rewrite (lands_plain _ dir name Hn). unfold put_file.
  destruct (fs w1 !! dir); reflexivity.
Qed.

(** A write, wherever it lands, removes no directory. *)
Lemma write_multi_yaml_keeps (dir name : string) (docs : list (gmap string pyval))
    (w : world) (r : result unit) (w' : world) :
  write_multi_yaml dir name docs w = (r, w') ->
  forall p, is_Some (fs w !! p) -> is_Some (fs w' !! p).
Proof.
  unfold write_multi_yaml.
  destruct (has_char "000" name).
  { unfold raise. intros H. inversion H. subst. auto. }
  unfold bind.
  destruct (io_fault_cases w) as [(w1 & -> & E1)|(w1 & -> & E1)].
  2:{ intros H. inversion H. subst. intros p. now rewrite E1. }
  destruct (lands (fs w1) dir name) as [[[d n] sure]|e].
  2:{ intros H. inversion H. subst. intros p. now rewrite E1. }
  destruct (put_file (fs w1) d n sure (Docs docs)) as [f|] eqn:Hput.
  2:{ intros H. inversion H. subst. intros p. now rewrite E1. }
  assert (Hf : forall p, is_Some (fs w !! p) -> is_Some (f !! p)).
  { intros p Hp. rewrite <- E1 in Hp. unfold put_file in Hput.
    destruct (fs w1 !! d) as [files|] eqn:Hd.
    - inversion Hput. subst f. destruct (decide (d = p)) as [->|Hne].
      + rewrite lookup_insert_eq. eauto.
      + now rewrite lookup_insert_ne.
    - destruct sure; [|discriminate]. inversion Hput. subst f.
      destruct (decide (d = p)) as [->|Hne].
      + rewrite lookup_insert_eq. eauto.
      + now rewrite lookup_insert_ne. }
  destruct (io_fault_cases (set_fs f w1)) as [(w2 & -> & E2)|(w2 & -> & E2)];
    intros H; inversion H; subst; intros p Hp; rewrite E2; simpl; auto.
Qed.


(** ** Writing the shards *)

Section WriteShards.
Variable folder_xml_text : string -> list ImageSet -> string.

Lemma sorted_children (imgsets : list ImageSet) :
  sorted str_ltb (fun s => Ok (url s)) imgsets = Ok (shard_children imgsets).
Proof. exact (sorted_is_pure String.ltb url imgsets). Qed.

(** Writing one shard touches the temporary directory only; when it
    succeeds, the directory has gained the shard's complete file. *)
Lemma write_shard_spec (tempdir : string) (shard : string * list ImageSet)
    (w : world) (d : gmap string content) (r : result unit) (w' : world) :
  fs w !! tempdir = Some d ->
  write_imageset_shard folder_xml_text tempdir shard w = (r, w') ->
  (forall p, p <> tempdir -> fs w' !! p = fs w !! p) /\
  match r with
  | Ok _ =>
      fs w' !! tempdir
      = Some (<[fst (shard_file folder_xml_text shard)
                := snd (shard_file folder_xml_text shard)]> d) /\
      snd (shard_pretty folder_xml_text shard) = None
  | Err _ => is_Some (fs w' !! tempdir)
  end.
Proof.
  intros Hd. destruct shard as [key imgsets].
  unfold write_imageset_shard, shard_file, shard_pretty. simpl fst. simpl snd.
  rewrite sorted_children, bind_lift_ok.
  destruct (open_wt_cases tempdir (key +:+ ".xml") w)
    as [(w1 & d1 & Ho & _ & Hd1 & Hfs1)|(e1 & w1 & Ho & Hfs1)].
  2:{ rewrite (bind_err _ _ _ _ _ Ho). intros H. inversion H. subst.
      rewrite Hfs1. split; [reflexivity | now rewrite Hd]. }
  rewrite Hd in Hd1. inversion Hd1. subst d1. clear Hd1.
  rewrite (bind_ok _ _ _ _ _ Ho). unfold prettify.
  set (text := folder_xml_text key (shard_children imgsets)).
  unfold bind at 1. rewrite prettify_loop_pure.
  destruct (pretty_lines (splitlines text)) as [out err]. simpl fst. simpl snd.
  destruct (print_all_file out tempdir (key +:+ ".xml") w1
              (<[key +:+ ".xml" := Text []]> d) [])
    as (w2 & Hp & _ & Hfs2).
  { rewrite Hfs1. apply lookup_insert_eq. }
  { apply lookup_insert_eq. }
  rewrite (bind_ok _ _ _ _ _ Hp).
  assert (Hfs2' : fs w2 = <[tempdir := <[key +:+ ".xml" := Text out]> d]> (fs w)).
  { rewrite Hfs2, Hfs1. simpl. now rewrite !insert_insert_eq. }
  destruct err as [e|]; simpl after_prints.
  - unfold raise. intros H. inversion H. subst. rewrite Hfs2'. split.
    + intros p Hp'. now rewrite lookup_insert_ne.
    + rewrite lookup_insert_eq. eauto.
  - unfold ret, close.
    destruct (io_fault_cases w2) as [(w3 & -> & E)|(w3 & -> & E)];
      intros H; inversion H; subst; rewrite E, Hfs2'; (split;
        [ intros p Hp'; now rewrite lookup_insert_ne
        | rewrite lookup_insert_eq; eauto ]).
Qed.

Lemma write_shards_spec (tempdir : string) (by_key : list (string * list ImageSet)) :
  forall (w : world) (d : gmap string content) (r : result unit) (w' : world),
    fs w !! tempdir = Some d ->
    for_each by_key (write_imageset_shard folder_xml_text tempdir) w = (r, w') ->
    (forall p, p <> tempdir -> fs w' !! p = fs w !! p) /\
    match r with
    | Ok _ =>
        fs w' !! tempdir
        = Some (fold_left
                  (fun d shard => <[fst (shard_file folder_xml_text shard)
                                    := snd (shard_file folder_xml_text shard)]> d)
                  by_key d) /\
        Forall (fun shard => snd (shard_pretty folder_xml_text shard) = None) by_key
    | Err _ => is_Some (fs w' !! tempdir)
    end.
Proof.
  induction by_key as [|shard by_key IH]; intros w d r w' Hd; simpl.
  - unfold ret. intros H. inversion H. subst. split; [reflexivity|].
    split; [exact Hd | constructor].
  - unfold bind.
    destruct (write_imageset_shard folder_xml_text tempdir shard w) as [r1 w1] eqn:H1.
    destruct (write_shard_spec tempdir shard w d r1 w1 Hd H1) as [Hother Hr1].
    destruct r1 as [[]|e].
    + destruct Hr1 as [Ht Hnone]. intros H2.
      destruct (IH w1 _ r w' Ht H2) as [Hother2 Hr2]. split.
      * intros p Hp. rewrite Hother2, Hother by exact Hp. reflexivity.
      * destruct r as [[]|e]; [|exact Hr2].
        destruct Hr2 as [Hfold Hall]. split; [exact Hfold | now constructor].
    + intros H. inversion H. subst. split; [exact Hother | exact Hr1].
Qed.
End WriteShards.

(** ** The sibling paths *)

Lemma app_nonempty_neq (a b : string) : is_empty b = false -> a <> a +:+ b.
Proof.
  intros Hb E. apply (f_equal String.length) in E. rewrite length_app in E.
  destruct b; [discriminate | simpl in E; lia].
Qed.

Lemma new_neq_old (a : string) : a +:+ ".new" <> a +:+ ".old".
Proof. intros E. apply (inj (String.app a)) in E. discriminate. Qed.

(** ** The rewrite of the imageset catalog *)

(** C2, as stated, fails: when the second rename fails, the rewrite ends
    with an error and nothing is left at the path of the catalog. *)
Lemma rewrite_not_all_or_nothing :
  ~ all_or_nothing sample_xml_text one_db second_rename_fails.
Proof.
  unfold all_or_nothing.
  assert (H : ImagesetDatabase_rewrite sample_xml_text one_db second_rename_fails
              = (Err OSError,
                 snd (ImagesetDatabase_rewrite sample_xml_text one_db
                        second_rename_fails)))
    by (vm_compute; reflexivity).
  rewrite H. vm_compute. discriminate.
Qed.

(** Every way the rewrite can end, by the call that failed. *)
Lemma rewrite_outcomes
    (folder_xml_text : string -> list ImageSet -> string)
    (self : ImagesetDatabase) (w : world) :
  let old := fs w !! db_dir self in
  let new := shard_files folder_xml_text (values (by_url self)) in
  let r := ImagesetDatabase_rewrite folder_xml_text self w in
  match fst r with
  | Ok _ => fs (snd r) !! db_dir self = Some new
  | Err _ =>
      fs (snd r) !! db_dir self = old \/
      (fs (snd r) !! db_dir self = None /\
       fs (snd r) !! (db_dir self +:+ ".old") = old /\ is_Some old) \/
      fs (snd r) !! db_dir self = Some new
  end.
Proof.
  intros old new r. subst old new r. unfold ImagesetDatabase_rewrite.
  set (D := db_dir self). set (T := D +:+ ".new"). set (O := D +:+ ".old").
  assert (HDT : D <> T) by (now apply app_nonempty_neq).
  assert (HDO : D <> O) by (now apply app_nonempty_neq).
  assert (HTO : T <> O) by apply new_neq_old.
  destruct (mkdir_cases T w) as [(w1 & Hm & Hfree & Hfs1)|(w1 & Hm & Hfs1)].
  2:{ rewrite (bind_err _ _ _ _ _ Hm). simpl. left. now rewrite Hfs1. }
  rewrite (bind_ok _ _ _ _ _ Hm).
  assert (H1D : fs w1 !! D = fs w !! D) by (rewrite Hfs1; now apply lookup_insert_ne).
  destruct (for_each (imagesets_by_key (values (by_url self)))
              (write_imageset_shard folder_xml_text T) w1) as [r2 w2] eqn:Hw.
  destruct (write_shards_spec folder_xml_text T
              (imagesets_by_key (values (by_url self))) w1 ∅ r2 w2) as [Hother Hr2];
    [rewrite Hfs1; apply lookup_insert_eq | exact Hw |].
  assert (H2D : fs w2 !! D = fs w !! D) by (rewrite Hother; auto).
  destruct r2 as [[]|e].
  2:{ rewrite (bind_err _ _ _ _ _ Hw). simpl. now left. }
  rewrite (bind_ok _ _ _ _ _ Hw). destruct Hr2 as [H2T _].
  fold (shard_files folder_xml_text (values (by_url self))) in H2T.
  set (new := shard_files folder_xml_text (values (by_url self))) in *.
  destruct (rename_cases D O w2) as [(w3 & dold & Hr & Hsrc & Hfs3)|(w3 & Hr & Hfs3)].
  2:{ rewrite (bind_err _ _ _ _ _ Hr). simpl. left. now rewrite Hfs3. }
  rewrite (bind_ok _ _ _ _ _ Hr).
  assert (H3D : fs w3 !! D = None).
  { rewrite Hfs3, lookup_insert_ne, lookup_delete_eq; auto. }
  assert (H3O : fs w3 !! O = fs w !! D).
  { rewrite Hfs3, lookup_insert_eq, <- H2D. now symmetry. }
  assert (H3T : fs w3 !! T = Some new).
  { rewrite Hfs3, lookup_insert_ne, lookup_delete_ne; auto. }
  destruct (rename_cases T D w3) as [(w4 & dt & Hr' & Hsrc' & Hfs4)|(w4 & Hr' & Hfs4)].
  2:{ rewrite (bind_err _ _ _ _ _ Hr'). simpl. right. left. rewrite Hfs4.
      repeat split; try assumption. rewrite <- H2D, Hsrc. eauto. }
  rewrite (bind_ok _ _ _ _ _ Hr').
  rewrite H3T in Hsrc'. inversion Hsrc'. subst dt.
  assert (H4D : fs w4 !! D = Some new) by (rewrite Hfs4; apply lookup_insert_eq).
  destruct (rmtree_cases O w4) as [(w5 & Hrm & Hfs5)|(w5 & Hrm & Hfs5)];
    rewrite Hrm; simpl.
  - rewrite Hfs5, lookup_delete_ne; auto.
  - right. right. now rewrite Hfs5.
Qed.

(** C2, amended. The rewrite either succeeds, and the catalog directory is
    then exactly the new shard files; or it surfaces an error, and then the
    catalog is not lost: the old directory is untouched at its path, or it
    is untouched at the sibling path ".old" with nothing at its own path
    (the second rename failed), or the new shard files are already in
    place (the removal of ".old" failed). *)
Theorem rewrite_swap_outcomes
    (folder_xml_text : string -> list ImageSet -> string)
    (self : ImagesetDatabase) (w : world) (r : result unit) (w' : world) :
  ImagesetDatabase_rewrite folder_xml_text self w = (r, w') ->
  let old := fs w !! db_dir self in
  let new := shard_files folder_xml_text (values (by_url self)) in
  match r with
  | Ok _ => fs w' !! db_dir self = Some new
  | Err _ =>
      fs w' !! db_dir self = old \/
      (fs w' !! db_dir self = None /\
       fs w' !! (db_dir self +:+ ".old") = old /\ is_Some old) \/
      fs w' !! db_dir self = Some new
  end.
Proof.
  intros Hrun old new. subst old new.
  pose proof (rewrite_outcomes folder_xml_text self w) as Ho.
  cbv zeta in Ho. rewrite Hrun in Ho. exact Ho.
Qed.

Lemma rewrite_swap_outcomes_witness :
  fs after_failed_swap !! db_dir one_db = fs second_rename_fails !! db_dir one_db \/
  (fs after_failed_swap !! db_dir one_db = None /\
   fs after_failed_swap !! (db_dir one_db +:+ ".old")
   = fs second_rename_fails !! db_dir one_db /\
   is_Some (fs second_rename_fails !! db_dir one_db)) \/
  fs after_failed_swap !! db_dir one_db
  = Some (shard_files sample_xml_text (values (by_url one_db))).
Proof.
  apply (rewrite_swap_outcomes sample_xml_text one_db second_rename_fails
           (Err OSError) after_failed_swap).
  vm_compute. reflexivity.
Defined.

(** ** Grouping by key *)

Section Grouping.
Context {A : Type}.
Variable key : A -> string.

Lemma group_get_step (k k' : string) (x : A) (d : list (string * list A)) :
  group_get k' (setdefault_append k x d)
  = if String.eqb k k' then group_get k' d ++ [x] else group_get k' d.
Proof.
  unfold group_get. induction d as [|[k0 g] d IH]; simpl.
  - destruct (String.eqb k k'); reflexivity.
  - destruct (String.eqb_spec k0 k) as [->|Hne]; simpl.
    + destruct (String.eqb k k'); reflexivity.
    + destruct (String.eqb_spec k0 k') as [->|Hne'].
      * destruct (String.eqb_spec k k'); [congruence | reflexivity].
      * exact IH.
Qed.

Lemma keys_step (k : string) (x : A) (d : list (string * list A)) :
  map fst (setdefault_append k x d)
  = if existsb (fun kv => String.eqb (fst kv) k) d then map fst d
    else map fst d ++ [k].
Proof.
  induction d as [|[k0 g] d IH]; simpl; [reflexivity|].
  destruct (String.eqb k0 k); simpl; [reflexivity|].
  rewrite IH. now destruct (existsb _ d).
Qed.

Lemma NoDup_keys_step (k : string) (x : A) (d : list (string * list A)) :
  NoDup (map fst d) -> NoDup (map fst (setdefault_append k x d)).
Proof.
  intros Hnd. rewrite keys_step.
  destruct (existsb (fun kv => String.eqb (fst kv) k) d) eqn:He; [exact Hnd|].
  apply NoDup_app. repeat split; [exact Hnd | | apply NoDup_singleton].
  intros y Hy Hy'. apply list_elem_of_In in Hy. apply list_elem_of_In in Hy'.
  destruct Hy' as [<-|[]]. apply in_map_iff in Hy. destruct Hy as (kv & E & Hin).
  assert (Ht : existsb (fun kv => String.eqb (fst kv) k) d = true).
  { apply existsb_exists. exists kv. split; [exact Hin | now apply String.eqb_eq]. }
  congruence.
Qed.

Lemma nonempty_step (k : string) (x : A) (d : list (string * list A)) :
  Forall (fun kv => snd kv <> []) d ->
  Forall (fun kv => snd kv <> []) (setdefault_append k x d).
Proof.
  induction d as [|[k0 g] d IH]; simpl; intros H.
  - constructor; [discriminate | constructor].
  - apply Forall_cons in H. destruct H as [H0 H].
    destruct (String.eqb k0 k); constructor; simpl; auto.
    destruct g; discriminate.
Qed.

Lemma group_fold (l : list A) :
  forall (d : list (string * list A)),
    NoDup (map fst d) -> Forall (fun kv => snd kv <> []) d ->
    let d' := fold_left (group_step key) l d in
    NoDup (map fst d') /\ Forall (fun kv => snd kv <> []) d' /\
    forall k, group_get k d'
              = group_get k d ++ List.filter (fun x => String.eqb (key x) k) l.
Proof.
  induction l as [|x l IH]; intros d Hnd Hne; simpl.
  - repeat split; try assumption. intros k. now rewrite app_nil_r.
  - destruct (IH (group_step key d x)) as (Hnd' & Hne' & Hget).
    + now apply NoDup_keys_step.
    + now apply nonempty_step.
    + repeat split; try assumption. intros k. rewrite Hget.
      unfold group_step. rewrite group_get_step.
      destruct (String.eqb (key x) k); [now rewrite <- app_assoc | reflexivity].
Qed.

Lemma group_get_elem (k : string) (g : list A) (d : list (string * list A)) :
  NoDup (map fst d) -> In (k, g) d -> group_get k d = g.
Proof.
  unfold group_get. induction d as [|[k0 g0] d IH]; simpl; intros Hnd Hin; [destruct Hin|].
  apply NoDup_cons in Hnd. destruct Hnd as [Hk Hnd].
  destruct Hin as [E|Hin].
  - inversion E. subst. now rewrite String.eqb_refl.
  - destruct (String.eqb_spec k0 k) as [->|Hne]; [|now apply IH].
    exfalso. apply Hk. apply list_elem_of_In.
    change k with (fst (k, g)). now apply in_map.
Qed.

Lemma group_get_in (k : string) (d : list (string * list A)) :
  group_get k d <> [] -> In (k, group_get k d) d.
Proof.
  unfold group_get.
  destruct (find (fun kv => String.eqb (fst kv) k) d) as [[k0 g]|] eqn:Hf;
    [|congruence].
  intros _. apply find_some in Hf. destruct Hf as [Hin He].
  apply String.eqb_eq in He. simpl in *. now subst.
Qed.
End Grouping.

Lemma app_inj_r (a b s : string) : a +:+ s = b +:+ s -> a = b.
Proof.
  revert b. induction a as [|c a IH]; intros [|c' b] E.
  - reflexivity.
  - exfalso. apply (f_equal String.length) in E.
    rewrite app_nil_l, app_cons in E. simpl in E. rewrite length_app in E. lia.
  - exfalso. apply (f_equal String.length) in E.
    rewrite app_nil_l, app_cons in E. simpl in E. rewrite length_app in E. lia.
  - rewrite !app_cons in E. inversion E. f_equal. now apply IH.
Qed.

(** ** The children of a shard *)







Lemma NoDup_map_inj {A B} (h : A -> B) (l : list A) :
  (forall a b, h a = h b -> a = b) -> NoDup l -> NoDup (map h l).
Proof.
  intros Hinj. induction l as [|x l IH]; simpl; intros Hnd; [constructor|].
  apply NoDup_cons in Hnd. destruct Hnd as [Hx Hnd].
  apply NoDup_cons. split; [|now apply IH].
  intros Hin. apply Hx. apply list_elem_of_In. apply list_elem_of_In in Hin.
  apply in_map_iff in Hin. destruct Hin as (y & E & Hy).
  apply Hinj in E. now subst.
Qed.

Lemma imagesets_by_key_groups (l : list ImageSet) :
  NoDup (map fst (imagesets_by_key l)) /\
  Forall (fun kv => snd kv <> []) (imagesets_by_key l) /\
  forall k, group_get k (imagesets_by_key l)
            = List.filter (fun x => String.eqb (imageset_key x) k) l.
Proof.
  destruct (group_fold imageset_key l []) as (Hnd & Hne & Hget);
    [constructor | constructor |].
  exact (conj Hnd (conj Hne Hget)).
Qed.



Section ShardFilesFacts.
Variable folder_xml_text : string -> list ImageSet -> string.

Lemma shard_file_sorted (shard : string * list ImageSet) :
  shard_file folder_xml_text shard
  = file_of_sorted folder_xml_text (shard_sorted shard).
Proof. reflexivity. Qed.

Lemma fold_insert_list_to_map {B} (F : B -> string * content) (L : list B) :
  forall d0 : gmap string content,
    fold_left (fun d s => <[fst (F s) := snd (F s)]> d) L d0
    = foldr (fun p d => <[fst p := snd p]> d) d0 (rev (map F L)).
Proof.
  induction L as [|s L IH]; intros d0; simpl; [reflexivity|].
  rewrite IH, foldr_app. reflexivity.
Qed.


End ShardFilesFacts.

(** ** A run without faults *)

Lemma io_fault_quiet (w : world) : faults w = [] -> io_fault w = (Ok tt, w).
Proof. intros H. unfold io_fault. now rewrite H. Qed.

Lemma mkdir_quiet (p : string) (w : world) :
  faults w = [] -> fs w !! p = None ->
  mkdir p w = (Ok tt, set_fs (<[p := ∅]> (fs w)) w).
Proof.
  intros Hq Hp. unfold mkdir. rewrite (bind_ok _ _ _ _ _ (io_fault_quiet w Hq)).
  now rewrite Hp.
Qed.



Section QuietWrites.
Variable folder_xml_text : string -> list ImageSet -> string.



End QuietWrites.




(** ** The place database *)

Example sortkey_place_n :
  sortkey place_n = Ok [VStr "x"; VStr "b"; VStr "n"] /\
  spec_sortkey place_n = Ok [VStr "x"; VStr "n"] /\
  whole_url_sortkey place_n = Ok [VStr "x"; VStr "b"; VStr "n"].
Proof. vm_compute. repeat split; reflexivity. Qed.

(** C1, as stated, fails: with the same foreground url, the rewrite puts
    the place named "z" in front of the place named "n", by their
    image-set urls, where the key of the specification orders them by
    name. *)
Lemma sort_order_differs_from_spec_key :
  place_key place_n = place_key place_z /\
  sorted tuple_ltb sortkey [place_n; place_z] = Ok [place_z; place_n] /\
  sorted tuple_ltb spec_sortkey [place_n; place_z] = Ok [place_n; place_z] /\
  sorted tuple_ltb sortkey [place_n; place_z]
  <> sorted tuple_ltb spec_sortkey [place_n; place_z].
Proof.
  assert (H1 : sorted tuple_ltb sortkey [place_n; place_z] = Ok [place_z; place_n])
    by (vm_compute; reflexivity).
  assert (H2 : sorted tuple_ltb spec_sortkey [place_n; place_z]
               = Ok [place_n; place_z]) by (vm_compute; reflexivity).
  split; [vm_compute; reflexivity | split; [exact H1 | split; [exact H2|]]].
  rewrite H1, H2. intros E.
  apply (f_equal (fun r : result (list (gmap string pyval)) =>
                    match r with
                    | Ok (m :: _) => m !! "name"
                    | _ => None
                    end)) in E.
  vm_compute in E. discriminate.
Qed.

(** C10, as stated, fails: the record without [ra_hr] stops the rewrite
    with a [KeyError], but the file of the shard before it is already
    written in the temporary directory. *)
Lemma rewrite_abort_leaves_shard_file :
  ~ aborts_without_files two_shard_pdb places_disk.
Proof.
  unfold aborts_without_files.
  assert (H : PlaceDatabase_rewrite two_shard_pdb places_disk
              = (Err (KeyError "ra_hr"),
                 World (<["places.new" := {[ "sky.yml" := Docs [place_vega] ]}]>
                          (fs places_disk)) [] [] []))
    by (vm_compute; reflexivity).
  rewrite H. intros [_ Hfiles].
  destruct (Hfiles "places.new" {[ "sky.yml" := Docs [place_vega] ]} "sky.yml"
              (Docs [place_vega])) as (d0 & Hd0 & _); [reflexivity | reflexivity |].
  vm_compute in Hd0. discriminate.
Qed.

(** ** Comparing sort keys *)

Lemma py_eqb_refl (v : pyval) : py_eqb v v = true.
Proof.
  destruct v as [|s|q]; simpl; [reflexivity | apply String.eqb_refl |].
  apply Qeq_bool_iff. reflexivity.
Qed.

Lemma tuple_ltb_prefix (pre x y : list pyval) :
  tuple_ltb (pre ++ x) (pre ++ y) = tuple_ltb x y.
Proof.
  induction pre as [|v pre IH]; simpl; [reflexivity|].
  now rewrite py_eqb_refl.
Qed.

Lemma tuple_ltb_last (a b : pyval) :
  tuple_ltb [a] [b] = if py_eqb a b then Ok false else py_ltb a b.
Proof. reflexivity. Qed.

Lemma ascii_compare_refl (c : ascii) : Ascii.compare c c = Eq.
Proof. unfold Ascii.compare. apply N.compare_refl. Qed.

(** Character by character, two strings of one length compare as the
    strings do. *)
Lemma tuple_ltb_chars (s : string) :
  forall (t : string) (x y : list pyval),
    String.length s = String.length t ->
    tuple_ltb (chars s ++ x) (chars t ++ y)
    = if String.eqb s t then tuple_ltb x y else Ok (String.ltb s t).
Proof.
  induction s as [|c s IH]; intros [|d t] x y Hlen; try discriminate.
  - reflexivity.
  - simpl in Hlen. injection Hlen as Hlen. simpl chars. simpl app.
    cbn [tuple_ltb py_eqb py_ltb]. simpl String.eqb.
    destruct (Ascii.eqb_spec c d) as [->|Hne].
    + rewrite (IH t x y Hlen).
      unfold String.ltb. simpl String.compare. rewrite ascii_compare_refl.
      reflexivity.
    + unfold String.ltb. simpl String.compare.
      destruct (Ascii.compare c d) eqn:Hc; try reflexivity.
      apply Ascii.compare_eq_iff in Hc. contradiction.
Qed.

Lemma tuple_ltb_url_step (u v : pyval) (x y x' y' : list pyval) :
  same_shape u v ->
  tuple_ltb x y = tuple_ltb x' y' ->
  tuple_ltb (url_chars u ++ x) (url_chars v ++ y)
  = tuple_ltb (url_whole u ++ x') (url_whole v ++ y').
Proof.
  destruct u as [|s|p], v as [|t|q]; simpl; try contradiction; intros Hs Hxy.
  - exact Hxy.
  - rewrite (tuple_ltb_chars s t x y Hs), Hxy.
    destruct (String.eqb s t); reflexivity.
Qed.

Lemma extend_url_typed (info : gmap string pyval) (field : string) (k : list pyval) :
  str_or_none (dict_get info field) ->
  extend_url info field k = Ok (k ++ url_chars (dict_get info field)).
Proof.
  unfold extend_url. destruct (dict_get info field); simpl; try contradiction;
    intros _; [now rewrite app_nil_r | reflexivity].
Qed.

Lemma append_url_typed (info : gmap string pyval) (field : string) (k : list pyval) :
  str_or_none (dict_get info field) ->
  append_url info field k = Ok (k ++ url_whole (dict_get info field)).
Proof.
  unfold append_url. destruct (dict_get info field); simpl; try contradiction;
    intros _; [now rewrite app_nil_r | reflexivity].
Qed.

Lemma pair_component_eq (info : gmap string pyval) (first second : string)
    (k : list pyval) {B} (f : list pyval -> result B) :
  rbind (if is_not_none (dict_get info first)
         then (p <-! dict_item info second; Ok (k ++ [dict_get info first; p]))%res
         else Ok k) f
  = rbind (pair_component info first second) (fun c => f (k ++ c)).
Proof.
  unfold pair_component. destruct (is_not_none (dict_get info first)); simpl.
  - destruct (dict_item info second); reflexivity.
  - now rewrite app_nil_r.
Qed.

Lemma sortkey_parts (info : gmap string pyval) :
  urls_typed info ->
  sortkey info
  = (t <-! key_tail info;
     Ok (url_chars (dict_get info "foreground_image_set_url")
         ++ url_chars (dict_get info "image_set_url")
         ++ url_chars (dict_get info "background_image_set_url") ++ t))%res.
Proof.
  intros (Hf & Hi & Hb). unfold sortkey, key_tail.
  rewrite (extend_url_typed info _ _ Hf). cbn [rbind].
  rewrite (extend_url_typed info _ _ Hi). cbn [rbind].
  rewrite (extend_url_typed info _ _ Hb). cbn [rbind].
  rewrite pair_component_eq.
  destruct (pair_component info "dec_deg" "ra_hr") as [dec|e]; [|reflexivity].
  cbn [rbind]. rewrite pair_component_eq.
  destruct (pair_component info "latitude" "longitude") as [lat|e]; [|reflexivity].
  cbn [rbind]. destruct (dict_item info "name") as [nm|e]; [|reflexivity].
  cbn [rbind]. simpl app. now rewrite <- ?app_assoc.
Qed.

Lemma whole_url_sortkey_parts (info : gmap string pyval) :
  urls_typed info ->
  whole_url_sortkey info
  = (t <-! key_tail info;
     Ok (url_whole (dict_get info "foreground_image_set_url")
         ++ url_whole (dict_get info "image_set_url")
         ++ url_whole (dict_get info "background_image_set_url") ++ t))%res.
Proof.
  intros (Hf & Hi & Hb). unfold whole_url_sortkey, key_tail.
  rewrite (append_url_typed info _ _ Hf). cbn [rbind].
  rewrite (append_url_typed info _ _ Hi). cbn [rbind].
  rewrite (append_url_typed info _ _ Hb). cbn [rbind].
  destruct (pair_component info "dec_deg" "ra_hr") as [dec|e]; [|reflexivity].
  cbn [rbind].
  destruct (pair_component info "latitude" "longitude") as [lat|e]; [|reflexivity].
  cbn [rbind]. destruct (dict_item info "name") as [nm|e]; [|reflexivity].
  cbn [rbind]. simpl app. now rewrite <- ?app_assoc.
Qed.

Lemma same_shape_typed (u v : pyval) : same_shape u v -> str_or_none u /\ str_or_none v.
Proof. destruct u, v; simpl; tauto. Qed.

Lemma same_url_shape_typed (a b : gmap string pyval) :
  same_url_shape a b -> urls_typed a /\ urls_typed b.
Proof.
  intros (Hf & Hi & Hb).
  apply same_shape_typed in Hf, Hi, Hb. unfold urls_typed. tauto.
Qed.

(** On two records whose urls have the same presence and length, the key
    of [sortkey] and the key with whole urls compare alike. *)
Lemma sortkey_compares_as_whole (a b : gmap string pyval) (ka kb : list pyval) :
  same_url_shape a b ->
  sortkey a = Ok ka -> sortkey b = Ok kb ->
  exists da db,
    whole_url_sortkey a = Ok da /\ whole_url_sortkey b = Ok db /\
    tuple_ltb ka kb = tuple_ltb da db.
Proof.
  intros Hshape Ha Hb.
  destruct (same_url_shape_typed a b Hshape) as [Hta Htb].
  rewrite (sortkey_parts a Hta) in Ha. rewrite (sortkey_parts b Htb) in Hb.
  rewrite (whole_url_sortkey_parts a Hta), (whole_url_sortkey_parts b Htb).
  destruct (key_tail a) as [ta|e]; [|discriminate].
  destruct (key_tail b) as [tb|e]; [|discriminate].
  simpl in *. inversion Ha. inversion Hb. subst. clear Ha Hb.
  eexists _, _. split; [reflexivity | split; [reflexivity|]].
  destruct Hshape as (Hf & Hi & Hbg).
  apply tuple_ltb_url_step; [exact Hf|].
  apply tuple_ltb_url_step; [exact Hi|].
  apply tuple_ltb_url_step; [exact Hbg | reflexivity].
Qed.

Lemma sortkey_split (info : gmap string pyval) :
  sortkey info
  = (k <-! key_before_name info; nm <-! dict_item info "name"; Ok (k ++ [nm]))%res.
Proof.
  unfold sortkey, key_before_name.
  destruct (extend_url info "foreground_image_set_url" []) as [k1|e]; [|reflexivity].
  cbn [rbind].
  destruct (extend_url info "image_set_url" k1) as [k2|e]; [|reflexivity].
  cbn [rbind].
  destruct (extend_url info "background_image_set_url" k2) as [k3|e]; [|reflexivity].
  cbn [rbind].
  destruct (is_not_none (dict_get info "dec_deg"));
    [destruct (dict_item info "ra_hr") as [ra|e]; [|reflexivity]|];
    cbn [rbind];
    (destruct (is_not_none (dict_get info "latitude"));
     [destruct (dict_item info "longitude") as [lon|e]; [|reflexivity]|]);
    reflexivity.
Qed.

Lemma key_before_name_ext (a b : gmap string pyval) :
  (forall f, In f fields_before_name -> a !! f = b !! f) ->
  key_before_name a = key_before_name b.
Proof.
  intros H. unfold key_before_name, extend_url, dict_get, dict_item.
  rewrite !(H "foreground_image_set_url"), !(H "image_set_url"),
    !(H "background_image_set_url"), !(H "dec_deg"), !(H "ra_hr"),
    !(H "latitude"), !(H "longitude") by (simpl; tauto).
  reflexivity.
Qed.

(** ** Sorting by two keys that compare alike *)

Section SortAgree.
Context {A K1 K2 : Type}.
Variable lt1 : K1 -> K1 -> result bool.
Variable lt2 : K2 -> K2 -> result bool.
Variable k1 : A -> K1.
Variable k2 : A -> K2.

Lemma insert_by_agree (x : A) (l : list A) :
  (forall y, In y l -> lt1 (k1 y) (k1 x) = lt2 (k2 y) (k2 x)) ->
  match insert_by lt1 (k1 x, x) (decorate k1 l),
        insert_by lt2 (k2 x, x) (decorate k2 l) with
  | Ok r1, Ok r2 =>
      exists m, r1 = decorate k1 m /\ r2 = decorate k2 m /\ Permutation m (x :: l)
  | Err e1, Err e2 => e1 = e2
  | _, _ => False
  end.
Proof.
  induction l as [|y l IH]; intros H; simpl.
  - exists [x]. repeat split. reflexivity.
  - rewrite <- (H y (or_introl eq_refl)).
    destruct (lt1 (k1 y) (k1 x)) as [[|]|e]; simpl; [| |reflexivity].
    + specialize (IH (fun z Hz => H z (or_intror Hz))).
      destruct (insert_by lt1 (k1 x, x) (decorate k1 l)) as [r1|e1],
               (insert_by lt2 (k2 x, x) (decorate k2 l)) as [r2|e2];
        simpl; try contradiction; [|exact IH].
      destruct IH as (m & -> & -> & Hp).
      exists (y :: m). repeat split.
      rewrite Hp. apply perm_swap.
    + exists (x :: y :: l). repeat split. reflexivity.
Qed.

Lemma sort_by_agree (l : list A) :
  (forall x y, In x l -> In y l -> lt1 (k1 x) (k1 y) = lt2 (k2 x) (k2 y)) ->
  match sort_by lt1 (decorate k1 l), sort_by lt2 (decorate k2 l) with
  | Ok r1, Ok r2 =>
      exists m, r1 = decorate k1 m /\ r2 = decorate k2 m /\ Permutation m l
  | Err e1, Err e2 => e1 = e2
  | _, _ => False
  end.
Proof.
  induction l as [|x l IH]; intros H; simpl.
  - exists []. repeat split. reflexivity.
  - specialize (IH (fun a b Ha Hb => H a b (or_intror Ha) (or_intror Hb))).
    destruct (sort_by lt1 (decorate k1 l)) as [r1|e1],
             (sort_by lt2 (decorate k2 l)) as [r2|e2];
      simpl; try contradiction; [|exact IH].
    destruct IH as (m & -> & -> & Hp).
    assert (Hx : forall y, In y m -> lt1 (k1 y) (k1 x) = lt2 (k2 y) (k2 x)).
    { intros y Hy. apply H; [right | left; reflexivity].
      now apply (Permutation_in _ Hp). }
    pose proof (insert_by_agree x m Hx) as Hi.
    destruct (insert_by lt1 (k1 x, x) (decorate k1 m)) as [r1|e1],
             (insert_by lt2 (k2 x, x) (decorate k2 m)) as [r2|e2];
      try contradiction; [|exact Hi].
    destruct Hi as (m' & -> & -> & Hp').
    exists m'. repeat split. rewrite Hp'. now constructor.
Qed.
End SortAgree.

Lemma map_snd_decorate {A K} (key : A -> K) (l : list A) : map snd (decorate key l) = l.
Proof. unfold decorate. rewrite map_map. apply map_id. Qed.

Lemma with_keys_decorate (key : gmap string pyval -> result (list pyval))
    (l : list (gmap string pyval)) :
  (forall a, In a l -> exists k, key a = Ok k) ->
  with_keys key l = Ok (decorate (key_or_nil key) l).
Proof.
  induction l as [|x l IH]; intros H; simpl; [reflexivity|].
  destruct (H x (or_introl eq_refl)) as (k & Hk).
  unfold key_or_nil at 1. rewrite Hk. simpl.
  rewrite IH by (intros a Ha; apply H; now right). reflexivity.
Qed.

(** A shard whose records have urls of the same presence and length is
    sorted as by the key with whole urls. *)
Lemma sorted_as_whole (l : list (gmap string pyval)) :
  (forall a, In a l -> exists k, sortkey a = Ok k) ->
  (forall a b, In a l -> In b l -> same_url_shape a b) ->
  sorted tuple_ltb sortkey l = sorted tuple_ltb whole_url_sortkey l.
Proof.
  intros Hok Hshape.
  assert (Hcmp : forall a b, In a l -> In b l ->
            exists da db, whole_url_sortkey a = Ok da /\ whole_url_sortkey b = Ok db /\
              tuple_ltb (key_or_nil sortkey a) (key_or_nil sortkey b) = tuple_ltb da db).
  { intros a b Ha Hb. destruct (Hok a Ha) as (ka & Hka), (Hok b Hb) as (kb & Hkb).
    unfold key_or_nil. rewrite Hka, Hkb.
    exact (sortkey_compares_as_whole a b ka kb (Hshape a b Ha Hb) Hka Hkb). }
  unfold sorted.
  rewrite (with_keys_decorate sortkey l Hok).
  rewrite (with_keys_decorate whole_url_sortkey l).
  2:{ intros a Ha. destruct (Hcmp a a Ha Ha) as (da & _ & Hda & _). eauto. }
  cbn [rbind].
  pose proof (sort_by_agree tuple_ltb tuple_ltb (key_or_nil sortkey)
                (key_or_nil whole_url_sortkey) l) as Hs.
  destruct (sort_by tuple_ltb (decorate (key_or_nil sortkey) l)) as [r1|e1],
           (sort_by tuple_ltb (decorate (key_or_nil whole_url_sortkey) l)) as [r2|e2];
    simpl.
  - destruct Hs as (m & -> & -> & _); [|now rewrite !map_snd_decorate].
    intros a b Ha Hb. destruct (Hcmp a b Ha Hb) as (da & db & Hda & Hdb & E).
    unfold key_or_nil at 3 4. now rewrite Hda, Hdb.
  - exfalso. apply Hs.
    intros a b Ha Hb. destruct (Hcmp a b Ha Hb) as (da & db & Hda & Hdb & E).
    unfold key_or_nil at 3 4. now rewrite Hda, Hdb.
  - exfalso. apply Hs.
    intros a b Ha Hb. destruct (Hcmp a b Ha Hb) as (da & db & Hda & Hdb & E).
    unfold key_or_nil at 3 4. now rewrite Hda, Hdb.
  - f_equal. apply Hs.
    intros a b Ha Hb. destruct (Hcmp a b Ha Hb) as (da & db & Hda & Hdb & E).
    unfold key_or_nil at 3 4. now rewrite Hda, Hdb.
Qed.

(** C1, amended. The rewrite orders the records of a shard by a key made
    of, in this order, the foreground url, the image-set url and the
    background url, each one that is present (all of them count, none
    stands in for another), then the pair of [dec_deg] and [ra_hr] when
    [dec_deg] is present, then the pair of [latitude] and [longitude] when
    [latitude] is present, then the name: on records whose urls have the
    same presence and length, [sortkey] compares and sorts as this key
    does, and two records that agree on the fields before the name are
    ordered by their names. *)
Theorem sortkey_order :
  (forall l,
      (forall a, In a l -> exists k, sortkey a = Ok k) ->
      (forall a b, In a l -> In b l -> same_url_shape a b) ->
      sorted tuple_ltb sortkey l = sorted tuple_ltb whole_url_sortkey l) /\
  (forall a b ka kb,
      same_url_shape a b ->
      sortkey a = Ok ka -> sortkey b = Ok kb ->
      exists da db,
        whole_url_sortkey a = Ok da /\ whole_url_sortkey b = Ok db /\
        tuple_ltb ka kb = tuple_ltb da db) /\
  (forall a b ka kb,
      (forall f, In f fields_before_name -> a !! f = b !! f) ->
      sortkey a = Ok ka -> sortkey b = Ok kb ->
      tuple_ltb ka kb
      = if py_eqb (dict_get a "name") (dict_get b "name") then Ok false
        else py_ltb (dict_get a "name") (dict_get b "name")).
Proof.
  split; [exact sorted_as_whole | split; [exact sortkey_compares_as_whole|]].
  intros a b ka kb Hsame Ha Hb.
  rewrite sortkey_split in Ha, Hb.
  rewrite (key_before_name_ext a b Hsame) in Ha.
  destruct (key_before_name b) as [pre|e]; [|discriminate].
  cbn [rbind] in Ha, Hb. unfold dict_item, dict_get in *.
  destruct (a !! "name") as [na|]; [|discriminate].
  destruct (b !! "name") as [nb|]; [|discriminate].
  simpl in Ha, Hb. inversion Ha. inversion Hb. subst.
  rewrite tuple_ltb_prefix. apply tuple_ltb_last.
Qed.

Lemma sortkey_order_witness :
  sorted tuple_ltb sortkey [place_n; place_z]
  = sorted tuple_ltb whole_url_sortkey [place_n; place_z] /\
  tuple_ltb [VStr "x"; VStr "b"; VStr "n"] [VStr "x"; VStr "b"; VStr "z"] = Ok true.
Proof.
  split.
  - apply (proj1 sortkey_order [place_n; place_z]).
    + intros a [<-|[<-|[]]]; eexists; vm_compute; reflexivity.
    + intros a b [<-|[<-|[]]] [<-|[<-|[]]]; vm_compute; repeat split.
  - exact (proj2 (proj2 sortkey_order) place_n (<["name" := VStr "z"]> place_n)
             [VStr "x"; VStr "b"; VStr "n"] [VStr "x"; VStr "b"; VStr "z"]
             ltac:(intros f Hf; simpl in Hf;
                   repeat (destruct Hf as [<-|Hf]; [reflexivity|]); destruct Hf)
             eq_refl eq_refl).
Defined.

(** ** Records without the partner of a coordinate *)

Lemma key_before_name_lacks_partner (info : gmap string pyval) :
  lacks_partner info ->
  exists e, key_before_name info = Err e /\
            (urls_typed info -> e = KeyError "ra_hr" \/ e = KeyError "longitude").
Proof.
  intros Hbad. unfold key_before_name.
  destruct (extend_url info "foreground_image_set_url" []) as [k1|e] eqn:H1.
  2:{ exists e. split; [reflexivity|]. intros (Hf & _ & _).
      rewrite (extend_url_typed _ _ _ Hf) in H1. discriminate. }
  cbn [rbind].
  destruct (extend_url info "image_set_url" k1) as [k2|e] eqn:H2.
  2:{ exists e. split; [reflexivity|]. intros (_ & Hi & _).
      rewrite (extend_url_typed _ _ _ Hi) in H2. discriminate. }
  cbn [rbind].
  destruct (extend_url info "background_image_set_url" k2) as [k3|e] eqn:H3.
  2:{ exists e. split; [reflexivity|]. intros (_ & _ & Hb).
      rewrite (extend_url_typed _ _ _ Hb) in H3. discriminate. }
  cbn [rbind]. unfold dict_item.
  destruct (is_not_none (dict_get info "dec_deg")) eqn:Hdec.
  - destruct (info !! "ra_hr") as [ra|] eqn:Hra.
    + cbn [rbind]. destruct Hbad as [[_ Hno]|[Hlat Hno]]; [congruence|].
      rewrite Hlat, Hno. eexists. split; [reflexivity | auto].
    + eexists. split; [reflexivity | auto].
  - cbn [rbind]. destruct Hbad as [[Hd _]|[Hlat Hno]]; [congruence|].
    rewrite Hlat, Hno. eexists. split; [reflexivity | auto].
Qed.

Lemma sortkey_lacks_partner (info : gmap string pyval) :
  lacks_partner info ->
  exists e, sortkey info = Err e /\
            (urls_typed info -> e = KeyError "ra_hr" \/ e = KeyError "longitude").
Proof.
  intros Hbad. rewrite sortkey_split.
  destruct (key_before_name_lacks_partner info Hbad) as (e & -> & He).
  exists e. split; [reflexivity | exact He].
Qed.

Lemma with_keys_stops {A K} (key : A -> result K) (g1 g2 : list A) (x : A)
    (kl : list (K * A)) (e : pyerr) :
  with_keys key g1 = Ok kl -> key x = Err e ->
  with_keys key (g1 ++ x :: g2) = Err e.
Proof.
  revert kl. induction g1 as [|y g1 IH]; intros kl Hg Hx; simpl.
  - now rewrite Hx.
  - simpl in Hg. destruct (key y) as [k|e']; [|discriminate]. cbn [rbind] in *.
    destruct (with_keys key g1) as [kl'|e']; [|discriminate].
    now rewrite (IH kl' eq_refl Hx).
Qed.

Lemma with_keys_fails {A K} (key : A -> result K) (l : list A) (x : A) :
  In x l -> (exists e, key x = Err e) -> exists e, with_keys key l = Err e.
Proof.
  induction l as [|y l IH]; intros Hin Hx; [destruct Hin|]. simpl.
  destruct (key y) as [k|e] eqn:Hy; [|eauto]. cbn [rbind].
  destruct Hin as [->|Hin].
  - destruct Hx as (e & He). congruence.
  - destruct (IH Hin Hx) as (e & ->). eauto.
Qed.

(** A shard whose sort fails is not written: the world is as it was. *)
Lemma write_place_shard_unsorted (tempdir key : string)
    (g : list (gmap string pyval)) (e : pyerr) (w : world) :
  with_keys sortkey g = Err e ->
  write_place_shard tempdir (key, g) w = (Err e, w).
Proof.
  intros H. unfold write_place_shard, sorted. now rewrite H.
Qed.

Lemma write_multi_yaml_other (dir fname : string) (docs : list (gmap string pyval))
    (w : world) (r : result unit) (w' : world) :
  plain_name fname = true ->
  write_multi_yaml dir fname docs w = (r, w') ->
  forall p, p <> dir -> fs w' !! p = fs w !! p.
Proof.
  intros Hn. rewrite (write_multi_yaml_plain dir fname docs w Hn). unfold bind.
  destruct (io_fault_cases w) as [(w1 & -> & E1)|(w1 & -> & E1)].
  2:{ intros H. inversion H. subst. intros p _. now rewrite E1. }
  destruct (fs w1 !! dir) as [d|] eqn:Hd.
  2:{ intros H. inversion H. subst. intros p _. now rewrite E1. }
  destruct (io_fault_cases (set_fs (<[dir := <[fname := Docs docs]> d]> (fs w1)) w1))
    as [(w2 & -> & E2)|(w2 & -> & E2)];
    intros H; inversion H; subst; intros p Hp; rewrite E2; simpl;
    rewrite lookup_insert_ne by auto; now rewrite E1.
Qed.

Lemma write_place_shard_other (tempdir : string)
    (shard : string * list (gmap string pyval)) (w : world)
    (r : result unit) (w' : world) :
  plain_name (fst shard +:+ ".yml") = true ->
  write_place_shard tempdir shard w = (r, w') ->
  forall p, p <> tempdir -> fs w' !! p = fs w !! p.
Proof.
  destruct shard as [key g]. simpl fst. intros Hn.
  unfold write_place_shard, bind, lift.
  destruct (sorted tuple_ltb sortkey g) as [docs|e].
  - now apply write_multi_yaml_other.
  - intros H. inversion H. subst. reflexivity.
Qed.

Lemma write_place_shard_keeps (tempdir : string)
    (shard : string * list (gmap string pyval)) (w : world)
    (r : result unit) (w' : world) :
  write_place_shard tempdir shard w = (r, w') ->
  forall p, is_Some (fs w !! p) -> is_Some (fs w' !! p).
Proof.
  destruct shard as [key g]. unfold write_place_shard, bind, lift.
  destruct (sorted tuple_ltb sortkey g) as [docs|e].
  - apply write_multi_yaml_keeps.
  - intros H. inversion H. subst. auto.
Qed.

(** The loop over the shards removes no directory, wherever the files
    land. *)
Lemma write_place_shards_keeps (tempdir : string)
    (by_key : list (string * list (gmap string pyval))) :
  forall (w : world) (r : result unit) (w' : world),
    for_each by_key (write_place_shard tempdir) w = (r, w') ->
    forall p, is_Some (fs w !! p) -> is_Some (fs w' !! p).
Proof.
  induction by_key as [|shard by_key IH]; intros w r w'; simpl.
  - unfold ret. intros H. inversion H. subst. auto.
  - unfold bind.
    destruct (write_place_shard tempdir shard w) as [r1 w1] eqn:H1.
    pose proof (write_place_shard_keeps tempdir shard w r1 w1 H1) as Hk1.
    destruct r1 as [[]|e1].
    + intros H2 p Hp. exact (IH w1 r w' H2 p (Hk1 p Hp)).
    + intros H. inversion H. subst. exact Hk1.
Qed.

(** The loop over the shards fails when the sort of some shard fails. *)
Lemma write_place_shards_unsorted (tempdir : string)
    (by_key : list (string * list (gmap string pyval)))
    (shard : string * list (gmap string pyval)) (e : pyerr) :
  In shard by_key -> sorted tuple_ltb sortkey (snd shard) = Err e ->
  forall (w : world) (r : result unit) (w' : world),
    for_each by_key (write_place_shard tempdir) w = (r, w') ->
    exists e', r = Err e'.
Proof.
  intros Hin Hs.
  induction by_key as [|s0 by_key IH]; intros w r w'; simpl; [destruct Hin|].
  unfold bind.
  destruct (write_place_shard tempdir s0 w) as [[[]|e1] w1] eqn:H1.
  2:{ intros H. inversion H. eauto. }
  destruct Hin as [->|Hin]; [|exact (IH Hin w1 r w')].
  exfalso. destruct shard as [key g]. simpl in Hs.
  unfold write_place_shard, bind, lift in H1. rewrite Hs in H1. discriminate.
Qed.

Lemma sorted_with_keys_fails {A K} (lt : K -> K -> result bool)
    (key : A -> result K) (l : list A) (e : pyerr) :
  with_keys key l = Err e -> sorted lt key l = Err e.
Proof. intros H. unfold sorted. now rewrite H. Qed.

(** With keys that make file names, the loop over the shards touches the
    temporary directory only. *)
Lemma write_place_shards_other (tempdir : string)
    (by_key : list (string * list (gmap string pyval))) :
  Forall (fun shard => plain_name (fst shard +:+ ".yml") = true) by_key ->
  forall (w : world) (r : result unit) (w' : world),
    for_each by_key (write_place_shard tempdir) w = (r, w') ->
    forall p, p <> tempdir -> fs w' !! p = fs w !! p.
Proof.
  induction 1 as [|shard by_key Hn Hall IH]; intros w r w'; simpl.
  - unfold ret. intros H. inversion H. subst. reflexivity.
  - unfold bind.
    destruct (write_place_shard tempdir shard w) as [r1 w1] eqn:H1.
    pose proof (write_place_shard_other tempdir shard w r1 w1 Hn H1) as Ho1.
    destruct r1 as [[]|e1].
    + intros H2 p Hp. rewrite (IH w1 r w' H2 p Hp). now apply Ho1.
    + intros H. inversion H. subst. exact Ho1.
Qed.

Lemma setdefault_append_keys {A} (k : string) (x : A) (d : list (string * list A))
    (P : string -> Prop) :
  P k -> Forall (fun shard => P (fst shard)) d ->
  Forall (fun shard => P (fst shard)) (setdefault_append k x d).
Proof.
  intros Hk. induction 1 as [|[k0 g] d H0 Hd IH]; simpl.
  - repeat constructor. exact Hk.
  - destruct (String.eqb k0 k); constructor; auto.
Qed.

(** The key of a shard is the key of a record. *)
Lemma places_by_key_keys (P : string -> Prop) (l : list (gmap string pyval)) :
  Forall (fun info => P (place_key_or_empty info)) l ->
  forall acc by_key,
    Forall (fun shard => P (fst shard)) acc ->
    places_by_key l acc = Ok by_key ->
    Forall (fun shard => P (fst shard)) by_key.
Proof.
  induction 1 as [|info l Hi Hl IH]; intros acc by_key Hacc H; simpl in H.
  - inversion H. now subst.
  - unfold place_key_or_empty in Hi.
    destruct (place_key info) as [key|e]; [|discriminate]. cbn [rbind] in H.
    apply (IH _ _ (setdefault_append_keys key info acc P Hi Hacc) H).
Qed.

Lemma plain_keys_shards (l : list (gmap string pyval))
    (by_key : list (string * list (gmap string pyval))) :
  plain_keys l -> places_by_key l [] = Ok by_key ->
  Forall (fun shard => plain_name (fst shard +:+ ".yml") = true) by_key.
Proof.
  intros Hl Hby.
  exact (places_by_key_keys (fun k => plain_name (k +:+ ".yml") = true) l Hl []
           by_key (List.Forall_nil _) Hby).
Qed.

(** A store with a shard whose sort fails is not rewritten: the run ends
    with an error, the temporary directory stays behind when it was made,
    and, with keys that make file names, the catalog directory is as it
    was. *)
Lemma rewrite_fails_on_unsortable (self : PlaceDatabase) (w : world)
    (by_key : list (string * list (gmap string pyval)))
    (shard : string * list (gmap string pyval)) (e : pyerr) :
  places_by_key (infos self) [] = Ok by_key -> In shard by_key ->
  sorted tuple_ltb sortkey (snd shard) = Err e ->
  exists e' w',
    PlaceDatabase_rewrite self w = (Err e', w') /\
    (plain_keys (infos self) ->
     fs w' !! pdb_dir self = fs w !! pdb_dir self).
Proof.
  intros Hby Hin Hsort. unfold PlaceDatabase_rewrite.
  rewrite Hby, bind_lift_ok.
  set (D := pdb_dir self). set (T := D +:+ ".new").
  assert (HDT : D <> T) by (now apply app_nonempty_neq).
  destruct (mkdir_cases T w) as [(w1 & Hm & _ & Hfs1)|(w1 & Hm & Hfs1)].
  2:{ rewrite (bind_err _ _ _ _ _ Hm). eexists _, _. split; [reflexivity|].
      intros _. now rewrite Hfs1. }
  rewrite (bind_ok _ _ _ _ _ Hm).
  destruct (for_each by_key (write_place_shard T) w1) as [r2 w2] eqn:Hw.
  destruct (write_place_shards_unsorted T by_key shard e Hin Hsort w1 r2 w2 Hw)
    as (e2 & ->).
  rewrite (bind_err _ _ _ _ _ Hw). exists e2, w2. split; [reflexivity|].
  intros Hplain.
  rewrite (write_place_shards_other T by_key (plain_keys_shards _ _ Hplain Hby)
             w1 _ w2 Hw D HDT).
  rewrite Hfs1. now apply lookup_insert_ne.
Qed.

Lemma setdefault_append_holds {A} (k : string) (x : A) (d : list (string * list A)) :
  (exists shard, In shard (setdefault_append k x d) /\ In x (snd shard)) /\
  (forall y shard, In shard d -> In y (snd shard) ->
     exists shard', In shard' (setdefault_append k x d) /\ In y (snd shard')).
Proof.
  induction d as [|[k0 g] d [IHx IHy]]; simpl.
  - split; [exists (k, [x]); simpl; auto | intros y shard []].
  - destruct (String.eqb k0 k).
    + split.
      * exists (k0, g ++ [x]). split; [now left | simpl; apply in_or_app; simpl; auto].
      * intros y shard [<-|Hin] Hy.
        -- exists (k0, g ++ [x]). split; [now left | simpl; apply in_or_app; auto].
        -- exists shard. split; [now right | exact Hy].
    + split.
      * destruct IHx as (s & Hs & Hx). exists s. split; [now right | exact Hx].
      * intros y shard [<-|Hin] Hy.
        -- exists (k0, g). split; [now left | exact Hy].
        -- destruct (IHy y shard Hin Hy) as (s & Hs & Hy').
           exists s. split; [now right | exact Hy'].
Qed.

(** Every record held ends up in some shard. *)
Lemma places_by_key_holds (l : list (gmap string pyval)) :
  forall acc by_key,
    places_by_key l acc = Ok by_key ->
    forall x,
      In x l \/ (exists shard, In shard acc /\ In x (snd shard)) ->
      exists shard, In shard by_key /\ In x (snd shard).
Proof.
  induction l as [|info l IH]; intros acc by_key H x Hx; simpl in H.
  - inversion H. subst. destruct Hx as [[]|Hx]. exact Hx.
  - destruct (place_key info) as [key|e]; [|discriminate]. cbn [rbind] in H.
    apply (IH _ _ H).
    destruct (setdefault_append_holds key info acc) as [Hnew Hold].
    destruct Hx as [[->|Hin]|(shard & Hs & Hin)].
    + now right.
    + now left.
    + right. exact (Hold x shard Hs Hin).
Qed.

(** A store that holds a record without the partner of a coordinate is
    never rewritten: the run ends with an error, and, with keys that make
    file names, the catalog directory is as it was. *)
Lemma rewrite_fails_on_partnerless (self : PlaceDatabase) (w : world)
    (info : gmap string pyval) :
  In info (infos self) -> lacks_partner info ->
  exists e w',
    PlaceDatabase_rewrite self w = (Err e, w') /\
    (plain_keys (infos self) ->
     fs w' !! pdb_dir self = fs w !! pdb_dir self).
Proof.
  intros Hin Hbad.
  destruct (places_by_key (infos self) []) as [by_key|e] eqn:Hby.
  2:{ exists e, w. unfold PlaceDatabase_rewrite, bind, lift. rewrite Hby.
      split; reflexivity. }
  destruct (places_by_key_holds _ _ _ Hby info (or_introl Hin))
    as (shard & Hs & Hinfo).
  destruct (sortkey_lacks_partner info Hbad) as (e & He & _).
  destruct (with_keys_fails sortkey (snd shard) info Hinfo (ex_intro _ e He))
    as (e' & He').
  exact (rewrite_fails_on_unsortable self w by_key shard e' Hby Hs
           (sorted_with_keys_fails _ _ _ _ He')).
Qed.

(** The keys must make file names for the catalog to stay as it was: a
    record whose data-set type is "../places/x" has its shard written
    into the catalog directory itself, before the record without [ra_hr]
    stops the run. *)
Example rewrite_abort_after_escape :
  let r := PlaceDatabase_rewrite astray_pdb places_disk in
  fst r = Err (KeyError "ra_hr") /\
  fs (snd r) !! "places"
  = Some {[ "sky.yml" := Docs [place_vega]; "x.yml" := Docs [place_astray] ]} /\
  fs (snd r) !! "places.new" = Some ∅.
Proof. vm_compute. repeat split; reflexivity. Qed.

(** C10, amended.  The sort key of a record that has [dec_deg] without [ra_hr], or
    [latitude] without [longitude], raises the missing-key error; the sort
    of its shard stops with that error, before anything is compared or
    written for the shard, as soon as the keys of the records in front of
    it are computed; a rewrite of a store that holds such a record always
    ends with an error; and it leaves the catalog directory as it was
    when the partition key of every record held makes a file name (a key
    with a separator in it can put the file of an earlier shard
    anywhere). *)
Theorem rewrite_needs_partners :
  (forall info,
      lacks_partner info -> urls_typed info ->
      sortkey info = Err (KeyError "ra_hr") \/
      sortkey info = Err (KeyError "longitude")) /\
  (forall tempdir key g1 g2 info kl w,
      lacks_partner info -> urls_typed info ->
      with_keys sortkey g1 = Ok kl ->
      exists k,
        write_place_shard tempdir (key, g1 ++ info :: g2) w = (Err (KeyError k), w)) /\
  (forall self w info,
      In info (infos self) -> lacks_partner info ->
      exists e, fst (PlaceDatabase_rewrite self w) = Err e) /\
  (forall self w info,
      In info (infos self) -> lacks_partner info ->
      plain_keys (infos self) ->
      fs (snd (PlaceDatabase_rewrite self w)) !! pdb_dir self = fs w !! pdb_dir self).
Proof.
  split; [|split; [|split]].
  - intros info Hbad Hty.
    destruct (sortkey_lacks_partner info Hbad) as (e & He & Hk).
    rewrite He. destruct (Hk Hty) as [-> | ->]; auto.
  - intros tempdir key g1 g2 info kl w Hbad Hty Hg1.
    destruct (sortkey_lacks_partner info Hbad) as (e & He & Hk).
    assert (Hkey : exists k, e = KeyError k) by (destruct (Hk Hty) as [-> | ->]; eauto).
    destruct Hkey as (k & ->). exists k.
    apply write_place_shard_unsorted.
    exact (with_keys_stops sortkey g1 g2 info kl _ Hg1 He).
  - intros self w info Hin Hbad.
    destruct (rewrite_fails_on_partnerless self w info Hin Hbad) as (e & w' & -> & _).
    exists e. reflexivity.
  - intros self w info Hin Hbad Hplain.
    destruct (rewrite_fails_on_partnerless self w info Hin Hbad) as (e & w' & -> & Hfs).
    exact (Hfs Hplain).
Qed.

Lemma rewrite_needs_partners_witness :
  (sortkey place_no_ra = Err (KeyError "ra_hr") \/
   sortkey place_no_ra = Err (KeyError "longitude")) /\
  (exists e, fst (PlaceDatabase_rewrite two_shard_pdb places_disk) = Err e) /\
  fs (snd (PlaceDatabase_rewrite two_shard_pdb places_disk)) !! pdb_dir two_shard_pdb
  = fs places_disk !! pdb_dir two_shard_pdb.
Proof.
  assert (Hbad : lacks_partner place_no_ra) by (left; split; reflexivity).
  split; [|split].
  - apply (proj1 rewrite_needs_partners place_no_ra Hbad).
    repeat split.
  - apply (proj1 (proj2 (proj2 rewrite_needs_partners)) two_shard_pdb places_disk
             place_no_ra); [right; left; reflexivity | exact Hbad].
  - apply (proj2 (proj2 (proj2 rewrite_needs_partners)) two_shard_pdb places_disk
             place_no_ra); [right; left; reflexivity | exact Hbad |].
    repeat constructor.
Defined.


(** ** What a distilled record holds *)

Lemma lookup_set_if_ne (c : bool) (k k' : string) (v : pyval) (info : gmap string pyval) :
  k <> k' -> set_if c k v info !! k' = info !! k'.
Proof. intros H. unfold set_if. destruct c; [now apply lookup_insert_ne | reflexivity]. Qed.

Lemma lookup_set_if_eq (c : bool) (k : string) (v : pyval) (info : gmap string pyval) :
  set_if c k v info !! k = if c then Some v else info !! k.
Proof. unfold set_if. destruct c; [apply lookup_insert_eq | reflexivity]. Qed.

Lemma lookup_set_some_ne {A} (x : option A) (k k' : string) (f : A -> pyval)
    (info : gmap string pyval) :
  k <> k' -> set_some x k f info !! k' = info !! k'.
Proof. intros H. unfold set_some. destruct x; [now apply lookup_insert_ne | reflexivity]. Qed.

Lemma lookup_set_some_eq {A} (x : option A) (k : string) (f : A -> pyval)
    (info : gmap string pyval) :
  set_some x k f info !! k = match x with Some a => Some (f a) | None => info !! k end.
Proof. unfold set_some. destruct x; [apply lookup_insert_eq | reflexivity]. Qed.

Ltac skip_other_keys :=
  repeat first
    [ rewrite lookup_set_if_ne by (intro; discriminate)
    | rewrite lookup_set_some_ne by (intro; discriminate)
    | rewrite lookup_insert_ne by (intro; discriminate) ].

Ltac lookup_field :=
  unfold place_info; skip_other_keys;
  first [ rewrite lookup_set_if_eq | rewrite lookup_set_some_eq | rewrite lookup_insert_eq ];
  skip_other_keys; rewrite ?lookup_empty; reflexivity.

Lemma place_info_name (place : Place) :
  place_info place !! "name" = Some (VStr (p_name place)).
Proof. lookup_field. Qed.

Lemma place_info_data_set_type (place : Place) :
  place_info place !! "data_set_type" = Some (VStr (p_data_set_type place)).
Proof. lookup_field. Qed.

Lemma place_info_ra_hr (place : Place) :
  place_info place !! "ra_hr"
  = if num_ne (p_ra_hr place) 0 then Some (VNum (p_ra_hr place)) else None.
Proof. lookup_field. Qed.

Lemma place_info_dec_deg (place : Place) :
  place_info place !! "dec_deg"
  = if num_ne (p_dec_deg place) 0 then Some (VNum (p_dec_deg place)) else None.
Proof. lookup_field. Qed.

Lemma place_info_latitude (place : Place) :
  place_info place !! "latitude"
  = if num_ne (p_latitude place) 0 then Some (VNum (p_latitude place)) else None.
Proof. lookup_field. Qed.

Lemma place_info_longitude (place : Place) :
  place_info place !! "longitude"
  = if num_ne (p_longitude place) 0 then Some (VNum (p_longitude place)) else None.
Proof. lookup_field. Qed.

Lemma place_info_image_set_url (place : Place) :
  place_info place !! "image_set_url"
  = match p_image_set place with Some s => Some (VStr (url s)) | None => None end.
Proof. lookup_field. Qed.

Lemma place_info_foreground_url (place : Place) :
  place_info place !! "foreground_image_set_url"
  = match p_foreground_image_set place with
    | Some s => Some (VStr (url s))
    | None => None
    end.
Proof. lookup_field. Qed.

Lemma place_info_background_url (place : Place) :
  place_info place !! "background_image_set_url"
  = match p_background_image_set place with
    | Some s => Some (VStr (url s))
    | None => None
    end.
Proof. lookup_field. Qed.

(** ** Adding imagesets while ingesting *)

Lemma url_in_snoc (u k : string) (v : ImageSet) (d : list (string * ImageSet)) :
  url_in u (d ++ [(k, v)]) = url_in u d || String.eqb k u.
Proof. unfold url_in. rewrite existsb_app. simpl. now rewrite orb_false_r. Qed.

(** An addition never raises and never touches the disk or the fault
    schedule; afterwards the url is a key, and what was held is held
    unchanged. *)
Lemma add_imageset_grows (imgset : ImageSet) (idb : ImagesetDatabase) (w : world) :
  exists idb' w',
    add_imageset imgset idb w = (Ok idb', w') /\
    fs w' = fs w /\ faults w' = faults w /\
    db_dir idb' = db_dir idb /\
    url_in (url imgset) (by_url idb') = true /\
    (forall u, url_in u (by_url idb) = true ->
               url_in u (by_url idb') = true /\
               by_url_get u (by_url idb') = by_url_get u (by_url idb)).
Proof.
  unfold add_imageset. destruct (url_in (url imgset) (by_url idb)) eqn:Hin.
  - eexists _, _. split; [reflexivity|]. simpl. repeat split; auto.
  - eexists _, _. split; [reflexivity|]. simpl. repeat split.
    + rewrite url_in_snoc, String.eqb_refl. apply orb_true_r.
    + rewrite url_in_snoc, H. reflexivity.
    + rewrite by_url_get_snoc.
      destruct (by_url_get u (by_url idb)) eqn:Hg; [reflexivity|].
      exfalso. apply url_in_spec in H. apply in_map_iff in H.
      destruct H as (kv & E & Hkv). unfold by_url_get in Hg.
      destruct (find (fun kv => String.eqb (fst kv) u) (by_url idb)) eqn:Hf;
        [discriminate|].
      apply (find_none _ _ Hf) in Hkv. rewrite E, String.eqb_refl in Hkv.
      discriminate.
Qed.

Lemma add_if_some_grows (s : option ImageSet) (idb : ImagesetDatabase) (w : world) :
  exists idb' w',
    add_if_some s idb w = (Ok idb', w') /\
    fs w' = fs w /\ faults w' = faults w /\
    db_dir idb' = db_dir idb /\
    (forall imgset, s = Some imgset -> url_in (url imgset) (by_url idb') = true) /\
    (forall u, url_in u (by_url idb) = true ->
               url_in u (by_url idb') = true /\
               by_url_get u (by_url idb') = by_url_get u (by_url idb)).
Proof.
  destruct s as [imgset|]; simpl.
  - destruct (add_imageset_grows imgset idb w)
      as (idb' & w' & Hrun & Hfs & Hfl & Hdir & Hin & Hold).
    exists idb', w'. repeat split; try assumption; try (now apply Hold).
    intros i E. inversion E. now subst.
  - exists idb, w. repeat split; auto. discriminate.
Qed.

(** ** Ingesting a place *)

Lemma url_field_of_place (place : Place) (f u : string) :
  In f url_fields -> place_info place !! f = Some (VStr u) ->
  (exists s, p_image_set place = Some s /\ url s = u) \/
  (exists s, p_foreground_image_set place = Some s /\ url s = u) \/
  (exists s, p_background_image_set place = Some s /\ url s = u).
Proof.
  intros [<-|[<-|[<-|[]]]] H.
  - rewrite place_info_image_set_url in H.
    destruct (p_image_set place) as [s|]; [|discriminate].
    inversion H. left. eauto.
  - rewrite place_info_foreground_url in H.
    destruct (p_foreground_image_set place) as [s|]; [|discriminate].
    inversion H. right. left. eauto.
  - rewrite place_info_background_url in H.
    destruct (p_background_image_set place) as [s|]; [|discriminate].
    inversion H. right. right. eauto.
Qed.

Lemma ingest_place_spec (place : Place) (self : PlaceDatabase)
    (idb : ImagesetDatabase) (w : world) :
  exists idb' w',
    ingest_place place self idb w
    = (Ok ({| pdb_dir := pdb_dir self; infos := infos self ++ [place_info place] |},
           idb'), w') /\
    fs w' = fs w /\ faults w' = faults w /\
    db_dir idb' = db_dir idb /\
    (forall f u, In f url_fields -> place_info place !! f = Some (VStr u) ->
                 url_in u (by_url idb') = true) /\
    (forall u, url_in u (by_url idb) = true ->
               url_in u (by_url idb') = true /\
               by_url_get u (by_url idb') = by_url_get u (by_url idb)).
Proof.
  unfold ingest_place.
  destruct (add_if_some_grows (p_image_set place) idb w)
    as (idb1 & w1 & H1 & Hfs1 & Hfl1 & Hd1 & Hnew1 & Hold1).
  rewrite (bind_ok _ _ _ _ _ H1).
  destruct (add_if_some_grows (p_foreground_image_set place) idb1 w1)
    as (idb2 & w2 & H2 & Hfs2 & Hfl2 & Hd2 & Hnew2 & Hold2).
  rewrite (bind_ok _ _ _ _ _ H2).
  destruct (add_if_some_grows (p_background_image_set place) idb2 w2)
    as (idb3 & w3 & H3 & Hfs3 & Hfl3 & Hd3 & Hnew3 & Hold3).
  rewrite (bind_ok _ _ _ _ _ H3).
  exists idb3, w3. split; [reflexivity|]. repeat split.
  - congruence.
  - congruence.
  - congruence.
  - intros f u Hf Hu.
    destruct (url_field_of_place place f u Hf Hu)
      as [(s & Hs & <-)|[(s & Hs & <-)|(s & Hs & <-)]].
    + apply Hold3, Hold2, Hnew1, Hs.
    + apply Hold3, Hnew2, Hs.
    + apply Hnew3, Hs.
  - apply Hold3, Hold2, Hold1, H.
  - destruct (Hold1 u H) as [Ha Ea]. destruct (Hold2 u Ha) as [Hb Eb].
    destruct (Hold3 u Hb) as [Hc Ec]. congruence.
Qed.

(** X1. Ingesting a place never raises and leaves the disk alone.  It
    appends exactly one record, the distilled one, to the places held, and
    afterwards every url that the record carries in a url field is a key of
    the imageset store, while every imageset that was held is held
    unchanged. *)
Theorem ingest_place_registers_references (place : Place) (self : PlaceDatabase)
    (idb : ImagesetDatabase) (w : world) :
  exists pdb' idb' w',
    ingest_place place self idb w = (Ok (pdb', idb'), w') /\
    fs w' = fs w /\
    infos pdb' = infos self ++ [place_info place] /\
    (forall f u, In f url_fields -> place_info place !! f = Some (VStr u) ->
                 is_Some (by_url_get u (by_url idb'))) /\
    (forall u s, by_url_get u (by_url idb) = Some s ->
                 by_url_get u (by_url idb') = Some s).
Proof.
  destruct (ingest_place_spec place self idb w)
    as (idb' & w' & Hrun & Hfs & _ & _ & Hnew & Hold).
  assert (Hget : forall d u, url_in u d = true -> is_Some (by_url_get u d)).
  { intros d u Hin. destruct (by_url_get u d) eqn:Hg; [eauto|].
    apply url_in_spec, in_map_iff in Hin. destruct Hin as (kv & E & Hkv).
    unfold by_url_get in Hg.
    destruct (find (fun kv => String.eqb (fst kv) u) d) eqn:Hf; [discriminate|].
    apply (find_none _ _ Hf) in Hkv. rewrite E, String.eqb_refl in Hkv.
    discriminate. }
  eexists _, idb', w'. split; [exact Hrun|]. repeat split.
  - exact Hfs.
  - intros f u Hf Hu. apply Hget. exact (Hnew f u Hf Hu).
  - intros u s Hs. rewrite <- Hs. apply Hold.
    destruct (url_in u (by_url idb)) eqn:Hin; [reflexivity|].
    rewrite (by_url_get_none u _ Hin) in Hs. discriminate.
Qed.

(** X2. For a place whose right ascension and longitude are finite
    numbers, as the numbers of a [Place] are, the partition key of the
    distilled record computes: it is the lowercased data-set type, then
    the [ra] component when [ra_hr] is not 0 and the [lon] component when
    [longitude] is not 0.  A place at right ascension 0 thus has no [ra]
    component, while any other place of the first hour has [ra00]. *)
Theorem place_key_of_ingested (place : Place) :
  place_key (place_info place)
  = Ok (lower (p_data_set_type place)
        +:+ (if num_ne (p_ra_hr place) 0
             then "_ra" +:+ fmt_d 2 (Qfloor (p_ra_hr place) mod 24)
             else EmptyString)
        +:+ (if num_ne (p_longitude place) 0
             then "_lon" +:+ fmt_d 3 (Qfloor (p_longitude place / 10) * 10)
             else EmptyString)).
Proof.
  rewrite (place_key_parts (place_info place) (p_data_set_type place)).
  - unfold ra_part, lon_part, dict_get.
    rewrite place_info_ra_hr, place_info_longitude.
    destruct (num_ne (p_ra_hr place) 0), (num_ne (p_longitude place) 0); reflexivity.
  - apply place_info_data_set_type.
  - unfold dict_get. rewrite place_info_ra_hr.
    destruct (num_ne (p_ra_hr place) 0); exact I.
  - unfold dict_get. rewrite place_info_longitude.
    destruct (num_ne (p_longitude place) 0); exact I.
Qed.

(** ** Places on a zero coordinate *)

Lemma place_info_lacks_partner (place : Place) :
  zero_partner place -> lacks_partner (place_info place).
Proof.
  unfold lacks_partner, dict_get. intros [[Hd Hr]|[Hl Hn]].
  - left. rewrite place_info_dec_deg, place_info_ra_hr, Hd, Hr. split; reflexivity.
  - right. rewrite place_info_latitude, place_info_longitude, Hl, Hn.
    split; reflexivity.
Qed.

Lemma place_info_urls_typed (place : Place) : urls_typed (place_info place).
Proof.
  unfold urls_typed, dict_get.
  rewrite place_info_foreground_url, place_info_image_set_url,
    place_info_background_url.
  destruct (p_foreground_image_set place), (p_image_set place),
    (p_background_image_set place); repeat split.
Qed.

(** X3. A place with a declination other than 0 at right ascension 0 (or
    with a latitude other than 0 at longitude 0) is distilled to a record
    with the first coordinate and without the second, because a trait at
    its default is left out.  The sort key of that record raises the
    missing-key error, so once the place is ingested no rewrite of the
    place database succeeds, whatever the disk: each run ends with an
    error, and it leaves the place catalog as it was when the partition
    keys of the records held make file names. *)
Theorem zero_coordinate_blocks_rewrite (place : Place) (self : PlaceDatabase)
    (idb : ImagesetDatabase) (w : world) :
  zero_partner place ->
  (sortkey (place_info place) = Err (KeyError "ra_hr") \/
   sortkey (place_info place) = Err (KeyError "longitude")) /\
  exists pdb' idb' w1,
    ingest_place place self idb w = (Ok (pdb', idb'), w1) /\
    forall w2, exists e w3,
      PlaceDatabase_rewrite pdb' w2 = (Err e, w3) /\
      (plain_keys (infos pdb') ->
       fs w3 !! pdb_dir self = fs w2 !! pdb_dir self).
Proof.
  intros Hzero. pose proof (place_info_lacks_partner place Hzero) as Hbad. split.
  - destruct (sortkey_lacks_partner _ Hbad) as (e & He & Hk).
    rewrite He. destruct (Hk (place_info_urls_typed place)) as [-> | ->]; auto.
  - destruct (ingest_place_spec place self idb w) as (idb' & w1 & Hrun & _).
    eexists _, idb', w1. split; [exact Hrun|]. intros w2.
    destruct (rewrite_fails_on_partnerless
                {| pdb_dir := pdb_dir self;
                   infos := infos self ++ [place_info place] |} w2
                (place_info place)) as (e & w3 & Hr & Hfs3).
    + simpl. apply in_or_app. right. now left.
    + exact Hbad.
    + exists e, w3. split; [exact Hr | exact Hfs3].
Qed.

Lemma zero_coordinate_blocks_rewrite_witness :
  (sortkey (place_info place_ra_zero) = Err (KeyError "ra_hr") \/
   sortkey (place_info place_ra_zero) = Err (KeyError "longitude")) /\
  exists pdb' idb' w1,
    ingest_place place_ra_zero empty_pdb (empty_db "imagesets") quiet_world
    = (Ok (pdb', idb'), w1) /\
    forall w2, exists e w3,
      PlaceDatabase_rewrite pdb' w2 = (Err e, w3) /\
      (plain_keys (infos pdb') ->
       fs w3 !! pdb_dir empty_pdb = fs w2 !! pdb_dir empty_pdb).
Proof.
  apply (zero_coordinate_blocks_rewrite place_ra_zero empty_pdb
           (empty_db "imagesets") quiet_world).
  left. split; reflexivity.
Defined.

(** ** Shards as a partition *)

Section Partition.
Context {A : Type}.
Variable key : A -> string.

Lemma setdefault_append_concat (k : string) (x : A) (d : list (string * list A)) :
  Permutation (concat (map snd (setdefault_append k x d)))
              (concat (map snd d) ++ [x]).
Proof.
  induction d as [|[k0 g] d IH]; simpl; [reflexivity|].
  destruct (String.eqb k0 k); simpl.
  - rewrite <- !app_assoc. apply Permutation_app_head, Permutation_app_comm.
  - rewrite IH, <- app_assoc. reflexivity.
Qed.

Lemma group_fold_concat (l : list A) :
  forall d, Permutation (concat (map snd (fold_left (group_step key) l d)))
                        (concat (map snd d) ++ l).
Proof.
  induction l as [|x l IH]; intros d; simpl.
  - now rewrite app_nil_r.
  - rewrite IH. unfold group_step. rewrite setdefault_append_concat.
    now rewrite <- app_assoc.
Qed.

Lemma group_fold_elem (l : list A) (k : string) (g : list A) :
  In (k, g) (fold_left (group_step key) l []) ->
  g = List.filter (fun x => String.eqb (key x) k) l /\ g <> [].
Proof.
  intros Hin.
  destruct (group_fold key l []) as (Hnd & Hne & Hget); [constructor | constructor |].
  pose proof (Hget k) as Hk. rewrite (group_get_elem k g _ Hnd Hin) in Hk.
  rewrite List.Forall_forall in Hne. split; [exact Hk | exact (Hne _ Hin)].
Qed.
End Partition.

(** X4. The shards of the imageset rewrite are a partition of the
    imagesets held: the keys of the shards are distinct, no shard is
    empty, a shard holds exactly the imagesets with its key, in the order
    they are held, and the shards together hold every imageset once. *)
Theorem imagesets_by_key_partition (l : list ImageSet) :
  NoDup (map fst (imagesets_by_key l)) /\
  (forall k g, In (k, g) (imagesets_by_key l) ->
     g <> [] /\ g = List.filter (fun s => String.eqb (imageset_key s) k) l) /\
  Permutation (concat (map snd (imagesets_by_key l))) l.
Proof.
  split; [apply (imagesets_by_key_groups l) | split].
  - intros k g Hin.
    destruct (group_fold_elem imageset_key l k g Hin) as [E Hne]. auto.
  - exact (group_fold_concat imageset_key l []).
Qed.

(** ** The three calls of the swap *)

(** The swap, started with the new files in the temporary directory:
    what it leaves at the three paths, and nothing else is touched. *)
Lemma swap_spec (D : string) (w : world) (new : gmap string content)
    (r : result unit) (w' : world) :
  fs w !! (D +:+ ".new") = Some new ->
  (rename D (D +:+ ".old") ;; rename (D +:+ ".new") D ;; rmtree (D +:+ ".old"))%io w
  = (r, w') ->
  (forall p, p <> D -> p <> D +:+ ".new" -> p <> D +:+ ".old" ->
             fs w' !! p = fs w !! p) /\
  match r with
  | Ok _ =>
      fs w' !! D = Some new /\ fs w' !! (D +:+ ".new") = None /\
      fs w' !! (D +:+ ".old") = None
  | Err _ =>
      fs w' !! D = fs w !! D \/
      (fs w' !! D = None /\ fs w' !! (D +:+ ".old") = fs w !! D /\
       is_Some (fs w !! D)) \/
      fs w' !! D = Some new
  end.
Proof.
  set (T := D +:+ ".new"). set (O := D +:+ ".old"). intros HT.
  assert (HDT : D <> T) by (now apply app_nonempty_neq).
  assert (HDO : D <> O) by (now apply app_nonempty_neq).
  assert (HTO : T <> O) by apply new_neq_old.
  destruct (rename_cases D O w) as [(w3 & dold & Hr & Hsrc & Hfs3)|(w3 & Hr & Hfs3)].
  2:{ rewrite (bind_err _ _ _ _ _ Hr). intros H. inversion H. subst.
      rewrite Hfs3. split; [reflexivity | now left]. }
  rewrite (bind_ok _ _ _ _ _ Hr).
  assert (H3 : forall p, p <> D -> p <> O -> fs w3 !! p = fs w !! p).
  { intros p HpD HpO. rewrite Hfs3, lookup_insert_ne, lookup_delete_ne; auto. }
  assert (H3D : fs w3 !! D = None).
  { rewrite Hfs3, lookup_insert_ne, lookup_delete_eq; auto. }
  assert (H3O : fs w3 !! O = Some dold) by (rewrite Hfs3; apply lookup_insert_eq).
  assert (H3T : fs w3 !! T = Some new) by (rewrite H3; auto).
  destruct (rename_cases T D w3) as [(w4 & dt & Hr' & Hsrc' & Hfs4)|(w4 & Hr' & Hfs4)].
  2:{ rewrite (bind_err _ _ _ _ _ Hr'). intros H. inversion H. subst.
      rewrite Hfs4. split; [intros p HpD _ HpO; now apply H3|].
      right. left. rewrite H3D, H3O, Hsrc. eauto. }
  rewrite (bind_ok _ _ _ _ _ Hr').
  rewrite H3T in Hsrc'. inversion Hsrc'. subst dt.
  assert (H4 : forall p, p <> D -> p <> T -> fs w4 !! p = fs w3 !! p).
  { intros p HpD HpT. rewrite Hfs4, lookup_insert_ne, lookup_delete_ne; auto. }
  assert (H4D : fs w4 !! D = Some new) by (rewrite Hfs4; apply lookup_insert_eq).
  assert (H4T : fs w4 !! T = None).
  { rewrite Hfs4, lookup_insert_ne, lookup_delete_eq; auto. }
  destruct (rmtree_cases O w4) as [(w5 & Hrm & Hfs5)|(w5 & Hrm & Hfs5)];
    rewrite Hrm; intros H; inversion H; subst; rewrite Hfs5.
  - split.
    + intros p HpD HpT HpO. rewrite lookup_delete_ne, H4, H3; auto.
    + rewrite !lookup_delete_ne by auto. rewrite lookup_delete_eq. auto.
  - split.
    + intros p HpD HpT HpO. rewrite H4, H3; auto.
    + right. now right.
Qed.

(** ** Writing the shards of places *)

Lemma write_multi_yaml_spec (dir fname : string) (docs : list (gmap string pyval))
    (w : world) (d : gmap string content) (r : result unit) (w' : world) :
  plain_name fname = true ->
  fs w !! dir = Some d ->
  write_multi_yaml dir fname docs w = (r, w') ->
  (forall p, p <> dir -> fs w' !! p = fs w !! p) /\
  match r with
  | Ok _ => fs w' !! dir = Some (<[fname := Docs docs]> d)
  | Err _ => is_Some (fs w' !! dir)
  end.
Proof.
  intros Hn Hd Hrun. split; [exact (write_multi_yaml_other _ _ _ _ _ _ Hn Hrun)|].
  revert Hrun. rewrite (write_multi_yaml_plain dir fname docs w Hn). unfold bind.
  destruct (io_fault_cases w) as [(w1 & -> & E1)|(w1 & -> & E1)].
  2:{ intros H. inversion H. subst. rewrite E1, Hd. eauto. }
  rewrite E1, Hd.
  destruct (io_fault_cases (set_fs (<[dir := <[fname := Docs docs]> d]> (fs w)) w1))
    as [(w2 & -> & E2)|(w2 & -> & E2)];
    intros H; inversion H; subst; rewrite E2; simpl; rewrite lookup_insert_eq; eauto.
Qed.

Lemma write_place_shard_spec (tempdir : string)
    (shard : string * list (gmap string pyval))
    (w : world) (d : gmap string content) (r : result unit) (w' : world) :
  plain_name (fst shard +:+ ".yml") = true ->
  fs w !! tempdir = Some d ->
  write_place_shard tempdir shard w = (r, w') ->
  (forall p, p <> tempdir -> fs w' !! p = fs w !! p) /\
  match r with
  | Ok _ =>
      fs w' !! tempdir
      = Some (<[fst shard +:+ ".yml" := Docs (sorted_docs (snd shard))]> d) /\
      sorted tuple_ltb sortkey (snd shard) = Ok (sorted_docs (snd shard))
  | Err _ => is_Some (fs w' !! tempdir)
  end.
Proof.
  intros Hn Hd Hrun. split; [exact (write_place_shard_other _ _ _ _ _ Hn Hrun)|].
  revert Hrun. destruct shard as [key g]. unfold write_place_shard, sorted_docs.
  simpl fst in *. simpl snd. unfold bind, lift.
  destruct (sorted tuple_ltb sortkey g) as [docs|e].
  - intros Hrun.
    destruct (write_multi_yaml_spec _ _ _ _ _ _ _ Hn Hd Hrun) as [_ Hr].
    destruct r as [[]|e]; [split; [exact Hr | reflexivity] | exact Hr].
  - intros H. inversion H. subst. rewrite Hd. eauto.
Qed.

Lemma write_place_shards_full (tempdir : string)
    (by_key : list (string * list (gmap string pyval))) :
  Forall (fun shard => plain_name (fst shard +:+ ".yml") = true) by_key ->
  forall (w : world) (d : gmap string content) (r : result unit) (w' : world),
    fs w !! tempdir = Some d ->
    for_each by_key (write_place_shard tempdir) w = (r, w') ->
    (forall p, p <> tempdir -> fs w' !! p = fs w !! p) /\
    match r with
    | Ok _ =>
        fs w' !! tempdir
        = Some (fold_left
                  (fun d shard =>
                     <[fst shard +:+ ".yml" := Docs (sorted_docs (snd shard))]> d)
                  by_key d) /\
        Forall (fun shard => sorted tuple_ltb sortkey (snd shard)
                             = Ok (sorted_docs (snd shard))) by_key
    | Err _ => is_Some (fs w' !! tempdir)
    end.
Proof.
  induction 1 as [|shard by_key Hn Hall IH]; intros w d r w' Hd; simpl.
  - unfold ret. intros H. inversion H. subst. split; [reflexivity|].
    split; [exact Hd | constructor].
  - unfold bind.
    destruct (write_place_shard tempdir shard w) as [r1 w1] eqn:H1.
    destruct (write_place_shard_spec tempdir shard w d r1 w1 Hn Hd H1)
      as [Hother Hr1].
    destruct r1 as [[]|e].
    + destruct Hr1 as [Ht Hs]. intros H2.
      destruct (IH w1 _ r w' Ht H2) as [Hother2 Hr2]. split.
      * intros p Hp. rewrite Hother2, Hother by exact Hp. reflexivity.
      * destruct r as [[]|e]; [|exact Hr2].
        destruct Hr2 as [Hfold Hall']. split; [exact Hfold | now constructor].
    + intros H. inversion H. subst. split; [exact Hother | exact Hr1].
Qed.

(** Every way the rewrite of the places can end, when the keys of the
    records make file names. *)
Lemma place_rewrite_outcomes (self : PlaceDatabase) (w : world)
    (r : result unit) (w' : world) :
  plain_keys (infos self) ->
  PlaceDatabase_rewrite self w = (r, w') ->
  (forall p, p <> pdb_dir self -> p <> pdb_dir self +:+ ".new" ->
             p <> pdb_dir self +:+ ".old" -> fs w' !! p = fs w !! p) /\
  match r with
  | Ok _ =>
      exists by_key,
        places_by_key (infos self) [] = Ok by_key /\
        Forall (fun shard => sorted tuple_ltb sortkey (snd shard)
                             = Ok (sorted_docs (snd shard))) by_key /\
        fs w' !! pdb_dir self = Some (place_files by_key) /\
        fs w' !! (pdb_dir self +:+ ".new") = None /\
        fs w' !! (pdb_dir self +:+ ".old") = None
  | Err _ =>
      fs w' !! pdb_dir self = fs w !! pdb_dir self \/
      (fs w' !! pdb_dir self = None /\
       fs w' !! (pdb_dir self +:+ ".old") = fs w !! pdb_dir self /\
       is_Some (fs w !! pdb_dir self)) \/
      (exists by_key,
         places_by_key (infos self) [] = Ok by_key /\
         fs w' !! pdb_dir self = Some (place_files by_key))
  end.
Proof.
  intros Hplain. unfold PlaceDatabase_rewrite.
  destruct (places_by_key (infos self) []) as [by_key|e] eqn:Hby.
  2:{ unfold bind, lift. intros H. inversion H. subst. split; [reflexivity | now left]. }
  rewrite bind_lift_ok.
  set (D := pdb_dir self). set (T := D +:+ ".new"). set (O := D +:+ ".old").
  assert (HDT : D <> T) by (now apply app_nonempty_neq).
  assert (HDO : D <> O) by (now apply app_nonempty_neq).
  assert (HTO : T <> O) by apply new_neq_old.
  destruct (mkdir_cases T w) as [(w1 & Hm & Hfree & Hfs1)|(w1 & Hm & Hfs1)].
  2:{ rewrite (bind_err _ _ _ _ _ Hm). intros H. inversion H. subst.
      rewrite Hfs1. split; [reflexivity | now left]. }
  rewrite (bind_ok _ _ _ _ _ Hm).
  assert (H1 : forall p, p <> T -> fs w1 !! p = fs w !! p).
  { intros p Hp. rewrite Hfs1. now apply lookup_insert_ne. }
  destruct (for_each by_key (write_place_shard T) w1) as [r2 w2] eqn:Hw.
  destruct (write_place_shards_full T by_key (plain_keys_shards _ _ Hplain Hby)
              w1 ∅ r2 w2) as [Hother Hr2];
    [rewrite Hfs1; apply lookup_insert_eq | exact Hw |].
  destruct r2 as [[]|e].
  2:{ rewrite (bind_err _ _ _ _ _ Hw). intros H. inversion H. subst. split.
      - intros p HpD HpT _. rewrite Hother, H1; auto.
      - left. rewrite Hother, H1; auto. }
  rewrite (bind_ok _ _ _ _ _ Hw). destruct Hr2 as [H2T Hsorted].
  fold (place_files by_key) in H2T. cbv zeta. fold D T O. intros Hswap.
  destruct (swap_spec D w2 (place_files by_key) r w' H2T Hswap) as [Hframe Hr].
  split.
  - intros p HpD HpT HpO. rewrite Hframe, Hother, H1; auto.
  - destruct r as [[]|e].
    + destruct Hr as (HD & HT' & HO'). exists by_key. repeat split; assumption.
    + destruct Hr as [Hr|[(Hn & Ho & Hs)|Hr]].
      * left. rewrite Hr, Hother, H1; auto.
      * right. left. rewrite Hother, H1 in Ho, Hs by auto. auto.
      * right. right. eauto.
Qed.

(** ** What a rewrite leaves alone *)




(** ** A temporary directory left behind *)

Lemma mkdir_taken (p : string) (w : world) (d : gmap string content) :
  fs w !! p = Some d ->
  exists w', mkdir p w = (Err OSError, w') /\ fs w' = fs w.
Proof.
  intros Hp. destruct (mkdir_cases p w) as [(w' & _ & Hfree & _)|(w' & Hm & Hfs)].
  - congruence.
  - eauto.
Qed.

Lemma imageset_rewrite_stale (folder_xml_text : string -> list ImageSet -> string)
    (self : ImagesetDatabase) (w : world) (d : gmap string content) :
  fs w !! (db_dir self +:+ ".new") = Some d ->
  exists w', ImagesetDatabase_rewrite folder_xml_text self w = (Err OSError, w') /\
             fs w' = fs w.
Proof.
  intros Hd. unfold ImagesetDatabase_rewrite.
  destruct (mkdir_taken _ w d Hd) as (w' & Hm & Hfs).
  rewrite (bind_err _ _ _ _ _ Hm). eauto.
Qed.

Lemma place_rewrite_stale (self : PlaceDatabase) (w : world)
    (d : gmap string content) (by_key : list (string * list (gmap string pyval))) :
  fs w !! (pdb_dir self +:+ ".new") = Some d ->
  places_by_key (infos self) [] = Ok by_key ->
  exists w', PlaceDatabase_rewrite self w = (Err OSError, w') /\ fs w' = fs w.
Proof.
  intros Hd Hby. unfold PlaceDatabase_rewrite. rewrite Hby, bind_lift_ok.
  destruct (mkdir_taken _ w d Hd) as (w' & Hm & Hfs).
  rewrite (bind_err _ _ _ _ _ Hm). eauto.
Qed.

(** A run stopped by a record without its partner, on a quiet disk,
    leaves the temporary directory behind. *)
Lemma partnerless_leaves_tempdir (self : PlaceDatabase) (w : world)
    (info : gmap string pyval) (by_key : list (string * list (gmap string pyval))) :
  faults w = [] ->
  fs w !! (pdb_dir self +:+ ".new") = None ->
  places_by_key (infos self) [] = Ok by_key ->
  In info (infos self) -> lacks_partner info ->
  exists e w1,
    PlaceDatabase_rewrite self w = (Err e, w1) /\
    is_Some (fs w1 !! (pdb_dir self +:+ ".new")).
Proof.
  intros Hq HT Hby Hin Hbad. unfold PlaceDatabase_rewrite.
  rewrite Hby, bind_lift_ok.
  rewrite (bind_ok _ _ _ _ _ (mkdir_quiet _ w Hq HT)).
  set (T := pdb_dir self +:+ ".new").
  set (w1 := set_fs (<[T := ∅]> (fs w)) w).
  destruct (for_each by_key (write_place_shard T) w1) as [r2 w2] eqn:Hw.
  assert (H2T : is_Some (fs w2 !! T)).
  { apply (write_place_shards_keeps T by_key w1 r2 w2 Hw).
    unfold w1. simpl. rewrite lookup_insert_eq. eauto. }
  destruct (places_by_key_holds _ _ _ Hby info (or_introl Hin))
    as (shard & Hs & Hinfo).
  destruct (sortkey_lacks_partner info Hbad) as (e & He & _).
  destruct (with_keys_fails sortkey (snd shard) info Hinfo (ex_intro _ e He))
    as (e' & He').
  destruct (write_place_shards_unsorted T by_key shard e' Hs
              (sorted_with_keys_fails _ _ _ _ He') w1 r2 w2 Hw) as (e2 & ->).
  rewrite (bind_err _ _ _ _ _ Hw). eauto.
Qed.

(** X6. When the sibling ".new" of a catalog directory exists, a rewrite
    fails at once with an OS error and changes nothing on the disk.  A
    run of the place rewrite that a record without its partner stops
    leaves that sibling behind; so after such a run every further rewrite
    of the places fails in this way, also once the records are mended, as
    long as ".new" is there. *)
Theorem leftover_tempdir_blocks_rewrites
    (folder_xml_text : string -> list ImageSet -> string) :
  (forall self w d,
      fs w !! (db_dir self +:+ ".new") = Some d ->
      exists w', ImagesetDatabase_rewrite folder_xml_text self w = (Err OSError, w') /\
                 fs w' = fs w) /\
  (forall self w d by_key,
      fs w !! (pdb_dir self +:+ ".new") = Some d ->
      places_by_key (infos self) [] = Ok by_key ->
      exists w', PlaceDatabase_rewrite self w = (Err OSError, w') /\ fs w' = fs w) /\
  (forall self self' w info by_key by_key',
      faults w = [] ->
      fs w !! (pdb_dir self +:+ ".new") = None ->
      places_by_key (infos self) [] = Ok by_key ->
      In info (infos self) -> lacks_partner info ->
      pdb_dir self' = pdb_dir self ->
      places_by_key (infos self') [] = Ok by_key' ->
      exists e w1 w2,
        PlaceDatabase_rewrite self w = (Err e, w1) /\
        PlaceDatabase_rewrite self' w1 = (Err OSError, w2) /\
        fs w2 = fs w1).
Proof.
  split; [exact (imageset_rewrite_stale folder_xml_text) | split].
  - exact place_rewrite_stale.
  - intros self self' w info by_key by_key' Hq HT Hby Hin Hbad Hdir Hby'.
    destruct (partnerless_leaves_tempdir self w info by_key Hq HT Hby Hin Hbad)
      as (e & w1 & Hrun & [d Hd]).
    rewrite <- Hdir in Hd.
    destruct (place_rewrite_stale self' w1 d by_key' Hd Hby') as (w2 & Hrun2 & Hfs).
    exists e, w1, w2. auto.
Qed.

Lemma leftover_tempdir_blocks_rewrites_witness :
  exists e w1 w2,
    PlaceDatabase_rewrite two_shard_pdb places_disk = (Err e, w1) /\
    PlaceDatabase_rewrite mended_pdb w1 = (Err OSError, w2) /\
    fs w2 = fs w1.
Proof.
  apply (proj2 (proj2 (leftover_tempdir_blocks_rewrites sample_xml_text))
           two_shard_pdb mended_pdb places_disk place_no_ra
           [("sky", [place_vega]); ("earth", [place_no_ra])]
           [("sky", [place_vega])]).
  - reflexivity.
  - reflexivity.
  - vm_compute. reflexivity.
  - right. left. reflexivity.
  - left. split; reflexivity.
  - reflexivity.
  - vm_compute. reflexivity.
Defined.

(** ** The records in the place files *)

Lemma places_by_key_fold (l : list (gmap string pyval)) :
  forall acc by_key,
    places_by_key l acc = Ok by_key ->
    by_key = fold_left (group_step place_key_or_empty) l acc /\
    Forall (fun x => place_key x = Ok (place_key_or_empty x)) l.
Proof.
  induction l as [|info l IH]; intros acc by_key H; simpl in H.
  - inversion H. split; [reflexivity | constructor].
  - destruct (place_key info) as [key|e] eqn:Hk; [|discriminate]. cbn [rbind] in H.
    destruct (IH _ _ H) as [E Hall]. split.
    + simpl. unfold group_step at 2, place_key_or_empty at 2. now rewrite Hk.
    + constructor; [|exact Hall]. unfold place_key_or_empty. now rewrite Hk.
Qed.

Lemma insert_by_perm {A K} (lt : K -> K -> result bool) (x : K * A)
    (l r : list (K * A)) :
  insert_by lt x l = Ok r -> Permutation r (x :: l).
Proof.
  revert r. induction l as [|y l IH]; intros r H; simpl in H.
  - inversion H. reflexivity.
  - destruct (lt (fst y) (fst x)) as [[|]|e]; simpl in H; try discriminate.
    + destruct (insert_by lt x l) as [r'|e]; simpl in H; [|discriminate].
      inversion H. rewrite (IH r' eq_refl). apply perm_swap.
    + inversion H. reflexivity.
Qed.

Lemma sort_by_perm {A K} (lt : K -> K -> result bool) (l r : list (K * A)) :
  sort_by lt l = Ok r -> Permutation r l.
Proof.
  revert r. induction l as [|x l IH]; intros r H; simpl in H.
  - inversion H. reflexivity.
  - destruct (sort_by lt l) as [r'|e]; simpl in H; [|discriminate].
    rewrite (insert_by_perm lt x r' r H). constructor. now apply IH.
Qed.

Lemma with_keys_items {A K} (key : A -> result K) (l : list A) (kl : list (K * A)) :
  with_keys key l = Ok kl -> map snd kl = l.
Proof.
  revert kl. induction l as [|x l IH]; intros kl H; simpl in H.
  - inversion H. reflexivity.
  - destruct (key x) as [k|e]; simpl in H; [|discriminate].
    destruct (with_keys key l) as [kl'|e]; simpl in H; [|discriminate].
    inversion H. simpl. now rewrite (IH kl' eq_refl).
Qed.

(** What [sorted] returns is what it was given, in some order. *)
Lemma sorted_perm {A K} (lt : K -> K -> result bool) (key : A -> result K)
    (l docs : list A) :
  sorted lt key l = Ok docs -> Permutation docs l.
Proof.
  unfold sorted. intros H.
  destruct (with_keys key l) as [kl|e] eqn:Hk; simpl in H; [|discriminate].
  destruct (sort_by lt kl) as [r|e] eqn:Hs; simpl in H; [|discriminate].
  inversion H. rewrite <- (with_keys_items key l kl Hk).
  apply Permutation_map. exact (sort_by_perm lt kl r Hs).
Qed.

Lemma place_files_list_to_map (by_key : list (string * list (gmap string pyval))) :
  place_files by_key
  = list_to_map
      (rev (map (fun shard => (fst shard +:+ ".yml", Docs (sorted_docs (snd shard))))
                by_key)).
Proof.
  unfold place_files.
  exact (fold_insert_list_to_map
           (fun shard : string * list (gmap string pyval) =>
              (fst shard +:+ ".yml", Docs (sorted_docs (snd shard)))) by_key ∅).
Qed.

(** The files of the place catalog, one for each shard. *)
Lemma place_files_lookup (by_key : list (string * list (gmap string pyval)))
    (fname : string) (c : content) :
  NoDup (map fst by_key) ->
  (place_files by_key !! fname = Some c <->
   exists k g, In (k, g) by_key /\ fname = k +:+ ".yml" /\ c = Docs (sorted_docs g)).
Proof.
  intros Hnd. rewrite place_files_list_to_map.
  set (F := fun shard : string * list (gmap string pyval) =>
              (fst shard +:+ ".yml", Docs (sorted_docs (snd shard)))).
  rewrite <- elem_of_list_to_map.
  - rewrite list_elem_of_In, <- in_rev, in_map_iff. split.
    + intros ([k g] & E & Hin). inversion E. eauto.
    + intros (k & g & Hin & -> & ->). exists (k, g). split; [reflexivity | exact Hin].
  - rewrite <- Permutation_rev.
    change (NoDup (map fst (map F by_key))).
    rewrite map_map. simpl. rewrite <- (map_map fst (fun k => k +:+ ".yml")).
    apply NoDup_map_inj; [intros a b; apply app_inj_r | exact Hnd].
Qed.

(** X7. When the partition key of every record held makes a file name,
    the rewrite of the places commits as the rewrite of the imagesets
    does.  When it succeeds, the keys of all records computed and the
    catalog directory is exactly one file for each shard.  When it fails,
    the old directory is untouched at its path, or it is untouched at the
    sibling ".old" with nothing at its path, or the new files are already
    in place. *)
Theorem place_rewrite_swap_outcomes (self : PlaceDatabase) (w : world)
    (r : result unit) (w' : world) :
  plain_keys (infos self) ->
  PlaceDatabase_rewrite self w = (r, w') ->
  match r with
  | Ok _ =>
      exists by_key,
        places_by_key (infos self) [] = Ok by_key /\
        fs w' !! pdb_dir self = Some (place_files by_key)
  | Err _ =>
      fs w' !! pdb_dir self = fs w !! pdb_dir self \/
      (fs w' !! pdb_dir self = None /\
       fs w' !! (pdb_dir self +:+ ".old") = fs w !! pdb_dir self /\
       is_Some (fs w !! pdb_dir self)) \/
      (exists by_key,
         places_by_key (infos self) [] = Ok by_key /\
         fs w' !! pdb_dir self = Some (place_files by_key))
  end.
Proof.
  intros Hplain Hrun.
  destruct (place_rewrite_outcomes self w r w' Hplain Hrun) as [_ Hr].
  destruct r as [[]|e]; [|exact Hr].
  destruct Hr as (by_key & Hby & _ & HD & _). eauto.
Qed.

Lemma place_rewrite_swap_outcomes_witness :
  let w' := snd (PlaceDatabase_rewrite two_shard_pdb places_disk) in
  fs w' !! pdb_dir two_shard_pdb = fs places_disk !! pdb_dir two_shard_pdb \/
  (fs w' !! pdb_dir two_shard_pdb = None /\
   fs w' !! (pdb_dir two_shard_pdb +:+ ".old")
   = fs places_disk !! pdb_dir two_shard_pdb /\
   is_Some (fs places_disk !! pdb_dir two_shard_pdb)) \/
  (exists by_key,
     places_by_key (infos two_shard_pdb) [] = Ok by_key /\
     fs w' !! pdb_dir two_shard_pdb = Some (place_files by_key)).
Proof.
  apply (place_rewrite_swap_outcomes two_shard_pdb places_disk
           (Err (KeyError "ra_hr"))
           (snd (PlaceDatabase_rewrite two_shard_pdb places_disk))).
  - repeat constructor.
  - vm_compute. reflexivity.
Defined.

(** X8. When the partition key of every record held makes a file name,
    a successful rewrite of the places keeps the records as they are
    held: every record is in the file named after its key, and every file
    of the catalog directory is named after a key and holds, in some
    order, exactly the records held with that key, at least one.  No
    record is dropped, merged with another, or written twice. *)
Theorem place_rewrite_keeps_records (self : PlaceDatabase) (w w' : world) :
  plain_keys (infos self) ->
  PlaceDatabase_rewrite self w = (Ok tt, w') ->
  exists dir,
    fs w' !! pdb_dir self = Some dir /\
    (forall info, In info (infos self) ->
       exists k docs,
         place_key info = Ok k /\
         dir !! (k +:+ ".yml") = Some (Docs docs) /\ In info docs) /\
    (forall fname c, dir !! fname = Some c ->
       exists k docs,
         fname = k +:+ ".yml" /\ c = Docs docs /\ docs <> [] /\
         Permutation docs
           (List.filter (fun x => String.eqb (place_key_or_empty x) k) (infos self))).
Proof.
  intros Hplain Hrun.
  destruct (place_rewrite_outcomes self w _ w' Hplain Hrun) as [_ Hr].
  destruct Hr as (by_key & Hby & Hsorted & HD & _).
  destruct (places_by_key_fold _ _ _ Hby) as [Efold Hkeys].
  destruct (group_fold place_key_or_empty (infos self) [])
    as (Hnd & Hne & Hget); [constructor | constructor |].
  rewrite <- Efold in Hnd, Hne, Hget.
  rewrite List.Forall_forall in Hsorted, Hkeys.
  exists (place_files by_key). split; [exact HD | split].
  - intros info Hin. set (k := place_key_or_empty info).
    assert (Hmem : In info (group_get k by_key)).
    { rewrite Hget. simpl. apply filter_In. split; [exact Hin|].
      apply String.eqb_refl. }
    assert (Hshard : In (k, group_get k by_key) by_key).
    { apply group_get_in. intros E. rewrite E in Hmem. destruct Hmem. }
    exists k, (sorted_docs (group_get k by_key)). split; [exact (Hkeys info Hin)|].
    split.
    + apply (place_files_lookup by_key _ _ Hnd). eauto.
    + pose proof (Hsorted _ Hshard) as Hs. simpl in Hs.
      apply sorted_perm in Hs. now apply (Permutation_in _ (Permutation_sym Hs)).
  - intros fname c Hc.
    apply (place_files_lookup by_key _ _ Hnd) in Hc.
    destruct Hc as (k & g & Hin & -> & ->).
    pose proof (Hsorted _ Hin) as Hs. simpl in Hs. apply sorted_perm in Hs.
    rewrite Efold in Hin.
    destruct (group_fold_elem place_key_or_empty (infos self) k g Hin) as [Eg Hg].
    exists k, (sorted_docs g). repeat split.
    + intros E. rewrite E in Hs. apply Permutation_nil in Hs. contradiction.
    + now rewrite <- Eg.
Qed.

Lemma place_rewrite_keeps_records_witness :
  exists dir,
    fs (snd (PlaceDatabase_rewrite three_places_pdb places_disk))
      !! pdb_dir three_places_pdb = Some dir /\
    (forall info, In info (infos three_places_pdb) ->
       exists k docs,
         place_key info = Ok k /\
         dir !! (k +:+ ".yml") = Some (Docs docs) /\ In info docs) /\
    (forall fname c, dir !! fname = Some c ->
       exists k docs,
         fname = k +:+ ".yml" /\ c = Docs docs /\ docs <> [] /\
         Permutation docs
           (List.filter (fun x => String.eqb (place_key_or_empty x) k)
              (infos three_places_pdb))).
Proof.
  apply (place_rewrite_keeps_records three_places_pdb places_disk
           (snd (PlaceDatabase_rewrite three_places_pdb places_disk))).
  - repeat constructor.
  - vm_compute. reflexivity.
Defined.

(** ** Records whose partition key does not compute *)

Lemma place_key_uncomputable (info : gmap string pyval) :
  key_uncomputable info ->
  (exists e, place_key info = Err e) /\
  (info !! "data_set_type" = None -> place_key info = Err (KeyError "data_set_type")).
Proof.
  intros Hbad. unfold key_uncomputable in Hbad. unfold place_key, dict_item.
  destruct (info !! "data_set_type") as [dst|] eqn:Hd.
  2:{ split; [eauto | reflexivity]. }
  split; [|discriminate]. cbn [rbind].
  destruct (dict_get info "ra_hr") as [|s|r] eqn:Hra;
    cbn [is_not_none math_floor rbind]; [| eauto |];
    (destruct (dict_get info "longitude") as [|t|q] eqn:Hlon;
     cbn [is_not_none math_floor rbind]; [| eauto |]);
    (assert (Hdst : dst = VNone \/ exists q, dst = VNum q)
       by (destruct Hbad as [Hb|[Hb|[[x Hb]|[[x Hb]|[x Hb]]]]];
           [ discriminate | inversion Hb; auto | inversion Hb; eauto
           | discriminate | discriminate ]));
    destruct Hdst as [->|[x ->]]; unfold py_join; simpl; eauto.
Qed.

Lemma places_by_key_fails (l : list (gmap string pyval)) (info : gmap string pyval) :
  In info l -> (exists e, place_key info = Err e) ->
  forall acc, exists e, places_by_key l acc = Err e.
Proof.
  induction l as [|x l IH]; intros Hin Hbad acc; [destruct Hin|]. simpl.
  destruct (place_key x) as [k|e] eqn:Hk; [|eauto]. cbn [rbind].
  destruct Hin as [->|Hin].
  - destruct Hbad as (e & He). congruence.
  - exact (IH Hin Hbad _).
Qed.

(** X9. When some record held has no partition key (no [data_set_type],
    one that is not a string, or a string for [ra_hr] or [longitude]),
    the rewrite of the places raises before any call to the file system:
    the world, disk and fault schedule included, is exactly as it was, and
    no temporary directory exists because of the run.  A record without
    [data_set_type] raises the missing-key error for that name. *)
Theorem uncomputable_key_stops_before_disk (self : PlaceDatabase) (w : world)
    (info : gmap string pyval) :
  In info (infos self) -> key_uncomputable info ->
  (exists e, PlaceDatabase_rewrite self w = (Err e, w)) /\
  (info !! "data_set_type" = None -> place_key info = Err (KeyError "data_set_type")).
Proof.
  intros Hin Hbad. destruct (place_key_uncomputable info Hbad) as [Herr Hkey].
  split; [|exact Hkey].
  destruct (places_by_key_fails (infos self) info Hin Herr []) as (e & He).
  exists e. unfold PlaceDatabase_rewrite. now rewrite He.
Qed.

Lemma uncomputable_key_stops_before_disk_witness :
  (exists e, PlaceDatabase_rewrite untyped_pdb places_disk = (Err e, places_disk)) /\
  (place_untyped !! "data_set_type" = None ->
   place_key place_untyped = Err (KeyError "data_set_type")).
Proof.
  apply (uncomputable_key_stops_before_disk untyped_pdb places_disk place_untyped).
  - right. left. reflexivity.
  - left. reflexivity.
Defined.

(** ** Rewriting an empty store *)




(** ** The walk of [do_ingest] *)

Lemma url_in_get (u : string) (d : list (string * ImageSet)) :
  url_in u d = true <-> is_Some (by_url_get u d).
Proof.
  split.
  - intros Hin. destruct (by_url_get u d) eqn:Hg; [eauto|].
    apply url_in_spec, in_map_iff in Hin. destruct Hin as (kv & E & Hkv).
    unfold by_url_get in Hg.
    destruct (find (fun kv => String.eqb (fst kv) u) d) eqn:Hf; [discriminate|].
    apply (find_none _ _ Hf) in Hkv. rewrite E, String.eqb_refl in Hkv.
    discriminate.
  - intros [s Hs]. destruct (url_in u d) eqn:Hin; [reflexivity|].
    rewrite (by_url_get_none u d Hin) in Hs. discriminate.
Qed.

Lemma ingest_items_spec (items : list item) :
  forall (idb : ImagesetDatabase) (pdb : PlaceDatabase) (w : world),
  exists idb' pdb' w',
    ingest_items items idb pdb w = (Ok (idb', pdb'), w') /\
    fs w' = fs w /\ faults w' = faults w /\
    db_dir idb' = db_dir idb /\ pdb_dir pdb' = pdb_dir pdb /\
    infos pdb' = infos pdb ++ map place_info (items_places items) /\
    (forall p f u, In p (items_places items) -> In f url_fields ->
                   place_info p !! f = Some (VStr u) ->
                   url_in u (by_url idb') = true) /\
    (forall s, In (ItemImageSet s) items -> url_in (url s) (by_url idb') = true) /\
    (forall u, url_in u (by_url idb) = true ->
               url_in u (by_url idb') = true /\
               by_url_get u (by_url idb') = by_url_get u (by_url idb)).
Proof.
  induction items as [|[s|p|] items IH]; intros idb pdb w; simpl.
  - exists idb, pdb, w. split; [reflexivity|]. rewrite app_nil_r.
    repeat split; auto; contradiction.
  - destruct (add_imageset_grows s idb w)
      as (idb1 & w1 & H1 & Hfs1 & Hfl1 & Hd1 & Hnew1 & Hold1).
    rewrite (bind_ok _ _ _ _ _ H1).
    destruct (IH idb1 pdb w1)
      as (idb' & pdb' & w' & Hrun & Hfs & Hfl & Hd & Hpd & Hinfos & Hrefs & Hsets & Hold).
    exists idb', pdb', w'. split; [exact Hrun|].
    split; [congruence|]. split; [congruence|]. split; [congruence|].
    split; [exact Hpd|]. split; [exact Hinfos|]. split; [exact Hrefs|]. split.
    + intros s' [E|Hin]; [inversion E; subst; now apply Hold | now apply Hsets].
    + intros u Hu. destruct (Hold1 u Hu) as [Ha Ea]. destruct (Hold u Ha) as [Hb Eb].
      split; [exact Hb | congruence].
  - destruct (ingest_place_spec p pdb idb w)
      as (idb1 & w1 & H1 & Hfs1 & Hfl1 & Hd1 & Hnew1 & Hold1).
    rewrite (bind_ok _ _ _ _ _ H1). simpl fst. simpl snd.
    destruct (IH idb1 {| pdb_dir := pdb_dir pdb;
                         infos := infos pdb ++ [place_info p] |} w1)
      as (idb' & pdb' & w' & Hrun & Hfs & Hfl & Hd & Hpd & Hinfos & Hrefs & Hsets & Hold).
    exists idb', pdb', w'. split; [exact Hrun|].
    split; [congruence|]. split; [congruence|]. split; [congruence|].
    split; [exact Hpd|]. split.
    + rewrite Hinfos. simpl. now rewrite <- app_assoc.
    + split; [|split].
      * intros p' f u [<-|Hin] Hf Hu; [|exact (Hrefs p' f u Hin Hf Hu)].
        apply Hold. exact (Hnew1 f u Hf Hu).
      * intros s' [E|Hin]; [discriminate | now apply Hsets].
      * intros u Hu. destruct (Hold1 u Hu) as [Ha Ea].
        destruct (Hold u Ha) as [Hb Eb]. split; [exact Hb | congruence].
  - destruct (IH idb pdb w)
      as (idb' & pdb' & w' & Hrun & Hfs & Hfl & Hd & Hpd & Hinfos & Hrefs & Hsets & Hold).
    exists idb', pdb', w'. split; [exact Hrun|].
    repeat split; auto; try (now apply Hold).
    intros s' [E|Hin]; [discriminate | now apply Hsets].
Qed.

(** X11. The walk of an ingest never raises and leaves the disk alone.
    Afterwards the places held are those held before followed by the
    distilled records of the places walked, in the order of the walk;
    every url in a url field of these records, and the url of every
    imageset walked, is a key of the imageset store; and every imageset
    held before the walk is held unchanged, so that a url met again in the
    file never replaces it. *)
Theorem ingest_walk_resolves_references (items : list item)
    (idb : ImagesetDatabase) (pdb : PlaceDatabase) (w : world) :
  exists idb' pdb' w',
    ingest_items items idb pdb w = (Ok (idb', pdb'), w') /\
    fs w' = fs w /\
    infos pdb' = infos pdb ++ map place_info (items_places items) /\
    (forall p f u, In p (items_places items) -> In f url_fields ->
                   place_info p !! f = Some (VStr u) ->
                   is_Some (by_url_get u (by_url idb'))) /\
    (forall s, In (ItemImageSet s) items ->
               is_Some (by_url_get (url s) (by_url idb'))) /\
    (forall u s, by_url_get u (by_url idb) = Some s ->
                 by_url_get u (by_url idb') = Some s).
Proof.
  destruct (ingest_items_spec items idb pdb w)
    as (idb' & pdb' & w' & Hrun & Hfs & _ & _ & _ & Hinfos & Hrefs & Hsets & Hold).
  exists idb', pdb', w'. split; [exact Hrun|]. split; [exact Hfs|].
  split; [exact Hinfos|]. split; [|split].
  - intros p f u Hp Hf Hu. apply url_in_get. exact (Hrefs p f u Hp Hf Hu).
  - intros s Hs. apply url_in_get. exact (Hsets s Hs).
  - intros u s Hs. rewrite <- Hs. apply Hold. apply url_in_get. eauto.
Qed.

Lemma items_places_in (items : list item) (p : Place) :
  In (ItemPlace p) items -> In p (items_places items).
Proof.
  induction items as [|[s|q|] items IH]; simpl; intros Hin.
  - destruct Hin.
  - destruct Hin as [E|Hin]; [discriminate | now apply IH].
  - destruct Hin as [E|Hin]; [inversion E; now left | right; now apply IH].
  - destruct Hin as [E|Hin]; [discriminate | now apply IH].
Qed.

(** The stores that a walk returns do not depend on the world. *)
Lemma add_imageset_store (imgset : ImageSet) (idb : ImagesetDatabase) (w w0 : world) :
  fst (add_imageset imgset idb w) = fst (add_imageset imgset idb w0).
Proof. unfold add_imageset. destruct (url_in (url imgset) (by_url idb)); reflexivity. Qed.

Lemma add_if_some_store (s : option ImageSet) (idb : ImagesetDatabase) (w w0 : world) :
  fst (add_if_some s idb w) = fst (add_if_some s idb w0).
Proof. destruct s; [apply add_imageset_store | reflexivity]. Qed.

Lemma ingest_place_store (place : Place) (pdb : PlaceDatabase)
    (idb : ImagesetDatabase) (w w0 : world) :
  fst (ingest_place place pdb idb w) = fst (ingest_place place pdb idb w0).
Proof.
  unfold ingest_place.
  destruct (add_if_some_grows (p_image_set place) idb w) as (i1 & w1 & H1 & _).
  destruct (add_if_some_grows (p_image_set place) idb w0) as (j1 & v1 & G1 & _).
  pose proof (add_if_some_store (p_image_set place) idb w w0) as E1.
  rewrite H1, G1 in E1. inversion E1. subst j1.
  rewrite (bind_ok _ _ _ _ _ H1), (bind_ok _ _ _ _ _ G1).
  destruct (add_if_some_grows (p_foreground_image_set place) i1 w1)
    as (i2 & w2 & H2 & _).
  destruct (add_if_some_grows (p_foreground_image_set place) i1 v1)
    as (j2 & v2 & G2 & _).
  pose proof (add_if_some_store (p_foreground_image_set place) i1 w1 v1) as E2.
  rewrite H2, G2 in E2. inversion E2. subst j2.
  rewrite (bind_ok _ _ _ _ _ H2), (bind_ok _ _ _ _ _ G2).
  destruct (add_if_some_grows (p_background_image_set place) i2 w2)
    as (i3 & w3 & H3 & _).
  destruct (add_if_some_grows (p_background_image_set place) i2 v2)
    as (j3 & v3 & G3 & _).
  pose proof (add_if_some_store (p_background_image_set place) i2 w2 v2) as E3.
  rewrite H3, G3 in E3. inversion E3. subst j3.
  rewrite (bind_ok _ _ _ _ _ H3), (bind_ok _ _ _ _ _ G3). reflexivity.
Qed.

Lemma ingest_items_store (items : list item) :
  forall (idb : ImagesetDatabase) (pdb : PlaceDatabase) (w w0 : world),
    fst (ingest_items items idb pdb w) = fst (ingest_items items idb pdb w0).
Proof.
  induction items as [|[s|p|] items IH]; intros idb pdb w w0; simpl.
  - reflexivity.
  - destruct (add_imageset_grows s idb w) as (i1 & w1 & H1 & _).
    destruct (add_imageset_grows s idb w0) as (j1 & v1 & G1 & _).
    pose proof (add_imageset_store s idb w w0) as E1.
    rewrite H1, G1 in E1. inversion E1. subst j1.
    rewrite (bind_ok _ _ _ _ _ H1), (bind_ok _ _ _ _ _ G1). apply IH.
  - destruct (ingest_place_spec p pdb idb w) as (i1 & w1 & H1 & _).
    destruct (ingest_place_spec p pdb idb w0) as (j1 & v1 & G1 & _).
    pose proof (ingest_place_store p pdb idb w w0) as E1.
    rewrite H1, G1 in E1. inversion E1. subst j1.
    rewrite (bind_ok _ _ _ _ _ H1), (bind_ok _ _ _ _ _ G1). apply IH.
  - apply IH.
Qed.



(** ** Lines that [prettify] lets through *)

Lemma all_chars_app (p : ascii -> bool) (a b : string) :
  all_chars p (a +:+ b) = all_chars p a && all_chars p b.
Proof.
  induction a as [|c a IH]; [reflexivity|].
  rewrite app_cons. simpl. now rewrite IH, andb_assoc.
Qed.

(** After the indent comes something that is not [<]. *)
Lemma no_start_without_lt (ws rest : string) :
  all_chars is_space ws = true ->
  match rest with
  | EmptyString => True
  | String c _ => is_space c = false /\ c <> "<"%char
  end ->
  match_start_attr_tag (ws +:+ rest) = None.
Proof.
  intros Hws Hrest. unfold match_start_attr_tag.
  rewrite (span_app is_space ws rest Hws)
    by (destruct rest; [exact I | simpl; tauto]).
  destruct rest as [|c rest]; [reflexivity|]. destruct Hrest as [_ Hc].
  split_char c; try reflexivity. contradiction.
Qed.

(** After the tag name comes the end of the line, or something that is
    not white space. *)
Lemma no_start_without_space (ws tag rest : string) :
  all_chars is_space ws = true ->
  all_chars is_tag_char tag = true ->
  match rest with
  | EmptyString => True
  | String c _ => is_space c = false /\ is_tag_char c = false
  end ->
  match_start_attr_tag (ws +:+ "<" +:+ tag +:+ rest) = None.
Proof.
  intros Hws Htag Hrest. unfold match_start_attr_tag.
  rewrite (span_app is_space ws) by (try exact Hws; reflexivity).
  rewrite app_cons, app_nil_l. cbv beta iota.
  rewrite (span_app is_tag_char tag rest Htag)
    by (destruct rest; [exact I | simpl; tauto]).
  destruct (is_empty tag); [reflexivity|].
  destruct rest as [|c rest]; [reflexivity|]. destruct Hrest as [Hc _].
  now rewrite Hc.
Qed.

Lemma pretty_line_unmatched (line : string) :
  match_start_attr_tag line = None -> pretty_line line = Ok [line].
Proof. intros H. unfold pretty_line. now rewrite H. Qed.

(** X13. [prettify] splits a tag only when white space follows the tag
    name.  A line whose first character after the indent is not [<], and
    a line whose tag name is followed by the end of the line or by a
    character that is neither white space nor part of a name (a closing
    tag, a declaration, a tag closed right after its name), is printed as
    it is; so a self-ending tag without a space before the slash is not
    expanded. *)
Theorem prettify_line_passes_through (out_stream : stream) (w : world) :
  (forall ws rest,
      all_chars is_space ws = true ->
      match rest with
      | EmptyString => True
      | String c _ => is_space c = false /\ c <> "<"%char
      end ->
      prettify_line (ws +:+ rest) out_stream w = print (ws +:+ rest) out_stream w) /\
  (forall ws tag rest,
      all_chars is_space ws = true ->
      all_chars is_tag_char tag = true ->
      match rest with
      | EmptyString => True
      | String c _ => is_space c = false /\ is_tag_char c = false
      end ->
      prettify_line (ws +:+ "<" +:+ tag +:+ rest) out_stream w
      = print (ws +:+ "<" +:+ tag +:+ rest) out_stream w).
Proof.
  split.
  - intros ws rest Hws Hrest. unfold prettify_line.
    now rewrite (no_start_without_lt ws rest Hws Hrest).
  - intros ws tag rest Hws Htag Hrest. unfold prettify_line.
    now rewrite (no_start_without_space ws tag rest Hws Htag Hrest).
Qed.

Lemma prettify_line_passes_through_witness :
  prettify_line "  <foo/>" Stdout quiet_world = print "  <foo/>" Stdout quiet_world /\
  prettify_line "</Folder>" Stdout quiet_world = print "</Folder>" Stdout quiet_world.
Proof.
  split.
  - apply (proj2 (prettify_line_passes_through Stdout quiet_world) "  " "foo" "/>").
    + reflexivity.
    + reflexivity.
    + split; reflexivity.
  - apply (proj2 (prettify_line_passes_through Stdout quiet_world)
             EmptyString EmptyString "/Folder>").
    + reflexivity.
    + reflexivity.
    + split; reflexivity.
Defined.

(** ** [prettify] on its own output *)

Lemma match_start_attr_tag_inv (line indent tag after : string) :
  match_start_attr_tag line = Some (indent, tag, after) ->
  exists c,
    line = indent +:+ "<" +:+ tag +:+ String c after /\
    all_chars is_space indent = true /\ is_empty tag = false /\
    all_chars is_tag_char tag = true /\ is_space c = true.
Proof.
  unfold match_start_attr_tag.
  destruct (span is_space line) as [ws r] eqn:Hs.
  apply span_inv in Hs. destruct Hs as (E & Hws & _). subst line.
  destruct r as [|c r]; [discriminate|].
  split_char c; try discriminate.
  destruct (span is_tag_char r) as [t r2] eqn:Ht.
  apply span_inv in Ht. destruct Ht as (E & Htag & _). subst r.
  destruct (is_empty t) eqn:Hne; [discriminate|].
  destruct r2 as [|c r3]; [discriminate|].
  destruct (is_space c) eqn:Hc; [|discriminate].
  intros H. inversion H. subst. exists c. repeat split; assumption.
Qed.

Lemma attr_text_names (attrs : list (string * string)) (se : bool) (s : string) :
  attr_text attrs se s ->
  Forall (fun kv => is_empty (fst kv) = false /\ all_chars is_word (fst kv) = true)
         attrs.
Proof.
  induction 1 as [ws se Hws | ws n v attrs se rest Hws Hne Hn Hv Ht IH];
    constructor; auto.
Qed.

Lemma word_not_lt (c : ascii) : is_word c = true -> c <> "<"%char.
Proof. intros H E. subst c. discriminate. Qed.

Lemma attr_line_unmatched (indent : string) (kv : string * string) :
  all_chars is_space indent = true ->
  is_empty (fst kv) = false -> all_chars is_word (fst kv) = true ->
  match_start_attr_tag (attr_line indent kv) = None.
Proof.
  intros Hi Hne Hn. unfold attr_line, attr_source.
  destruct (is_empty_false _ Hne) as (c & n' & En). rewrite En in *.
  simpl in Hn. apply andb_true_iff in Hn. destruct Hn as [Hc _].
  rewrite <- string_app_assoc.
  apply no_start_without_lt.
  - rewrite all_chars_app, Hi. reflexivity.
  - rewrite app_cons. split; [now apply word_not_space | now apply word_not_lt].
Qed.

Lemma closing_line_unmatched (indent tag : string) (se : bool) :
  all_chars is_space indent = true ->
  match_start_attr_tag (closing_line indent tag se) = None.
Proof.
  intros Hi. unfold closing_line.
  destruct se; apply no_start_without_lt; try exact Hi; split;
    [reflexivity | discriminate | reflexivity | discriminate].
Qed.

Lemma open_line_unmatched (indent tag : string) :
  all_chars is_space indent = true -> all_chars is_tag_char tag = true ->
  match_start_attr_tag (indent +:+ "<" +:+ tag) = None.
Proof.
  intros Hi Ht. rewrite <- (string_app_nil_r tag).
  now apply no_start_without_space.
Qed.

(** Every line that comes out of a line goes through unchanged. *)
Lemma pretty_line_fixed (line : string) (ls : list string) :
  pretty_line line = Ok ls -> Forall (fun l => pretty_line l = Ok [l]) ls.
Proof.
  unfold pretty_line at 1.
  destruct (match_start_attr_tag line) as [[[indent tag] after]|] eqn:Hm.
  2:{ intros H. inversion H. constructor; [|constructor].
      now apply pretty_line_unmatched. }
  destruct (match_start_attr_tag_inv _ _ _ _ Hm) as (c & _ & Hi & _ & Ht & _).
  destruct (parse_attrs (rstrip after)) as [[attrs se]|e] eqn:Hp; [|discriminate].
  cbn [rbind fst snd]. rewrite sorted_items. cbn [rbind].
  intros H. inversion H. subst ls. clear H.
  destruct (parse_attrs_inv _ _ _ Hp (rstrip_idem after)) as [Htext Hnd].
  destruct (sorted_items_by_name attrs Hnd) as [Hperm _].
  pose proof (attr_text_names _ _ _ Htext) as Hnames.
  constructor; [apply pretty_line_unmatched; now apply open_line_unmatched|].
  apply Forall_app. split.
  - apply List.Forall_forall. intros l Hl. apply in_map_iff in Hl.
    destruct Hl as (kv & <- & Hkv).
    apply (Permutation_in _ Hperm) in Hkv.
    rewrite List.Forall_forall in Hnames. destruct (Hnames kv Hkv) as [Hne Hn].
    apply pretty_line_unmatched. now apply attr_line_unmatched.
  - constructor; [|constructor].
    apply pretty_line_unmatched. now apply closing_line_unmatched.
Qed.

Lemma pretty_lines_fixed_all (out : list string) :
  Forall (fun l => pretty_line l = Ok [l]) out -> pretty_lines out = (out, None).
Proof.
  induction 1 as [|l out Hl Hall IH]; simpl; [reflexivity|].
  now rewrite Hl, IH.
Qed.

Lemma pretty_lines_out_fixed (lines : list string) :
  Forall (fun l => pretty_line l = Ok [l]) (fst (pretty_lines lines)).
Proof.
  induction lines as [|l lines IH]; simpl; [constructor|].
  destruct (pretty_line l) as [ls|e] eqn:Hl; [|constructor].
  destruct (pretty_lines lines) as [out err]. simpl in *.
  apply Forall_app. split; [exact (pretty_line_fixed l ls Hl) | exact IH].
Qed.

(** X14. What [prettify] prints is a fixed point of [prettify]: run on
    the lines that a first run printed (all of them, or those printed
    before a failed assertion), the loop fails no assertion and prints
    every line as it is. *)
Theorem prettify_output_is_fixed (lines : list string) (out_stream : stream)
    (w : world) :
  pretty_lines (fst (pretty_lines lines)) = (fst (pretty_lines lines), None) /\
  for_each (fst (pretty_lines lines)) (fun line => prettify_line line out_stream) w
  = print_all (fst (pretty_lines lines)) out_stream w.
Proof.
  pose proof (pretty_lines_fixed_all _ (pretty_lines_out_fixed lines)) as Hfix.
  split; [exact Hfix|].
  rewrite prettify_loop_pure, Hfix. simpl fst. simpl snd.
  now rewrite bind_ret_tt.
Qed.

(** ** Tag lines that do not finish their tag *)

Lemma prettify_line_no_attr_text (line indent tag after : string)
    (out_stream : stream) (w : world) :
  match_start_attr_tag line = Some (indent, tag, after) ->
  (forall attrs self_ending, ~ attr_text attrs self_ending (rstrip after)) ->
  prettify_line line out_stream w = (Err AssertionError, w).
Proof.
  intros Hm Hbad. unfold prettify_line. rewrite Hm.
  destruct (parse_attrs_total (rstrip after)) as [[[attrs se] Hp]|Hp].
  - exfalso. destruct (parse_attrs_inv _ _ _ Hp (rstrip_idem after)) as [Ht _].
    exact (Hbad attrs se Ht).
  - unfold bind, lift. rewrite Hp. reflexivity.
Qed.

Lemma last_char_snoc (pre : string) (c : ascii) :
  last_char (pre +:+ String c EmptyString) = Some c.
Proof.
  induction pre as [|d pre IH]; [reflexivity|].
  rewrite app_cons. simpl. rewrite IH.
  destruct pre; [rewrite app_nil_l | rewrite app_cons]; reflexivity.
Qed.

(** X15. A line that starts a tag with attributes and does not end, once
    its trailing white space is taken off, in the closing angle bracket,
    a tag that goes on in the next line for one, fails the assertion of
    the attribute loop: nothing is printed for it. *)
Theorem prettify_line_rejects_unfinished_tag
    (line indent tag after : string) (out_stream : stream) (w : world) :
  match_start_attr_tag line = Some (indent, tag, after) ->
  last_char (rstrip after) <> Some ">"%char ->
  prettify_line line out_stream w = (Err AssertionError, w).
Proof.
  intros Hm Hlast. apply (prettify_line_no_attr_text _ _ _ _ _ _ Hm).
  intros attrs se Ht. destruct (attr_text_ends _ _ _ Ht) as (pre & E).
  apply Hlast. rewrite E. apply last_char_snoc.
Qed.

Lemma prettify_line_rejects_unfinished_tag_witness :
  prettify_line unfinished_line Stdout quiet_world = (Err AssertionError, quiet_world).
Proof.
  apply (prettify_line_rejects_unfinished_tag unfinished_line EmptyString "Place"
           (String.substring 7 20 unfinished_line)).
  - vm_compute. reflexivity.
  - vm_compute. discriminate.
Defined.

Lemma after_gt_app_none (a b : string) :
  after_gt a = None -> after_gt (a +:+ b) = after_gt b.
Proof.
  induction a as [|c a IH]; intros H; [now rewrite app_nil_l|].
  rewrite app_cons. simpl in *. destruct (Ascii.eqb c ">"); [discriminate | auto].
Qed.

Lemma after_gt_app_some (a b x : string) :
  after_gt a = Some x -> after_gt (a +:+ b) = Some (x +:+ b).
Proof.
  induction a as [|c a IH]; intros H; [discriminate|].
  rewrite app_cons. simpl in *. destruct (Ascii.eqb c ">"); [|auto].
  inversion H. reflexivity.
Qed.

Lemma after_gt_none (p : ascii -> bool) (a : string) :
  p ">"%char = false -> all_chars p a = true -> after_gt a = None.
Proof.
  intros Hp. induction a as [|c a IH]; intros H; [reflexivity|].
  simpl in *. apply andb_true_iff in H. destruct H as [Hc Ha].
  destruct (Ascii.eqb_spec c ">") as [->|_]; [congruence | auto].
Qed.

Lemma all_chars_quote (a b : string) :
  all_chars not_quote (a +:+ quote +:+ b) = false.
Proof.
  rewrite all_chars_app. destruct (all_chars not_quote a); reflexivity.
Qed.

(** In attribute text, what stands behind the first closing angle
    bracket is nothing, or it has a double quote in it (the bracket was
    inside a value). *)
Lemma attr_text_after_gt (attrs : list (string * string)) (se : bool) (s t : string) :
  attr_text attrs se s -> after_gt s = Some t ->
  t = EmptyString \/ all_chars not_quote t = false.
Proof.
  intros H. revert t.
  induction H as [ws se Hws | ws n v attrs se rest Hws Hne Hn Hv Ht IH]; intros t.
  - rewrite (after_gt_app_none ws) by (now apply (after_gt_none is_space)).
    destruct se; simpl; intros E; inversion E; now left.
  - rewrite (after_gt_app_none ws) by (now apply (after_gt_none is_space)).
    unfold attr_source. simpl fst. simpl snd.
    rewrite !string_app_assoc.
    rewrite (after_gt_app_none n) by (now apply (after_gt_none is_word)).
    rewrite app_cons, app_nil_l. unfold quote at 1. rewrite app_cons, app_nil_l.
    cbn [after_gt Ascii.eqb Bool.eqb]. cbv iota.
    destruct (after_gt v) as [x|] eqn:Hx.
    + rewrite (after_gt_app_some v _ x Hx). intros E. inversion E.
      right. apply all_chars_quote.
    + rewrite (after_gt_app_none v _ Hx). unfold quote. rewrite app_cons, app_nil_l.
      cbn [after_gt Ascii.eqb Bool.eqb]. cbv iota. apply IH.
Qed.

(** X16. A line that starts a tag with attributes and has text behind the
    bracket that closes the tag (the text of the element, the closing
    tag) fails the assertion of the attribute loop, and nothing is
    printed for it: the pattern for the end of the attributes wants the
    bracket at the end of the line.  Here the bracket is the first one
    of the line behind the tag name and the text behind it has no double
    quote. *)
Theorem prettify_line_rejects_inline_text
    (line indent tag after tail : string) (out_stream : stream) (w : world) :
  match_start_attr_tag line = Some (indent, tag, after) ->
  after_gt (rstrip after) = Some tail ->
  is_empty tail = false ->
  all_chars not_quote tail = true ->
  prettify_line line out_stream w = (Err AssertionError, w).
Proof.
  intros Hm Hgt Hne Hq. apply (prettify_line_no_attr_text _ _ _ _ _ _ Hm).
  intros attrs se Ht.
  destruct (attr_text_after_gt _ _ _ _ Ht Hgt) as [->|Hq']; [discriminate | congruence].
Qed.

Lemma prettify_line_rejects_inline_text_witness :
  prettify_line inline_text_line Stdout quiet_world = (Err AssertionError, quiet_world).
Proof.
  apply (prettify_line_rejects_inline_text inline_text_line "  " "Name"
           (String.substring 8 40 inline_text_line) "Andromeda</Name>").
  - vm_compute. reflexivity.
  - vm_compute. reflexivity.
  - reflexivity.
  - reflexivity.
Defined.

(** ** The command line *)

(** X17. The chain of tests in [entrypoint] runs [do_format_imagesets]
    for the name with a hyphen only, while the parser is given the name
    with an underscore: none of the names registered as subcommands, and
    no command line without a subcommand, reaches [do_format_imagesets],
    and the registered [format_imagesets] ends in the usage error for an
    unknown subcommand, with exit code 1. *)
Theorem format_imagesets_unreachable :
  (forall s, dispatch (Some s) = RunFormatImagesets <-> s = "format-imagesets") /\
  Forall (fun s => dispatch (Some s) <> RunFormatImagesets) subparser_names /\
  dispatch None <> RunFormatImagesets /\
  dispatch (Some "format_imagesets")
  = Die "usage error:" "unknown subcommand `format_imagesets`" 1.
Proof.
  split; [|split; [|split]].
  - intros s. unfold dispatch. split.
    + destruct (String.eqb_spec s "format-imagesets") as [->|_]; [reflexivity|].
      destruct (String.eqb s "ingest"); [discriminate|].
      destruct (String.eqb s "prettify"); discriminate.
    + intros ->. reflexivity.
  - repeat constructor; discriminate.
  - discriminate.
  - reflexivity.
Qed.

(** ** Sort keys that cannot be compared *)

Lemma tuple_ltb_error (a b : list pyval) (e : pyerr) :
  tuple_ltb a b = Err e -> e = TypeError.
Proof.
  revert b. induction a as [|x a IH]; intros [|y b]; simpl; try discriminate.
  destruct (py_eqb x y); [apply IH|].
  destruct x, y; simpl; intros H; inversion H; reflexivity.
Qed.

Lemma insert_by_error {A} (x : list pyval * A) (l : list (list pyval * A)) (e : pyerr) :
  insert_by tuple_ltb x l = Err e -> e = TypeError.
Proof.
  induction l as [|y l IH]; simpl; [discriminate|].
  destruct (tuple_ltb (fst y) (fst x)) as [[|]|e'] eqn:Hc; simpl.
  - destruct (insert_by tuple_ltb x l) as [r|e']; simpl; [discriminate|].
    intros H. inversion H. subst. now apply IH.
  - discriminate.
  - intros H. inversion H. subst. exact (tuple_ltb_error _ _ _ Hc).
Qed.

Lemma sort_by_error {A} (l : list (list pyval * A)) (e : pyerr) :
  sort_by tuple_ltb l = Err e -> e = TypeError.
Proof.
  induction l as [|x l IH]; simpl; [discriminate|].
  destruct (sort_by tuple_ltb l) as [r|e']; simpl.
  - apply insert_by_error.
  - intros H. inversion H. subst. now apply IH.
Qed.

Lemma led_by_other (b : bool) (k : list pyval) :
  led_by b k = true -> led_by (negb b) k = false.
Proof. destruct k as [|[] k], b; simpl; congruence. Qed.

(** A key that starts with a number and one that starts with a string
    are not compared; only an empty key is in front of either. *)
Lemma tuple_ltb_led (b : bool) (h z : list pyval) :
  led_by b z = true -> led_by b h = false ->
  (h = [] /\ tuple_ltb h z = Ok true) \/ tuple_ltb h z = Err TypeError.
Proof.
  destruct h as [|x h]; destruct z as [|y z]; simpl; try discriminate.
  - intros _ _. left. split; reflexivity.
  - destruct x, y, b; simpl; try discriminate; intros _ _; right; reflexivity.
Qed.

Lemma insert_by_mixed {A} (b : bool) (z : list pyval * A)
    (r : list (list pyval * A)) :
  led_by b (fst z) = true ->
  existsb (fun h => led_by b (fst h)) r = false ->
  existsb (fun h => led_by (negb b) (fst h)) r = true ->
  insert_by tuple_ltb z r = Err TypeError.
Proof.
  intros Hz. induction r as [|h r IH]; simpl; [discriminate|].
  intros Hnone Hsome. apply orb_false_iff in Hnone. destruct Hnone as [Hh Hnone].
  destruct (tuple_ltb_led b (fst h) (fst z) Hz Hh) as [[Eh ->]| ->]; [|reflexivity].
  simpl. rewrite Eh in Hsome. simpl in Hsome.
  now rewrite (IH Hnone Hsome).
Qed.

Lemma existsb_perm {A} (f : A -> bool) (l l' : list A) :
  Permutation l l' -> existsb f l = existsb f l'.
Proof.
  induction 1 as [|x l l' _ IH|x y l|l l' l'' _ IH1 _ IH2]; simpl.
  - reflexivity.
  - now rewrite IH.
  - now destruct (f x), (f y).
  - congruence.
Qed.

(** A list with a key that starts with a number and a key that starts
    with a string is not sorted: the comparison of two such keys is
    reached, and it raises the type error. *)
Lemma sort_by_mixed {A} (kl : list (list pyval * A)) :
  existsb (fun h => led_by true (fst h)) kl = true ->
  existsb (fun h => led_by false (fst h)) kl = true ->
  sort_by tuple_ltb kl = Err TypeError.
Proof.
  induction kl as [|z kl IH]; simpl; [discriminate|].
  intros Ht Hf.
  destruct (sort_by tuple_ltb kl) as [r|e] eqn:Hs; simpl.
  2:{ now rewrite (sort_by_error kl e Hs). }
  pose proof (sort_by_perm tuple_ltb kl r Hs) as Hperm.
  destruct (existsb (fun h => led_by true (fst h)) kl) eqn:Et;
    destruct (existsb (fun h => led_by false (fst h)) kl) eqn:Ef.
  - discriminate (IH eq_refl eq_refl).
  - rewrite orb_false_r in Hf.
    apply (insert_by_mixed false).
    + exact Hf.
    + now rewrite (existsb_perm _ _ _ Hperm).
    + simpl negb. now rewrite (existsb_perm _ _ _ Hperm).
  - rewrite orb_false_r in Ht.
    apply (insert_by_mixed true).
    + exact Ht.
    + now rewrite (existsb_perm _ _ _ Hperm).
    + simpl negb. now rewrite (existsb_perm _ _ _ Hperm).
  - rewrite orb_false_r in Ht, Hf.
    pose proof (led_by_other true _ Ht) as Hn. simpl negb in Hn. congruence.
Qed.

Lemma with_keys_in {A K} (key : A -> result K) (l : list A) (kl : list (K * A))
    (x : A) :
  with_keys key l = Ok kl -> In x l -> exists k, key x = Ok k /\ In (k, x) kl.
Proof.
  revert kl. induction l as [|y l IH]; intros kl H Hin; [destruct Hin|].
  simpl in H. destruct (key y) as [k|e] eqn:Hy; simpl in H; [|discriminate].
  destruct (with_keys key l) as [kl'|e]; simpl in H; [|discriminate].
  inversion H. subst. destruct Hin as [->|Hin].
  - exists k. split; [exact Hy | now left].
  - destruct (IH kl' eq_refl Hin) as (k' & Hk & Hin'). exists k'.
    split; [exact Hk | now right].
Qed.

(** The sort of a shard with two such records fails, with the type
    error when every key of the shard computes. *)
Lemma sorted_mixed (g : list (gmap string pyval)) (a b : gmap string pyval)
    (ka kb : list pyval) :
  In a g -> In b g ->
  sortkey a = Ok ka -> led_by true ka = true ->
  sortkey b = Ok kb -> led_by false kb = true ->
  (exists e, sorted tuple_ltb sortkey g = Err e) /\
  (Forall (fun x => exists k, sortkey x = Ok k) g ->
   sorted tuple_ltb sortkey g = Err TypeError).
Proof.
  intros Ha Hb Hka Hla Hkb Hlb. unfold sorted.
  destruct (with_keys sortkey g) as [kl|e] eqn:Hk; simpl.
  - assert (Hs : sort_by tuple_ltb kl = Err TypeError).
    { destruct (with_keys_in sortkey g kl a Hk Ha) as (ka' & Hka' & Hina).
      destruct (with_keys_in sortkey g kl b Hk Hb) as (kb' & Hkb' & Hinb).
      assert (ka' = ka) by congruence. assert (kb' = kb) by congruence. subst.
      apply sort_by_mixed; apply existsb_exists; eauto. }
    rewrite Hs. split; [eauto | reflexivity].
  - split; [eauto|]. intros Hall. exfalso.
    assert (Hgen : forall l, Forall (fun x => exists k, sortkey x = Ok k) l ->
                             exists kl, with_keys sortkey l = Ok kl).
    { induction l as [|x l IH]; intros Hl; [now exists []|].
      apply Forall_cons in Hl. destruct Hl as [(k & Hx) Hl].
      destruct (IH Hl) as (kl & Hkl). simpl. rewrite Hx, Hkl. simpl. eauto. }
    destruct (Hgen g Hall) as (kl' & Hk'). congruence.
Qed.

(** Two records of one shard, one with a key that starts with a number,
    or none, one with a key that starts with a string, or none: the
    store is not rewritten. *)
Lemma rewrite_fails_on_mixed (self : PlaceDatabase) (w : world)
    (a b : gmap string pyval) (k : string) :
  In a (infos self) -> In b (infos self) ->
  place_key a = Ok k -> place_key b = Ok k ->
  (forall ka, sortkey a = Ok ka -> led_by true ka = true) ->
  (forall kb, sortkey b = Ok kb -> led_by false kb = true) ->
  exists e w',
    PlaceDatabase_rewrite self w = (Err e, w') /\
    (plain_keys (infos self) ->
     fs w' !! pdb_dir self = fs w !! pdb_dir self).
Proof.
  intros Ha Hb Hka Hkb Hla Hlb.
  destruct (places_by_key (infos self) []) as [by_key|e] eqn:Hby.
  2:{ exists e, w. unfold PlaceDatabase_rewrite, bind, lift. rewrite Hby.
      split; reflexivity. }
  destruct (places_by_key_fold _ _ _ Hby) as [Efold _].
  destruct (group_fold place_key_or_empty (infos self) [])
    as (_ & _ & Hget); [constructor | constructor |].
  rewrite <- Efold in Hget. specialize (Hget k). simpl in Hget.
  assert (Hmem : forall x, In x (infos self) -> place_key x = Ok k ->
                           In x (group_get k by_key)).
  { intros x Hx Hk. rewrite Hget. apply filter_In. split; [exact Hx|].
    unfold place_key_or_empty. rewrite Hk. apply String.eqb_refl. }
  assert (Hshard : In (k, group_get k by_key) by_key).
  { apply group_get_in. intros E. pose proof (Hmem a Ha Hka) as Hin.
    rewrite E in Hin. destruct Hin. }
  assert (Hmiss : forall x e, In x (group_get k by_key) -> sortkey x = Err e ->
                  exists e', sorted tuple_ltb sortkey (group_get k by_key) = Err e').
  { intros x e Hx Hs.
    destruct (with_keys_fails sortkey _ x Hx (ex_intro _ e Hs)) as (e' & He').
    exists e'. unfold sorted. now rewrite He'. }
  assert (Hfail : exists e, sorted tuple_ltb sortkey (group_get k by_key) = Err e).
  { destruct (sortkey a) as [ka|e] eqn:Hsa; [|exact (Hmiss a e (Hmem a Ha Hka) Hsa)].
    destruct (sortkey b) as [kb|e] eqn:Hsb; [|exact (Hmiss b e (Hmem b Hb Hkb) Hsb)].
    exact (proj1 (sorted_mixed _ a b ka kb (Hmem a Ha Hka) (Hmem b Hb Hkb)
                    Hsa (Hla ka eq_refl) Hsb (Hlb kb eq_refl))). }
  destruct Hfail as (e & He).
  exact (rewrite_fails_on_unsortable self w by_key _ e Hby Hshard He).
Qed.

(** X18. Python does not order a number and a string.  A shard with a
    record whose sort key starts with a number (the declination or the
    latitude of a record without url) and a record whose sort key starts
    with a string (a character of a url, or the name) is not sorted: the
    type error is raised, whatever else the shard holds and in whatever
    order, as soon as all its keys compute.  A store that holds two such
    records under one partition key is not rewritten: the run ends with
    an error, and the place catalog is as it was when the partition keys
    of the records held make file names. *)
Theorem mixed_keys_block_rewrite (self : PlaceDatabase) (w : world)
    (a b : gmap string pyval) (k : string) (ka kb : list pyval) :
  In a (infos self) -> In b (infos self) ->
  place_key a = Ok k -> place_key b = Ok k ->
  sortkey a = Ok ka -> led_by true ka = true ->
  sortkey b = Ok kb -> led_by false kb = true ->
  (forall g, In a g -> In b g ->
             Forall (fun x => exists kx, sortkey x = Ok kx) g ->
             sorted tuple_ltb sortkey g = Err TypeError) /\
  exists e w',
    PlaceDatabase_rewrite self w = (Err e, w') /\
    (plain_keys (infos self) ->
     fs w' !! pdb_dir self = fs w !! pdb_dir self).
Proof.
  intros Ha Hb Hka Hkb Hsa Hla Hsb Hlb. split.
  - intros g Hga Hgb Hall.
    exact (proj2 (sorted_mixed g a b ka kb Hga Hgb Hsa Hla Hsb Hlb) Hall).
  - apply (rewrite_fails_on_mixed self w a b k); try assumption.
    + intros ka' E. congruence.
    + intros kb' E. congruence.
Qed.

Lemma mixed_keys_block_rewrite_witness :
  (forall g, In place_altair g -> In place_equator g ->
             Forall (fun x => exists kx, sortkey x = Ok kx) g ->
             sorted tuple_ltb sortkey g = Err TypeError) /\
  exists e w',
    PlaceDatabase_rewrite mixed_pdb places_disk = (Err e, w') /\
    (plain_keys (infos mixed_pdb) ->
     fs w' !! pdb_dir mixed_pdb = fs places_disk !! pdb_dir mixed_pdb).
Proof.
  apply (mixed_keys_block_rewrite mixed_pdb places_disk place_altair place_equator
           "sky_ra18" [VNum 8; VNum (37 # 2); VStr "Altair"] [VStr "Equator 18h"]).
  - left. reflexivity.
  - right. left. reflexivity.
  - vm_compute. reflexivity.
  - vm_compute. reflexivity.
  - vm_compute. reflexivity.
  - reflexivity.
  - vm_compute. reflexivity.
  - reflexivity.
Defined.

(** ** The sort key of a distilled record *)

Lemma url_chars_of (s : option ImageSet) :
  url_chars (match s with Some i => VStr (url i) | None => VNone end) = url_of s.
Proof. destruct s; reflexivity. Qed.

Lemma sortkey_of_place (place : Place) :
  sortkey (place_info place)
  = (dec <-! coordinate_pair (p_dec_deg place) (p_ra_hr place) "ra_hr";
     lat <-! coordinate_pair (p_latitude place) (p_longitude place) "longitude";
     Ok (url_of (p_foreground_image_set place) ++ url_of (p_image_set place)
         ++ url_of (p_background_image_set place)
         ++ dec ++ lat ++ [VStr (p_name place)]))%res.
Proof.
  rewrite (sortkey_parts _ (place_info_urls_typed place)).
  unfold key_tail, pair_component, coordinate_pair, dict_get, dict_item.
  rewrite place_info_foreground_url, place_info_image_set_url,
    place_info_background_url, place_info_dec_deg, place_info_ra_hr,
    place_info_latitude, place_info_longitude, place_info_name.
  destruct (p_foreground_image_set place), (p_image_set place),
    (p_background_image_set place),
    (num_ne (p_dec_deg place) 0), (num_ne (p_ra_hr place) 0),
    (num_ne (p_latitude place) 0), (num_ne (p_longitude place) 0); reflexivity.
Qed.

Lemma place_key_computes (place : Place) :
  exists k, place_key (place_info place) = Ok k.
Proof.
  rewrite (place_key_parts (place_info place) (p_data_set_type place)).
  - eauto.
  - apply place_info_data_set_type.
  - unfold dict_get. rewrite place_info_ra_hr.
    destruct (num_ne (p_ra_hr place) 0); exact I.
  - unfold dict_get. rewrite place_info_longitude.
    destruct (num_ne (p_longitude place) 0); exact I.
Qed.

Lemma sortkey_starts_with_number (place : Place) (k : list pyval) :
  starts_with_number place ->
  sortkey (place_info place) = Ok k -> led_by true k = true.
Proof.
  intros [Hu Hc]. rewrite sortkey_of_place. fold (url_items place).
  assert (E : forall dec lat, url_of (p_foreground_image_set place)
                ++ url_of (p_image_set place)
                ++ url_of (p_background_image_set place) ++ dec ++ lat
                ++ [VStr (p_name place)]
              = url_items place ++ dec ++ lat ++ [VStr (p_name place)]).
  { intros dec lat. unfold url_items. now rewrite <- !app_assoc. }
  unfold coordinate_pair.
  destruct (num_ne (p_dec_deg place) 0);
    [destruct (num_ne (p_ra_hr place) 0); [|discriminate]|];
    cbn [rbind];
    (destruct (num_ne (p_latitude place) 0);
     [destruct (num_ne (p_longitude place) 0); [|discriminate]|]);
    cbn [rbind]; rewrite E, Hu; intros H; inversion H; try reflexivity.
  destruct Hc; discriminate.
Qed.

Lemma chars_strings (s : string) : Forall (fun v => exists c, v = VStr c) (chars s).
Proof. induction s; simpl; constructor; eauto. Qed.

Lemma url_items_strings (place : Place) :
  Forall (fun v => exists c, v = VStr c) (url_items place).
Proof.
  unfold url_items, url_of.
  destruct (p_foreground_image_set place), (p_image_set place),
    (p_background_image_set place);
    repeat (apply Forall_app; split); try apply chars_strings; constructor.
Qed.

Lemma sortkey_starts_with_text (place : Place) (k : list pyval) :
  starts_with_text place ->
  sortkey (place_info place) = Ok k -> led_by false k = true.
Proof.
  intros Ht. rewrite sortkey_of_place.
  assert (E : forall dec lat, url_of (p_foreground_image_set place)
                ++ url_of (p_image_set place)
                ++ url_of (p_background_image_set place) ++ dec ++ lat
                ++ [VStr (p_name place)]
              = url_items place ++ dec ++ lat ++ [VStr (p_name place)]).
  { intros dec lat. unfold url_items. now rewrite <- !app_assoc. }
  destruct (coordinate_pair (p_dec_deg place) (p_ra_hr place) "ra_hr")
    as [dec|e] eqn:Hdec; [|discriminate]. cbn [rbind].
  destruct (coordinate_pair (p_latitude place) (p_longitude place) "longitude")
    as [lat|e] eqn:Hlat; [|discriminate]. cbn [rbind].
  rewrite E. intros H. inversion H. subst k. clear H.
  pose proof (url_items_strings place) as Hs.
  destruct (url_items place) as [|v l] eqn:Hu.
  - destruct Ht as [Ht|[Hd Hl]]; [congruence|].
    unfold coordinate_pair in Hdec, Hlat. rewrite Hd in Hdec. rewrite Hl in Hlat.
    inversion Hdec. inversion Hlat. reflexivity.
  - apply Forall_cons in Hs. destruct Hs as [(c & ->) _]. reflexivity.
Qed.

(** X19. A trait at its default is left out of the distilled record, and
    every character of a url is an item of the sort key.  So the sort key
    of a place starts with a number when the place has no url and a
    declination or latitude other than 0, and with a string when it has a
    url, or has no url and declination and latitude 0.  Python does not
    order such keys: once a walk has ingested a place of the first kind
    and a place of the second kind that fall in one shard, say a place
    without imageset and a place with one in the same hour of right
    ascension, no rewrite of the place database succeeds, whatever the
    disk; each run ends with an error, and it leaves the place catalog as
    it was when the partition keys of the records held make file
    names. *)
Theorem unlike_places_block_rewrite (pa pb : Place) (items : list item)
    (idb : ImagesetDatabase) (pdb : PlaceDatabase) (w : world) :
  starts_with_number pa -> starts_with_text pb ->
  place_key (place_info pa) = place_key (place_info pb) ->
  In (ItemPlace pa) items -> In (ItemPlace pb) items ->
  (forall ka, sortkey (place_info pa) = Ok ka -> led_by true ka = true) /\
  (forall kb, sortkey (place_info pb) = Ok kb -> led_by false kb = true) /\
  exists idb' pdb' w1,
    ingest_items items idb pdb w = (Ok (idb', pdb'), w1) /\
    forall w2, exists e w3,
      PlaceDatabase_rewrite pdb' w2 = (Err e, w3) /\
      (plain_keys (infos pdb') ->
       fs w3 !! pdb_dir pdb = fs w2 !! pdb_dir pdb).
Proof.
  intros Hna Htb Hkey Hina Hinb.
  pose proof (fun ka => sortkey_starts_with_number pa ka Hna) as Hsa.
  pose proof (fun kb => sortkey_starts_with_text pb kb Htb) as Hsb.
  split; [exact Hsa|]. split; [exact Hsb|].
  destruct (ingest_items_spec items idb pdb w)
    as (idb' & pdb' & w1 & Hrun & _ & _ & _ & Hdir & Hinfos & _).
  exists idb', pdb', w1. split; [exact Hrun|]. intros w2. rewrite <- Hdir.
  destruct (place_key_computes pa) as (k & Hk).
  apply (rewrite_fails_on_mixed pdb' w2 (place_info pa) (place_info pb) k).
  - rewrite Hinfos. apply in_or_app. right. apply in_map. now apply items_places_in.
  - rewrite Hinfos. apply in_or_app. right. apply in_map. now apply items_places_in.
  - exact Hk.
  - now rewrite <- Hkey.
  - exact Hsa.
  - exact Hsb.
Qed.

Lemma unlike_places_block_rewrite_witness :
  (forall ka, sortkey (place_info altair) = Ok ka -> led_by true ka = true) /\
  (forall kb, sortkey (place_info vega_with_image) = Ok kb ->
              led_by false kb = true) /\
  exists idb' pdb' w1,
    ingest_items unlike_items one_db empty_pdb both_catalogs
    = (Ok (idb', pdb'), w1) /\
    forall w2, exists e w3,
      PlaceDatabase_rewrite pdb' w2 = (Err e, w3) /\
      (plain_keys (infos pdb') ->
       fs w3 !! pdb_dir empty_pdb = fs w2 !! pdb_dir empty_pdb).
Proof.
  apply (unlike_places_block_rewrite altair vega_with_image unlike_items
           one_db empty_pdb both_catalogs).
  - split; [reflexivity | left; reflexivity].
  - left. discriminate.
  - vm_compute. reflexivity.
  - right. right. right. left. reflexivity.
  - right. left. reflexivity.
Defined.

(** ** An ingest that succeeds *)

(** X20. When [do_ingest] returns, with the two catalogs on paths of
    their own and partition keys that make file names for the places held
    after the walk, both catalogs are replaced: the imageset catalog holds
    the shard files of the imagesets held after the walk, the place
    catalog the shard files of the places held after the walk, and the
    partition keys of all these places computed. *)
Theorem ingest_success_replaces_both
    (folder_xml_text : string -> list ImageSet -> string)
    (catname : string) (items : list item) (idb : ImagesetDatabase)
    (pdb : PlaceDatabase) (w w' : world) :
  db_dir idb <> pdb_dir pdb ->
  db_dir idb <> pdb_dir pdb +:+ ".new" ->
  db_dir idb <> pdb_dir pdb +:+ ".old" ->
  plain_keys (infos pdb ++ map place_info (items_places items)) ->
  do_ingest folder_xml_text catname items idb pdb w = (Ok tt, w') ->
  exists idb' pdb' by_key,
    fst (ingest_items items idb pdb w) = Ok (idb', pdb') /\
    places_by_key (infos pdb') [] = Ok by_key /\
    fs w' !! db_dir idb
    = Some (shard_files folder_xml_text (values (by_url idb'))) /\
    fs w' !! pdb_dir pdb = Some (place_files by_key).
Proof.
  intros Hdp Hdpn Hdpo Hplain. unfold do_ingest.
  set (w0 := World (fs w) (stdout w ++ ["catalog name: " +:+ catname])
                   (stderr w) (faults w)).
  assert (Hprint : print ("catalog name: " +:+ catname) Stdout w = (Ok tt, w0))
    by reflexivity.
  rewrite (bind_ok _ _ _ _ _ Hprint).
  destruct (ingest_items_spec items idb pdb w0)
    as (idb' & pdb' & w2 & Hwalk & _ & _ & Hd1 & Hpd1 & Hinfos & _).
  rewrite <- Hinfos in Hplain.
  rewrite (bind_ok _ _ _ _ _ Hwalk). simpl fst. simpl snd.
  pose proof (rewrite_outcomes folder_xml_text idb' w2) as Hout. cbv zeta in Hout.
  destruct (ImagesetDatabase_rewrite folder_xml_text idb' w2) as [[[]|e] w3] eqn:Hrun2.
  2:{ rewrite (bind_err _ _ _ _ _ Hrun2). discriminate. }
  rewrite (bind_ok _ _ _ _ _ Hrun2). simpl in Hout. intros Hrun3.
  destruct (place_rewrite_outcomes pdb' w3 _ w' Hplain Hrun3) as [Hframe Hr].
  destruct Hr as (by_key & Hby & _ & HD & _).
  exists idb', pdb', by_key. split; [|split; [exact Hby | split]].
  - rewrite (ingest_items_store items idb pdb w w0), Hwalk. reflexivity.
  - rewrite <- Hd1. rewrite Hframe; [exact Hout | | | ]; rewrite Hd1, Hpd1; auto.
  - now rewrite <- Hpd1.
Qed.

Lemma ingest_success_replaces_both_witness :
  exists idb' pdb' by_key,
    fst (ingest_items sound_items one_db empty_pdb both_catalogs) = Ok (idb', pdb') /\
    places_by_key (infos pdb') [] = Ok by_key /\
    fs (snd (do_ingest sample_xml_text "sound" sound_items one_db empty_pdb
               both_catalogs)) !! db_dir one_db
    = Some (shard_files sample_xml_text (values (by_url idb'))) /\
    fs (snd (do_ingest sample_xml_text "sound" sound_items one_db empty_pdb
               both_catalogs)) !! pdb_dir empty_pdb
    = Some (place_files by_key).
Proof.
  apply (ingest_success_replaces_both sample_xml_text "sound" sound_items
           one_db empty_pdb both_catalogs).
  - intro; discriminate.
  - intro; discriminate.
  - intro; discriminate.
  - repeat constructor.
  - vm_compute. reflexivity.
Defined.
